(** * PassVault: the credential cryptography subsystem

    A shallow embedding of [client/src/lib/password-generator.ts],
    [client/src/lib/crypto.ts], [server/storage.ts], [server/routes.ts] and
    the components of the client that seal, open, export and import
    credentials, together with the parts of the CryptoJS library the client
    calls; the properties the specification states about them, and further
    properties of the code. *)

From Stdlib Require Import List NArith ZArith Lia Bool String Ascii Permutation.
From Stdlib.Strings Require Import Byte.
From Stdlib Require Import Ring.
Import ListNotations.

Set Implicit Arguments.

(** ** JavaScript values *)

Module JS.

(** A JavaScript string is a sequence of UTF-16 code units. *)
Definition code_unit := N.
Definition jsstring := list code_unit.

(** An ASCII literal of the source as a JavaScript string. *)
Definition lit (s : string) : jsstring :=
  map N_of_ascii (list_ascii_of_string s).

(** [throw new Error(msg)] against a normal completion. *)
Inductive result (A : Type) : Type :=
| Ok (a : A)
| Throw (msg : string).
Arguments Throw {A} msg.

Definition is_ok {A} (r : result A) : bool :=
  match r with Ok _ => true | Throw _ => false end.

(** [try { body } catch (error) { throw new Error(msg) }] *)
Definition try_catch_rethrow {A} (body : result A) (msg : string) : result A :=
  match body with
  | Ok a => Ok a
  | Throw _ => Throw msg
  end.

(** A value of type [string | undefined] used where a string is expected:
    [undefined] is converted to the text "undefined". *)
Definition to_str (v : option code_unit) : jsstring :=
  match v with
  | Some c => [c]
  | None => lit "undefined"
  end.

(** [re.test(s)] for a regular expression that is one character class. *)
Definition test (class : code_unit -> bool) (s : jsstring) : bool :=
  existsb class s.

Definition in_range (lo hi c : N) : bool := ((lo <=? c) && (c <=? hi))%N.

(** The classes [a-z], [A-Z], [0-9] and [^A-Za-z0-9]. *)
Definition class_lower : code_unit -> bool := in_range 97 122.
Definition class_upper : code_unit -> bool := in_range 65 90.
Definition class_digit : code_unit -> bool := in_range 48 57.
Definition class_other (c : code_unit) : bool :=
  negb (class_upper c || class_lower c || class_digit c).

(** [x || null] and [x || fallback] for a value [x] of type
    [string | null | undefined]: the empty string is falsy as well. *)
Definition or_null (x : option jsstring) : option jsstring :=
  match x with
  | Some ((_ :: _) as s) => Some s
  | _ => None
  end.

Definition or_else (x : option jsstring) (fallback : jsstring) : jsstring :=
  match x with
  | Some ((_ :: _) as s) => s
  | _ => fallback
  end.

(** *** Math.random

    The host's random source is an arbitrary sequence of draws.  A draw [m]
    stands for the double [m / 2^53] in [0, 1); products with a string
    length are taken in exact arithmetic. *)
Definition Rng := nat -> N.
Definition M (A : Type) := Rng -> A * Rng.

Definition ret {A} (a : A) : M A := fun r => (a, r).
Definition bind {A B} (m : M A) (k : A -> M B) : M B :=
  fun r => let (a, r') := m r in k a r'.

Definition mantissa : N := 2 ^ 53.

Definition Math_random : M N :=
  fun r => ((r 0%nat mod mantissa)%N, fun i => r (S i)).

(** [Math.floor(Math.random() * n)] *)
Definition random_below (n : N) : M N :=
  bind Math_random (fun m => ret (m * n / mantissa)%N).

(** [() => Math.random() - 0.5], scaled by [2^53]. *)
Definition random_comparator (_ _ : code_unit) : M Z :=
  bind Math_random (fun m => ret (Z.of_N m - 2 ^ 52)%Z).

End JS.

Import JS.

Notation "x <- m ;; k" := (JS.bind m (fun x => k))
  (at level 61, m at next level, right associativity).

(** ** client/src/lib/crypto.ts: analyzePasswordStrength *)

Inductive Label := Weak | Moderate | Strong.

Record Strength := {
  score : N;
  label : Label;
  color : string
}.

Definition analyzePasswordStrength (password : jsstring) : Strength :=
  let score := 0%N in
  let len := N.of_nat (List.length password) in
  let score := if (8 <=? len)%N then (score + 1)%N else score in
  let score := if (12 <=? len)%N then (score + 1)%N else score in
  let score := if test class_lower password then (score + 1)%N else score in
  let score := if test class_upper password then (score + 1)%N else score in
  let score := if test class_digit password then (score + 1)%N else score in
  let score := if test class_other password then (score + 1)%N else score in
  if (score <=? 2)%N then
    {| score := score; label := Weak; color := "bg-red-500" |}
  else if (score <=? 4)%N then
    {| score := score; label := Moderate; color := "bg-yellow-500" |}
  else
    {| score := score; label := Strong; color := "bg-accent" |}.

(** The estimator as the specification words it: one point for each of six
    conditions, and the label read off the total. *)
Definition estimate_points (candidate : jsstring) : N :=
  (N.b2n (8 <=? N.of_nat (List.length candidate))
   + N.b2n (12 <=? N.of_nat (List.length candidate))
   + N.b2n (existsb class_lower candidate)
   + N.b2n (existsb class_upper candidate)
   + N.b2n (existsb class_digit candidate)
   + N.b2n (existsb class_other candidate))%N.

Definition estimate_label (points : N) : Label :=
  if (points <=? 2)%N then Weak
  else if (points <=? 4)%N then Moderate
  else Strong.

(** ** client/src/lib/password-generator.ts *)

Record PasswordGeneratorOptions := {
  length : Z;
  uppercase : bool;
  lowercase : bool;
  numbers : bool;
  symbols : bool
}.

Module PasswordGenerator.

Definition UPPERCASE : jsstring := lit "ABCDEFGHIJKLMNOPQRSTUVWXYZ".
Definition LOWERCASE : jsstring := lit "abcdefghijklmnopqrstuvwxyz".
Definition NUMBERS : jsstring := lit "0123456789".
Definition SYMBOLS : jsstring := lit "!@#$%^&*()_+-=[]{}|;:,.<>?".

Definition no_class_message : string :=
  "At least one character type must be selected".

(** [charset[randomIndex]]: a one-character string, or [undefined] when the
    index is past the end. *)
Definition getRandomChar (charset : jsstring) : M (option code_unit) :=
  randomIndex <- random_below (N.of_nat (List.length charset)) ;;
  ret (nth_error charset (N.to_nat randomIndex)).

(** [if (flag) guaranteedChars.push(this.getRandomChar(class))] *)
Definition push_guaranteed (flag : bool) (class : jsstring)
    (guaranteedChars : list (option code_unit)) : M (list (option code_unit)) :=
  if flag then
    c <- getRandomChar class ;;
    ret (guaranteedChars ++ [c])
  else ret guaranteedChars.

(** [for (let i = guaranteedChars.length; i < options.length; i++)], by the
    number of iterations left. *)
Fixpoint fill (iterations : nat) (charset password : jsstring) : M jsstring :=
  match iterations with
  | O => ret password
  | S n =>
      c <- getRandomChar charset ;;
      fill n charset (password ++ to_str c)
  end.

Section Engine.

(** [Array.prototype.sort] belongs to the host engine: with a comparator
    that is not consistent the order it produces is implementation
    defined, and the result is still a rearrangement of the array. *)
Variable Array_sort :
  (code_unit -> code_unit -> M Z) -> list code_unit -> M (list code_unit).

(** [str.split('').sort(() => Math.random() - 0.5).join('')] *)
Definition shuffleString (str : jsstring) : M jsstring :=
  Array_sort random_comparator str.

Definition generate (options : PasswordGeneratorOptions) : M (result jsstring) :=
  let charset := [] in
  let charset := if uppercase options then charset ++ UPPERCASE else charset in
  let charset := if lowercase options then charset ++ LOWERCASE else charset in
  let charset := if numbers options then charset ++ NUMBERS else charset in
  let charset := if symbols options then charset ++ SYMBOLS else charset in
  match charset with
  | [] => ret (Throw no_class_message)
  | _ :: _ =>
      let password := [] in
      let guaranteedChars := [] in
      guaranteedChars <- push_guaranteed (uppercase options) UPPERCASE guaranteedChars ;;
      guaranteedChars <- push_guaranteed (lowercase options) LOWERCASE guaranteedChars ;;
      guaranteedChars <- push_guaranteed (numbers options) NUMBERS guaranteedChars ;;
      guaranteedChars <- push_guaranteed (symbols options) SYMBOLS guaranteedChars ;;
      let password :=
        fold_left (fun p char => p ++ to_str char) guaranteedChars password in
      password <-
        fill (Z.to_nat (length options - Z.of_nat (List.length guaranteedChars)))
             charset password ;;
      shuffled <- shuffleString password ;;
      ret (Ok shuffled)
  end.

End Engine.

(** One engine: insertion of each element into the sorted prefix, walking
    from its right end while the comparator answers "greater". *)
Fixpoint insert_by (cmp : code_unit -> code_unit -> M Z) (x : code_unit)
    (sorted : list code_unit) : M (list code_unit) :=
  match sorted with
  | [] => ret [x]
  | y :: rest =>
      order <- cmp x y ;;
      if (order <=? 0)%Z then ret (x :: y :: rest)
      else
        rest' <- insert_by cmp x rest ;;
        ret (y :: rest')
  end.

Fixpoint insertion_sort (cmp : code_unit -> code_unit -> M Z)
    (l : list code_unit) : M (list code_unit) :=
  match l with
  | [] => ret []
  | x :: rest =>
      sorted <- insertion_sort cmp rest ;;
      insert_by cmp x sorted
  end.

End PasswordGenerator.

(** ** shared/schema.ts *)

Definition str_eqb (a b : jsstring) : bool :=
  if list_eq_dec N.eq_dec a b then true else false.

Module User.
Record t := {
  id : jsstring;
  username : jsstring;
  password : jsstring;
  recoveryKey : jsstring;
  createdAt : N
}.

(** [set({ password })] on one row. *)
Definition set_password (u : t) (p : jsstring) : t :=
  {| id := id u; username := username u; password := p;
     recoveryKey := recoveryKey u; createdAt := createdAt u |}.
End User.

Module Credential.
Record t := {
  id : jsstring;
  userId : jsstring;
  name : jsstring;
  url : option jsstring;
  username : jsstring;
  encryptedPassword : jsstring;
  category : jsstring;
  createdAt : N;
  updatedAt : N
}.
End Credential.

(** [InsertUser & { recoveryKey: string }] *)
Record InsertUser := {
  new_username : jsstring;
  new_password : jsstring;
  new_recoveryKey : jsstring
}.

(** [InsertCredential]: the columns [insertCredentialSchema] picks.  [url]
    may be null or left out, [category], which has a default, left out. *)
Record InsertCredential := {
  ins_name : jsstring;
  ins_url : option jsstring;
  ins_username : jsstring;
  ins_encryptedPassword : jsstring;
  ins_category : option jsstring
}.

(** [UpdateCredential], the partial of it: every column may be left out,
    and [url] may be given as null. *)
Record UpdateCredential := {
  upd_name : option jsstring;
  upd_url : option (option jsstring);
  upd_username : option jsstring;
  upd_encryptedPassword : option jsstring;
  upd_category : option jsstring
}.

(** The two tables, rows in storage order. *)
Record Database := {
  users : list User.t;
  credentials : list Credential.t
}.

(** ** server/storage.ts and server/routes.ts *)

Record Response := {
  status : N;
  message : string
}.

(** A property of a request body that no schema has validated is of type
    [any]: a string, or a value of another kind - undefined for a property
    that is missing, null, a number, an object. *)
Section Body.

Variable Other : Type.

Inductive BodyValue : Type :=
| AString (s : jsstring)
| NoString (v : Other).

(** [const { username, recoveryKey, newPassword } = req.body] *)
Record ResetRequest := {
  req_username : BodyValue;
  req_recoveryKey : BodyValue;
  req_newPassword : BodyValue
}.

End Body.

Arguments AString {Other} s.

Module Server.

(** *** Texts on their way to the database

    The driver sends a string as its UTF-8 encoding, in which an unpaired
    surrogate is the replacement character U+FFFD, and the database
    refuses a text that holds U+0000.  This concerns the strings of a
    request; the identifier of a row that was read, and the hash that
    [server/auth.ts] returned, are texts the database holds as they are. *)
Definition invalid_byte_sequence : string :=
  "invalid byte sequence for encoding UTF8: 0x00".

Definition replacement_character : code_unit := 65533%N.

Fixpoint scrub (s : jsstring) : jsstring :=
  match s with
  | [] => []
  | c :: rest =>
      if in_range 55296 56319 c then
        match rest with
        | d :: rest' =>
            if in_range 56320 57343 d then c :: d :: scrub rest'
            else replacement_character :: scrub rest
        | [] => [replacement_character]
        end
      else if in_range 56320 57343 c then replacement_character :: scrub rest
      else c :: scrub rest
  end.

Definition text_parameter (s : jsstring) : result jsstring :=
  if existsb (N.eqb 0) s then Throw invalid_byte_sequence else Ok (scrub s).

(** A column that may be null. *)
Definition nullable_parameter (x : option jsstring) : result (option jsstring) :=
  match x with
  | None => Ok None
  | Some s =>
      match text_parameter s with
      | Ok text => Ok (Some text)
      | Throw e => Throw e
      end
  end.

(** A column that an update may leave out. *)
Definition optional_parameter (x : option jsstring) : result (option jsstring) :=
  nullable_parameter x.

(** Where the database puts a row that it writes: at a place of its
    choice among the rows of the table. *)
Definition put_at {A} (place : nat) (written rows : list A) : list A :=
  firstn place rows ++ written ++ skipn place rows.

(** [db.update(users).set({ password }).where(eq(users.id, id))] *)
Definition updateUserPassword (db : Database) (id password : jsstring) : Database :=
  {| users :=
       map (fun u => if str_eqb (User.id u) id then User.set_password u password else u)
           (users db);
     credentials := credentials db |}.


(** What the database answers to a row that breaks a constraint of
    [shared/schema.ts]: a primary key or [unique()] column that is taken,
    a reference to a row that does not exist. *)
Definition unique_violation : string :=
  "duplicate key value violates unique constraint".
Definition foreign_key_violation : string :=
  "insert or update on table violates foreign key constraint".

(** [db.insert(users).values(insertUser).returning()].  The database fills
    the defaults of the table in: [generated] is what [gen_random_uuid()]
    gives, [now] what [now()] gives. *)
Definition createUser (generated : jsstring) (now : N) (db : Database)
    (insertUser : InsertUser) : result (Database * User.t) :=
  match text_parameter (new_username insertUser),
        text_parameter (new_password insertUser),
        text_parameter (new_recoveryKey insertUser) with
  | Ok username, Ok password, Ok recoveryKey =>
      if existsb (fun u => str_eqb (User.id u) generated) (users db) then
        Throw unique_violation
      else if existsb (fun u => str_eqb (User.username u) username) (users db) then
        Throw unique_violation
      else
        let user :=
          {| User.id := generated;
             User.username := username;
             User.password := password;
             User.recoveryKey := recoveryKey;
             User.createdAt := now |} in
        Ok ({| users := users db ++ [user]; credentials := credentials db |}, user)
  | _, _, _ => Throw invalid_byte_sequence
  end.

(** [and(eq(credentials.id, id), eq(credentials.userId, userId))] *)
Definition id_and_owner (id userId : jsstring) (c : Credential.t) : bool :=
  str_eqb (Credential.id c) id && str_eqb (Credential.userId c) userId.

(** [db.select().from(credentials).where(eq(credentials.userId, userId))]:
    the rows of the user, in the order the table holds them. *)
Definition getCredentials (db : Database) (userId : jsstring) : list Credential.t :=
  filter (fun c => str_eqb (Credential.userId c) userId) (credentials db).

Definition getCredential (db : Database) (id userId : jsstring)
    : result (option Credential.t) :=
  match text_parameter id with
  | Throw e => Throw e
  | Ok id =>
      Ok match filter (id_and_owner id userId) (credentials db) with
         | credential :: _ => Some credential
         | [] => None
         end
  end.

(** [db.insert(credentials).values({ ...insertCredential,
      url: insertCredential.url || null,
      category: insertCredential.category || "other" }).returning()] *)
Definition createCredential (generated : jsstring) (now : N) (place : nat)
    (db : Database) (insertCredential : InsertCredential) (userId : jsstring)
    : result (Database * Credential.t) :=
  match text_parameter (ins_name insertCredential),
        nullable_parameter (or_null (ins_url insertCredential)),
        text_parameter (ins_username insertCredential),
        text_parameter (ins_encryptedPassword insertCredential),
        text_parameter (or_else (ins_category insertCredential) (lit "other")) with
  | Ok name, Ok url, Ok username, Ok encryptedPassword, Ok category =>
      if existsb (fun c => str_eqb (Credential.id c) generated) (credentials db) then
        Throw unique_violation
      else if negb (existsb (fun u => str_eqb (User.id u) userId) (users db)) then
        Throw foreign_key_violation
      else
        let credential :=
          {| Credential.id := generated;
             Credential.userId := userId;
             Credential.name := name;
             Credential.url := url;
             Credential.username := username;
             Credential.encryptedPassword := encryptedPassword;
             Credential.category := category;
             Credential.createdAt := now;
             Credential.updatedAt := now |} in
        Ok ({| users := users db;
               credentials := put_at place [credential] (credentials db) |},
            credential)
  | _, _, _, _, _ => Throw invalid_byte_sequence
  end.

(** The columns of [updates] as the database receives them. *)
Definition update_parameters (updates : UpdateCredential) : result UpdateCredential :=
  match optional_parameter (upd_name updates),
        match upd_url updates with
        | None => Ok None
        | Some url =>
            match nullable_parameter url with
            | Ok url => Ok (Some url)
            | Throw e => Throw e
            end
        end,
        optional_parameter (upd_username updates),
        optional_parameter (upd_encryptedPassword updates),
        optional_parameter (upd_category updates) with
  | Ok name, Ok url, Ok username, Ok encryptedPassword, Ok category =>
      Ok {| upd_name := name; upd_url := url; upd_username := username;
            upd_encryptedPassword := encryptedPassword; upd_category := category |}
  | _, _, _, _, _ => Throw invalid_byte_sequence
  end.

(** [set({ ...updates, updatedAt: new Date() })] on one row: a column that
    [updates] leaves out keeps its value. *)
Definition set_updates (now : N) (updates : UpdateCredential) (c : Credential.t)
    : Credential.t :=
  {| Credential.id := Credential.id c;
     Credential.userId := Credential.userId c;
     Credential.name :=
       match upd_name updates with Some v => v | None => Credential.name c end;
     Credential.url :=
       match upd_url updates with Some v => v | None => Credential.url c end;
     Credential.username :=
       match upd_username updates with
       | Some v => v
       | None => Credential.username c
       end;
     Credential.encryptedPassword :=
       match upd_encryptedPassword updates with
       | Some v => v
       | None => Credential.encryptedPassword c
       end;
     Credential.category :=
       match upd_category updates with
       | Some v => v
       | None => Credential.category c
       end;
     Credential.createdAt := Credential.createdAt c;
     Credential.updatedAt := now |}.

(** [db.update(credentials).set(...).where(and(...)).returning()], and
    [return credential || undefined] for the first row returned.  The rows
    that are written leave their place for one of the database's choice;
    the other rows stay where they are. *)
Definition updateCredential (now : N) (place : nat) (db : Database)
    (id userId : jsstring) (updates : UpdateCredential)
    : result (Database * option Credential.t) :=
  match text_parameter id, update_parameters updates with
  | Ok id, Ok updates =>
      let written :=
        map (set_updates now updates)
            (filter (id_and_owner id userId) (credentials db)) in
      Ok ({| users := users db;
             credentials :=
               put_at place written
                 (filter (fun c => negb (id_and_owner id userId c)) (credentials db)) |},
          match written with
          | credential :: _ => Some credential
          | [] => None
          end)
  | _, _ => Throw invalid_byte_sequence
  end.

(** [db.delete(credentials).where(and(...)).returning()], and
    [return result.length > 0]. *)
Definition deleteCredential (db : Database) (id userId : jsstring)
    : result (Database * bool) :=
  match text_parameter id with
  | Throw e => Throw e
  | Ok id =>
      let result := filter (id_and_owner id userId) (credentials db) in
      Ok ({| users := users db;
             credentials :=
               filter (fun c => negb (id_and_owner id userId c)) (credentials db) |},
          (0 <? List.length result)%nat)
  end.

(** *** The credential routes

    What a handler sends: [res.sendStatus(code)], or a status with a JSON
    body. *)
Inductive Payload :=
| SendStatus
| Message (text : string)
| Issues (text : string)
| One (credential : Credential.t)
| Many (rows : list Credential.t)
| ValidKey (userId : jsstring).

Record Reply := {
  code : N;
  payload : Payload
}.

Definition unauthorized : Reply := {| code := 401; payload := SendStatus |}.
Definition invalid_data : Reply :=
  {| code := 400; payload := Issues "Invalid credential data" |}.
Definition not_found : Reply :=
  {| code := 404; payload := Message "Credential not found" |}.
Definition failed (text : string) : Reply :=
  {| code := 500; payload := Message text |}.

(** [req.isAuthenticated()] and [req.user] are the session: the user it
    belongs to, or none.  A request body is given by what the schema's
    [parse] makes of it: the validated data, or none for a [ZodError]. *)

(** [app.get("/api/credentials", ...)] *)
Definition get_credentials (session : option User.t) (db : Database) : Reply :=
  match session with
  | None => unauthorized
  | Some user => {| code := 200; payload := Many (getCredentials db (User.id user)) |}
  end.

(** [app.post("/api/credentials", ...)] *)
Definition post_credentials (generated : jsstring) (now : N) (place : nat)
    (session : option User.t) (body : option InsertCredential) (db : Database)
    : Database * Reply :=
  match session with
  | None => (db, unauthorized)
  | Some user =>
      match body with
      | None => (db, invalid_data)
      | Some validatedData =>
          match createCredential generated now place db validatedData
                  (User.id user) with
          | Ok (db', credential) => (db', {| code := 201; payload := One credential |})
          | Throw _ => (db, failed "Failed to create credential")
          end
      end
  end.

(** [app.put("/api/credentials/:id", ...)] *)
Definition put_credential (now : N) (place : nat) (session : option User.t)
    (id : jsstring) (body : option UpdateCredential) (db : Database)
    : Database * Reply :=
  match session with
  | None => (db, unauthorized)
  | Some user =>
      match body with
      | None => (db, invalid_data)
      | Some validatedData =>
          match updateCredential now place db id (User.id user) validatedData with
          | Ok (db', None) => (db', not_found)
          | Ok (db', Some credential) =>
              (db', {| code := 200; payload := One credential |})
          | Throw _ => (db, failed "Failed to update credential")
          end
      end
  end.

(** [app.delete("/api/credentials/:id", ...)] *)
Definition delete_credential (session : option User.t) (id : jsstring)
    (db : Database) : Database * Reply :=
  match session with
  | None => (db, unauthorized)
  | Some user =>
      match deleteCredential db id (User.id user) with
      | Ok (db', false) => (db', not_found)
      | Ok (db', true) => (db', {| code := 204; payload := SendStatus |})
      | Throw _ => (db, failed "Failed to delete credential")
      end
  end.

(** The four routes, by request.  [generated], [now] and [place] are what
    the database decides for a row it writes. *)
Inductive Request :=
| GET_credentials
| POST_credentials (body : option InsertCredential)
| PUT_credential (id : jsstring) (body : option UpdateCredential)
| DELETE_credential (id : jsstring).

Definition credential_routes (generated : jsstring) (now : N) (place : nat)
    (session : option User.t) (req : Request) (db : Database) : Database * Reply :=
  match req with
  | GET_credentials => (db, get_credentials session db)
  | POST_credentials body => post_credentials generated now place session body db
  | PUT_credential id body => put_credential now place session id body db
  | DELETE_credential id => delete_credential session id db
  end.

Definition invalid_recovery : Response :=
  {| status := 400; message := "Invalid username or recovery key" |}.
Definition reset_done : Response :=
  {| status := 200; message := "Password reset successfully" |}.
Definition reset_failed : Response :=
  {| status := 500; message := "Failed to reset password" |}.

Section Recovery.

(** The values of a body that are no strings, and what the driver sends
    for one of them as a query parameter: a text, NULL, or an error. *)
Variable Other : Type.
Variable prepareValue : Other -> result (option jsstring).

Definition query_parameter (value : BodyValue Other) : result (option jsstring) :=
  match value with
  | AString s => nullable_parameter (Some s)
  | NoString v =>
      match prepareValue v with
      | Throw e => Throw e
      | Ok x => nullable_parameter x
      end
  end.

(** [const [user] = await db.select().from(users).where(eq(users.username, username));
    return user || undefined].  The query throws when the database
    refuses its parameter, and nothing equals NULL. *)
Definition getUserByUsername (db : Database) (username : BodyValue Other)
    : result (option User.t) :=
  match query_parameter username with
  | Throw e => Throw e
  | Ok None => Ok None
  | Ok (Some text) =>
      Ok match filter (fun u => str_eqb (User.username u) text) (users db) with
         | user :: _ => Some user
         | [] => None
         end
  end.

(** [server/auth.ts] is not part of the sources at hand.  Its two
    functions are taken as they are called, on values of the body that
    nothing has validated: the comparison of a supplied recovery key with
    the stored verifier answers a boolean or throws, and the password
    hash, which salts its input, answers a string or throws. *)
Variable compareRecoveryKeys : BodyValue Other -> jsstring -> result bool.
Variable hashPassword : list byte -> BodyValue Other -> result jsstring.

Definition verifyRecoveryKey (db : Database) (username recoveryKey : BodyValue Other)
    : result (option User.t) :=
  match getUserByUsername db username with
  | Throw e => Throw e
  | Ok None => Ok None
  | Ok (Some user) =>
      match compareRecoveryKeys recoveryKey (User.recoveryKey user) with
      | Throw e => Throw e
      | Ok isValid => Ok (if isValid then Some user else None)
      end
  end.

(** [app.post("/api/validate-recovery-key", ...)] *)
Definition validate_recovery_key (db : Database)
    (username recoveryKey : BodyValue Other) : Reply :=
  match verifyRecoveryKey db username recoveryKey with
  | Throw _ => failed "Failed to validate recovery key"
  | Ok None => {| code := 400; payload := Message "Invalid username or recovery key" |}
  | Ok (Some user) => {| code := 200; payload := ValidKey (User.id user) |}
  end.

(** [app.post("/api/reset-password", ...)]: the database after the
    request and the response sent.  [salt] is the randomness the
    password hash draws. *)
Definition reset_password (salt : list byte) (db : Database)
    (req : ResetRequest Other) : Database * Response :=
  match verifyRecoveryKey db (req_username req) (req_recoveryKey req) with
  | Throw _ => (db, reset_failed)
  | Ok None => (db, invalid_recovery)
  | Ok (Some user) =>
      match hashPassword salt (req_newPassword req) with
      | Throw _ => (db, reset_failed)
      | Ok hashedPassword =>
          (updateUserPassword db (User.id user) hashedPassword, reset_done)
      end
  end.

End Recovery.

End Server.

(** ** The CryptoJS library, as far as the client calls it

    [crypto-js] is a dependency of the client, not part of its sources.  It
    is modelled here as the library documents and implements it (version 4):
    [CryptoJS.AES.encrypt(message, password)] with a password that is a
    string draws a salt of eight random bytes, derives a 256-bit key and a
    128-bit IV from password and salt with EvpKDF (MD5, one iteration),
    encrypts the UTF-8 bytes of the message with AES in CBC mode under Pkcs7
    padding, and prints the bytes "Salted__", the salt and the ciphertext in
    Base64 - the text [openssl enc -aes-256-cbc -md md5] writes.
    [CryptoJS.AES.decrypt] reads such a text back; it checks neither the
    padding nor any tag.  [CryptoJS.SHA256(text).toString()] is the SHA-256
    digest of the UTF-8 bytes of the text in hexadecimal. *)

Module CryptoJS.

(** A [WordArray] is modelled by its significant bytes. *)
Definition bytes := list byte.

Definition byte_of_N (n : N) : byte :=
  match Byte.of_N (n mod 256) with
  | Some b => b
  | None => x00
  end.

(** The eight bits of a byte, the lowest first. *)
Definition bits8 : Type :=
  bool * (bool * (bool * (bool * (bool * (bool * (bool * bool)))))).

Definition xor8 (a b : bits8) : bits8 :=
  let '(a0, (a1, (a2, (a3, (a4, (a5, (a6, a7))))))) := a in
  let '(b0, (b1, (b2, (b3, (b4, (b5, (b6, b7))))))) := b in
  (xorb a0 b0, (xorb a1 b1, (xorb a2 b2, (xorb a3 b3,
    (xorb a4 b4, (xorb a5 b5, (xorb a6 b6, xorb a7 b7))))))).

Definition bxor (a b : byte) : byte :=
  Byte.of_bits (xor8 (Byte.to_bits a) (Byte.to_bits b)).

(** *** 32-bit words *)

Definition w32 : N := 2 ^ 32.
Definition add32 (a b : N) : N := ((a + b) mod w32)%N.
Definition not32 (a : N) : N := N.lxor a (w32 - 1).
Definition rotl32 (x n : N) : N :=
  (N.lor (N.shiftl x n) (N.shiftr x (32 - n)) mod w32)%N.
Definition rotr32 (x n : N) : N := rotl32 x (32 - n).

(** A word of a [WordArray] holds four bytes, the first in its top bits. *)
Definition word_bytes (w : N) : bytes :=
  [byte_of_N (w / 2 ^ 24); byte_of_N (w / 2 ^ 16); byte_of_N (w / 2 ^ 8); byte_of_N w]%N.

Definition be_word (bs : bytes) : N :=
  fold_left (fun acc b => (acc * 256 + Byte.to_N b)%N) bs 0%N.

Definition le_word (bs : bytes) : N := be_word (rev bs).

(** [n] bytes at a time; the last group may be shorter. *)
Fixpoint chunks_fuel {A} (fuel n : nat) (l : list A) : list (list A) :=
  match fuel with
  | O => []
  | S fuel' =>
      match l with
      | [] => []
      | _ :: _ => firstn n l :: chunks_fuel fuel' n (skipn n l)
      end
  end.

Definition chunks {A} (n : nat) (l : list A) : list (list A) :=
  chunks_fuel (List.length l) n l.

(** *** enc.Hex *)

Definition hex_digit (n : N) : code_unit :=
  (if n <? 10 then 48 + n else 87 + n)%N.

Definition Hex_stringify (bs : bytes) : jsstring :=
  flat_map (fun b => [hex_digit (Byte.to_N b / 16); hex_digit (Byte.to_N b mod 16)]%N) bs.

(** *** enc.Utf8

    [Utf8.parse] is [unescape(encodeURIComponent(str))] read as bytes:
    the UTF-8 encoding of the string's code points, a [URIError] on an
    unpaired surrogate. *)

Definition utf8_encode (cp : N) : bytes :=
  (if cp <? 128 then [byte_of_N cp]
   else if cp <? 2048 then
     [byte_of_N (192 + cp / 64); byte_of_N (128 + cp mod 64)]
   else if cp <? 65536 then
     [byte_of_N (224 + cp / 4096); byte_of_N (128 + cp / 64 mod 64);
      byte_of_N (128 + cp mod 64)]
   else
     [byte_of_N (240 + cp / 262144); byte_of_N (128 + cp / 4096 mod 64);
      byte_of_N (128 + cp / 64 mod 64); byte_of_N (128 + cp mod 64)])%N.

Definition is_lead (c : code_unit) : bool := in_range 55296 56319 c.
Definition is_trail (c : code_unit) : bool := in_range 56320 57343 c.

Definition uri_malformed : string := "URI malformed".

Fixpoint Utf8_parse (str : jsstring) : result bytes :=
  match str with
  | [] => Ok []
  | c :: rest =>
      if is_lead c then
        match rest with
        | d :: rest' =>
            if is_trail d then
              match Utf8_parse rest' with
              | Ok bs =>
                  Ok (utf8_encode ((c - 55296) * 1024 + (d - 56320) + 65536)%N ++ bs)
              | Throw e => Throw e
              end
            else Throw uri_malformed
        | [] => Throw uri_malformed
        end
      else if is_trail c then Throw uri_malformed
      else if (c <? 65536)%N then
        match Utf8_parse rest with
        | Ok bs => Ok (utf8_encode c ++ bs)
        | Throw e => Throw e
        end
      else Throw uri_malformed
  end.

(** [Utf8.stringify] is [decodeURIComponent(escape(latin1))]: strict UTF-8
    decoding, any [URIError] reported as "Malformed UTF-8 data". *)

Definition utf16_encode (cp : N) : jsstring :=
  (if cp <? 65536 then [cp]
   else [55296 + (cp - 65536) / 1024; 56320 + (cp - 65536) mod 1024])%N.

Definition is_cont (b : byte) : bool := in_range 128 191 (Byte.to_N b).
Definition cont (b : byte) : N := (Byte.to_N b - 128)%N.

Definition malformed_utf8 : string := "Malformed UTF-8 data".

Definition prepend (cp : N) (r : result jsstring) : result jsstring :=
  match r with
  | Ok s => Ok (utf16_encode cp ++ s)
  | Throw e => Throw e
  end.

Fixpoint Utf8_stringify (bs : bytes) : result jsstring :=
  match bs with
  | [] => Ok []
  | b0 :: r0 =>
      let n0 := Byte.to_N b0 in
      if (n0 <? 128)%N then prepend n0 (Utf8_stringify r0)
      else if in_range 194 223 n0 then
        match r0 with
        | b1 :: r1 =>
            if is_cont b1 then
              prepend ((n0 - 192) * 64 + cont b1)%N (Utf8_stringify r1)
            else Throw malformed_utf8
        | _ => Throw malformed_utf8
        end
      else if in_range 224 239 n0 then
        match r0 with
        | b1 :: b2 :: r2 =>
            let cp := ((n0 - 224) * 4096 + cont b1 * 64 + cont b2)%N in
            if is_cont b1 && is_cont b2 && (2048 <=? cp)%N
               && negb (in_range 55296 57343 cp) then
              prepend cp (Utf8_stringify r2)
            else Throw malformed_utf8
        | _ => Throw malformed_utf8
        end
      else if in_range 240 244 n0 then
        match r0 with
        | b1 :: b2 :: b3 :: r3 =>
            let cp := ((n0 - 240) * 262144 + cont b1 * 4096 + cont b2 * 64 + cont b3)%N in
            if is_cont b1 && is_cont b2 && is_cont b3
               && (65536 <=? cp)%N && (cp <? 1114112)%N then
              prepend cp (Utf8_stringify r3)
            else Throw malformed_utf8
        | _ => Throw malformed_utf8
        end
      else Throw malformed_utf8
  end.

(** *** enc.Base64 *)

Definition Base64_map : jsstring :=
  lit "ABCDEFGHIJKLMNOPQRSTUVWXYZabcdefghijklmnopqrstuvwxyz0123456789+/=".

Definition paddingChar : code_unit := nth 64 Base64_map 0%N.

(** [map.charAt(i)] *)
Definition charAt (i : N) : code_unit := nth (N.to_nat i) Base64_map 0%N.

(** The four (or fewer) characters of one triplet; [n] is the number of
    bytes the triplet really holds. *)
Definition triplet_chars (n : nat) (byte1 byte2 byte3 : byte) : jsstring :=
  let triplet :=
    N.lor (N.lor (N.shiftl (Byte.to_N byte1) 16) (N.shiftl (Byte.to_N byte2) 8))
          (Byte.to_N byte3) in
  let char j := charAt (N.land (N.shiftr triplet (6 * (3 - j))) 63) in
  match n with
  | 1%nat => [char 0; char 1; paddingChar; paddingChar]
  | 2%nat => [char 0; char 1; char 2; paddingChar]
  | _ => [char 0; char 1; char 2; char 3]
  end%N.

Fixpoint Base64_stringify (bs : bytes) : jsstring :=
  match bs with
  | [] => []
  | [b1] => triplet_chars 1 b1 x00 x00
  | [b1; b2] => triplet_chars 2 b1 b2 x00
  | b1 :: b2 :: b3 :: rest => triplet_chars 3 b1 b2 b3 ++ Base64_stringify rest
  end.

(** [reverseMap[code]], as the shifts of [parseLoop] read it: the index of
    the character in the map, and 0 for a character that is not in it. *)
Fixpoint index_of (c : code_unit) (map : jsstring) (i : N) : N :=
  match map with
  | [] => 0
  | m :: rest => if (m =? c)%N then i else index_of c rest (i + 1)
  end%N.

Definition reverseMap (c : code_unit) : N := index_of c Base64_map 0.

(** [base64Str.indexOf(paddingChar)] cuts the string at its first "=". *)
Fixpoint before_padding (s : jsstring) : jsstring :=
  match s with
  | [] => []
  | c :: rest => if (c =? paddingChar)%N then [] else c :: before_padding rest
  end.

(** [parseLoop]: position [i] of the string, with [i % 4] kept as [phase]
    and the character before it as [prev]; every position with a non-zero
    phase gives one byte. *)
Fixpoint parseLoop (phase : N) (prev : code_unit) (s : jsstring) : bytes :=
  match s with
  | [] => []
  | c :: rest =>
      let next := if (phase =? 3)%N then 0%N else (phase + 1)%N in
      if (phase =? 0)%N then parseLoop next c rest
      else
        let bits1 := N.shiftl (reverseMap prev) (phase * 2) in
        let bits2 := N.shiftr (reverseMap c) (6 - phase * 2) in
        byte_of_N (N.lor bits1 bits2) :: parseLoop next c rest
  end.

Definition Base64_parse (base64Str : jsstring) : bytes :=
  parseLoop 0 0%N (before_padding base64Str).

End CryptoJS.

(** *** The hashers MD5 and SHA256, and EvpKDF *)

Module Hashers.
Import CryptoJS.

Definition hex_value (a : ascii) : N :=
  let n := N_of_ascii a in
  (if n <? 58 then n - 48 else n - 87)%N.

(** The 32-bit words written in a run of hexadecimal digits. *)
Fixpoint hex_words (s : string) (digits : nat) (acc : N) : list N :=
  match s with
  | EmptyString => []
  | String a rest =>
      let acc' := (acc * 16 + hex_value a)%N in
      match digits with
      | O => acc' :: hex_words rest 7 0%N
      | S d => hex_words rest d acc'
      end
  end.

Definition table (s : string) : list N := hex_words s 7 0%N.

(** The message followed by the bit 1, zeros up to 56 modulo 64, and the
    message length in bits on eight bytes ([length_bytes] orders them). *)
Definition pad_message (length_bytes : N -> bytes) (msg : bytes) : bytes :=
  let len := List.length msg in
  msg ++ [x80] ++ repeat x00 ((119 - len mod 64) mod 64)
      ++ length_bytes (N.of_nat len * 8)%N.

Definition length_be (bits : N) : bytes :=
  word_bytes (bits / w32 mod w32)%N ++ word_bytes (bits mod w32)%N.

Definition length_le (bits : N) : bytes := rev (length_be bits).

(** **** MD5 *)

(** [T[i] = (Math.abs(Math.sin(i + 1)) * 0x100000000) | 0] *)
Definition MD5_T : list N := Eval vm_compute in table
  "d76aa478e8c7b756242070dbc1bdceeef57c0faf4787c62aa8304613fd469501698098d88b44f7afffff5bb1895cd7be6b901122fd987193a679438e49b40821f61e2562c040b340265e5a51e9b6c7aad62f105d02441453d8a1e681e7d3fbc821e1cde6c33707d6f4d50d87455a14eda9e3e905fcefa3f8676f02d98d2a4c8afffa39428771f6816d9d6122fde5380ca4beea444bdecfa9f6bb4b60bebfbc70289b7ec6eaa127fad4ef308504881d05d9d4d039e6db99e51fa27cf8c4ac5665f4292244432aff97ab9423a7fc93a039655b59c38f0ccc92ffeff47d85845dd16fa87e4ffe2ce6e0a30143144e0811a1f7537e82bd3af2352ad7d2bbeb86d391".

Definition MD5_shifts : list N :=
  [7; 12; 17; 22; 7; 12; 17; 22; 7; 12; 17; 22; 7; 12; 17; 22;
   5; 9; 14; 20; 5; 9; 14; 20; 5; 9; 14; 20; 5; 9; 14; 20;
   4; 11; 16; 23; 4; 11; 16; 23; 4; 11; 16; 23; 4; 11; 16; 23;
   6; 10; 15; 21; 6; 10; 15; 21; 6; 10; 15; 21; 6; 10; 15; 21]%N.

Definition MD5_init : N * N * N * N :=
  (0x67452301, 0xefcdab89, 0x98badcfe, 0x10325476)%N.

Definition MD5_step (M : list N) (st : N * N * N * N) (i : nat) : N * N * N * N :=
  let '(a, b, c, d) := st in
  let f :=
    if (i <? 16)%nat then N.lor (N.land b c) (N.land (not32 b) d)
    else if (i <? 32)%nat then N.lor (N.land b d) (N.land c (not32 d))
    else if (i <? 48)%nat then N.lxor (N.lxor b c) d
    else N.lxor c (N.lor b (not32 d)) in
  let g :=
    if (i <? 16)%nat then i
    else if (i <? 32)%nat then ((5 * i + 1) mod 16)%nat
    else if (i <? 48)%nat then ((3 * i + 5) mod 16)%nat
    else ((7 * i) mod 16)%nat in
  let n := add32 (add32 (add32 a f) (nth g M 0%N)) (nth i MD5_T 0%N) in
  (d, add32 (rotl32 n (nth i MD5_shifts 0%N)) b, b, c).

Definition MD5_block (st : N * N * N * N) (block : bytes) : N * N * N * N :=
  let M := map le_word (chunks 4 block) in
  let '(a, b, c, d) := st in
  let '(a', b', c', d') := fold_left (MD5_step M) (seq 0 64) st in
  (add32 a a', add32 b b', add32 c c', add32 d d').

Definition MD5 (msg : bytes) : bytes :=
  let '(a, b, c, d) :=
    fold_left MD5_block (chunks 64 (pad_message length_le msg)) MD5_init in
  flat_map (fun w => rev (word_bytes w)) [a; b; c; d].

(** **** SHA256 *)

Definition SHA256_K : list N := Eval vm_compute in table
  "428a2f9871374491b5c0fbcfe9b5dba53956c25b59f111f1923f82a4ab1c5ed5d807aa9812835b01243185be550c7dc372be5d7480deb1fe9bdc06a7c19bf174e49b69c1efbe47860fc19dc6240ca1cc2de92c6f4a7484aa5cb0a9dc76f988da983e5152a831c66db00327c8bf597fc7c6e00bf3d5a7914706ca63511429296727b70a852e1b21384d2c6dfc53380d13650a7354766a0abb81c2c92e92722c85a2bfe8a1a81a664bc24b8b70c76c51a3d192e819d6990624f40e3585106aa07019a4c1161e376c082748774c34b0bcb5391c0cb34ed8aa4a5b9cca4f682e6ff3748f82ee78a5636f84c878148cc7020890befffaa4506cebbef9a3f7c67178f2".

Definition SHA256_H : list N := Eval vm_compute in table
  "6a09e667bb67ae853c6ef372a54ff53a510e527f9b05688c1f83d9ab5be0cd19".

(** The message schedule: sixteen words of the block, then forty-eight
    computed from the words 2, 7, 15 and 16 places back. *)
Definition SHA256_schedule_step (W : list N) (i : nat) : list N :=
  let gamma0x := nth (i - 15) W 0%N in
  let gamma0 := N.lxor (N.lxor (rotr32 gamma0x 7) (rotr32 gamma0x 18))
                       (N.shiftr gamma0x 3) in
  let gamma1x := nth (i - 2) W 0%N in
  let gamma1 := N.lxor (N.lxor (rotr32 gamma1x 17) (rotr32 gamma1x 19))
                       (N.shiftr gamma1x 10) in
  W ++ [add32 (add32 (add32 gamma0 (nth (i - 7) W 0%N)) gamma1) (nth (i - 16) W 0%N)].

Definition SHA256_round (W : list N) (st : list N) (i : nat) : list N :=
  match st with
  | [a; b; c; d; e; f; g; h] =>
      let ch := N.lxor (N.land e f) (N.land (not32 e) g) in
      let maj := N.lxor (N.lxor (N.land a b) (N.land a c)) (N.land b c) in
      let sigma0 := N.lxor (N.lxor (rotr32 a 2) (rotr32 a 13)) (rotr32 a 22) in
      let sigma1 := N.lxor (N.lxor (rotr32 e 6) (rotr32 e 11)) (rotr32 e 25) in
      let t1 := add32 (add32 (add32 (add32 h sigma1) ch) (nth i SHA256_K 0%N))
                      (nth i W 0%N) in
      let t2 := add32 sigma0 maj in
      [add32 t1 t2; a; b; c; add32 d t1; e; f; g]
  | _ => st
  end.

Definition SHA256_block (H : list N) (block : bytes) : list N :=
  let W := fold_left SHA256_schedule_step (seq 16 48) (map be_word (chunks 4 block)) in
  let st := fold_left (SHA256_round W) (seq 0 64) H in
  map (fun p => add32 (fst p) (snd p)) (combine H st).

Definition SHA256 (msg : bytes) : bytes :=
  flat_map word_bytes
    (fold_left SHA256_block (chunks 64 (pad_message length_be msg)) SHA256_H).

(** **** EvpKDF with its defaults: MD5, one iteration

    [block = hasher.update(block).update(password).finalize(salt)], one
    block of four words after the other until [keySize] words are there. *)
Fixpoint EvpKDF_blocks (n : nat) (block password salt : bytes) : bytes :=
  match n with
  | O => []
  | S n' =>
      let block' := MD5 (block ++ password ++ salt) in
      block' ++ EvpKDF_blocks n' block' password salt
  end.

Definition EvpKDF (keySize : nat) (password salt : bytes) : bytes :=
  firstn (keySize * 4) (EvpKDF_blocks ((keySize + 3) / 4) [] password salt).

End Hashers.

(** *** The AES block cipher (algo.AES) *)

Module AES.
Import CryptoJS.

(** A word of the state or of the key schedule: four bytes, one column. *)
Inductive Word := word (a b c d : byte).
Inductive Block := block (c0 c1 c2 c3 : Word).

Definition wmap (f : byte -> byte) (w : Word) : Word :=
  let 'word a b c d := w in word (f a) (f b) (f c) (f d).

Definition wxor (v w : Word) : Word :=
  let 'word a b c d := v in
  let 'word a' b' c' d' := w in
  word (bxor a a') (bxor b b') (bxor c c') (bxor d d').

Definition bmap (f : Word -> Word) (s : Block) : Block :=
  let 'block c0 c1 c2 c3 := s in block (f c0) (f c1) (f c2) (f c3).

Definition xorBlock (s k : Block) : Block :=
  let 'block c0 c1 c2 c3 := s in
  let 'block k0 k1 k2 k3 := k in
  block (wxor c0 k0) (wxor c1 k1) (wxor c2 k2) (wxor c3 k3).

(** Multiplication by x in GF(2^8), modulo x^8 + x^4 + x^3 + x + 1. *)
Definition xtime8 (x : bits8) : bits8 :=
  let '(b0, (b1, (b2, (b3, (b4, (b5, (b6, b7))))))) := x in
  (b7, (xorb b0 b7, (b1, (xorb b2 b7, (xorb b3 b7, (b4, (b5, b6))))))).

Definition xtime (x : byte) : byte := Byte.of_bits (xtime8 (Byte.to_bits x)).

Definition mul2 := xtime.
Definition mul3 (x : byte) : byte := bxor (xtime x) x.
Definition mul4 (x : byte) : byte := xtime (xtime x).
Definition mul8 (x : byte) : byte := xtime (mul4 x).
Definition mul9 (x : byte) : byte := bxor (mul8 x) x.
Definition mul11 (x : byte) : byte := bxor (bxor (mul8 x) (mul2 x)) x.
Definition mul13 (x : byte) : byte := bxor (bxor (mul8 x) (mul4 x)) x.
Definition mul14 (x : byte) : byte := bxor (bxor (mul8 x) (mul4 x)) (mul2 x).

(** The product of two field elements, by shift and add. *)
Fixpoint gmul_bits (a : byte) (bits : list bool) : byte :=
  match bits with
  | [] => x00
  | bit :: rest =>
      let r := xtime (gmul_bits a rest) in
      if bit then bxor r a else r
  end.

Definition bits_lsb_first (b : byte) : list bool :=
  let '(b0, (b1, (b2, (b3, (b4, (b5, (b6, b7))))))) := Byte.to_bits b in
  [b0; b1; b2; b3; b4; b5; b6; b7].

Definition gmul (a b : byte) : byte := gmul_bits a (bits_lsb_first b).

Definition gsquare (a : byte) : byte := gmul a a.

(** The multiplicative inverse, [a^254], with 0 for 0. *)
Definition ginv (a : byte) : byte :=
  let a2 := gsquare a in
  let a4 := gsquare a2 in
  let a8 := gsquare a4 in
  let a16 := gsquare a8 in
  let a32 := gsquare a16 in
  let a64 := gsquare a32 in
  let a128 := gsquare a64 in
  gmul a128 (gmul a64 (gmul a32 (gmul a16 (gmul a8 (gmul a4 a2))))).

(** [sx = xi ^ (xi << 1) ^ (xi << 2) ^ (xi << 3) ^ (xi << 4)], folded to
    eight bits, and [^ 0x63]. *)
Definition affine (x : byte) : byte :=
  let '(b0, (b1, (b2, (b3, (b4, (b5, (b6, b7))))))) := Byte.to_bits x in
  let s i4 i5 i6 i7 i := xorb (xorb (xorb (xorb i i4) i5) i6) i7 in
  bxor x63
    (Byte.of_bits
       (s b4 b5 b6 b7 b0, (s b5 b6 b7 b0 b1, (s b6 b7 b0 b1 b2, (s b7 b0 b1 b2 b3,
         (s b0 b1 b2 b3 b4, (s b1 b2 b3 b4 b5, (s b2 b3 b4 b5 b6, s b3 b4 b5 b6 b7)))))))).

Definition all_bytes : list byte :=
  Eval vm_compute in map byte_of_N (map N.of_nat (seq 0 256)).

Definition SBOX : list byte :=
  Eval vm_compute in map (fun x => affine (ginv x)) all_bytes.

Definition sub (x : byte) : byte := nth (Byte.to_nat x) SBOX x00.

(** [INV_SBOX[SBOX[x]] = x] *)
Definition INV_SBOX : list byte :=
  Eval vm_compute in
    map (fun y => hd x00 (filter (fun x => Byte.eqb (sub x) y) all_bytes)) all_bytes.

Definition inv_sub (y : byte) : byte := nth (Byte.to_nat y) INV_SBOX x00.

(** **** The round functions *)

Definition SubBytes : Block -> Block := bmap (wmap sub).
Definition InvSubBytes : Block -> Block := bmap (wmap inv_sub).

Definition ShiftRows (s : Block) : Block :=
  let 'block (word a0 a1 a2 a3) (word b0 b1 b2 b3)
             (word c0 c1 c2 c3) (word d0 d1 d2 d3) := s in
  block (word a0 b1 c2 d3) (word b0 c1 d2 a3) (word c0 d1 a2 b3) (word d0 a1 b2 c3).

Definition InvShiftRows (s : Block) : Block :=
  let 'block (word a0 a1 a2 a3) (word b0 b1 b2 b3)
             (word c0 c1 c2 c3) (word d0 d1 d2 d3) := s in
  block (word a0 d1 c2 b3) (word b0 a1 d2 c3) (word c0 b1 a2 d3) (word d0 c1 b2 a3).

Definition xor4 (a b c d : byte) : byte := bxor (bxor (bxor a b) c) d.

Definition MixColumn (w : Word) : Word :=
  let 'word a b c d := w in
  word (xor4 (mul2 a) (mul3 b) c d)
       (xor4 a (mul2 b) (mul3 c) d)
       (xor4 a b (mul2 c) (mul3 d))
       (xor4 (mul3 a) b c (mul2 d)).

Definition InvMixColumn (w : Word) : Word :=
  let 'word a b c d := w in
  word (xor4 (mul14 a) (mul11 b) (mul13 c) (mul9 d))
       (xor4 (mul9 a) (mul14 b) (mul11 c) (mul13 d))
       (xor4 (mul13 a) (mul9 b) (mul14 c) (mul11 d))
       (xor4 (mul11 a) (mul13 b) (mul9 c) (mul14 d)).

Definition MixColumns : Block -> Block := bmap MixColumn.
Definition InvMixColumns : Block -> Block := bmap InvMixColumn.

(** **** The key schedule ([_doReset]) *)

Definition zero_word : Word := word x00 x00 x00 x00.
Definition zero_block : Block := block zero_word zero_word zero_word zero_word.

Definition RCON : list byte := [x00; x01; x02; x04; x08; x10; x20; x40; x80; x1b; x36].

Definition RotWord (w : Word) : Word :=
  let 'word a b c d := w in word b c d a.

Fixpoint keySchedule_from (rows : nat) (keySize ksRow : nat) (ks : list Word)
    : list Word :=
  match rows with
  | O => ks
  | S rows' =>
      let t := nth (ksRow - 1) ks zero_word in
      let t :=
        if (ksRow mod keySize =? 0)%nat then
          wxor (wmap sub (RotWord t))
               (word (nth (ksRow / keySize) RCON x00) x00 x00 x00)
        else if ((6 <? keySize) && (ksRow mod keySize =? 4))%nat then wmap sub t
        else t in
      keySchedule_from rows' keySize (S ksRow)
        (ks ++ [wxor (nth (ksRow - keySize) ks zero_word) t])
  end.

Definition word_of_bytes (l : bytes) : Word :=
  word (nth 0 l x00) (nth 1 l x00) (nth 2 l x00) (nth 3 l x00).

Definition bytes_of_word (w : Word) : bytes :=
  let 'word a b c d := w in [a; b; c; d].

Definition block_of_words (l : list Word) : Block :=
  block (nth 0 l zero_word) (nth 1 l zero_word) (nth 2 l zero_word) (nth 3 l zero_word).

(** A block of sixteen bytes; the bytes a short block lacks read as 0. *)
Definition block_of_bytes (l : bytes) : Block :=
  block_of_words (map word_of_bytes (chunks 4 l)).

Definition bytes_of_block (s : Block) : bytes :=
  let 'block c0 c1 c2 c3 := s in flat_map bytes_of_word [c0; c1; c2; c3].

(** The round keys for a key of [keySize] words: [keySize + 7] of them. *)
Definition keySchedule (key : bytes) : list Block :=
  let keyWords := map word_of_bytes (chunks 4 key) in
  let keySize := List.length keyWords in
  let ksRows := ((keySize + 6 + 1) * 4)%nat in
  map block_of_words
      (chunks 4 (keySchedule_from (ksRows - keySize) keySize keySize keyWords)).

(** **** Encryption and decryption of one block *)

Definition round (s k : Block) : Block :=
  xorBlock (MixColumns (ShiftRows (SubBytes s))) k.

Definition inv_round (s k : Block) : Block :=
  InvSubBytes (InvShiftRows (InvMixColumns (xorBlock s k))).

Definition final_round (s k : Block) : Block :=
  xorBlock (ShiftRows (SubBytes s)) k.

Definition inv_final_round (s k : Block) : Block :=
  InvSubBytes (InvShiftRows (xorBlock s k)).

(** The rounds of a schedule: the first key, the keys of the full rounds,
    the key of the last round. *)
Definition split_schedule (ks : list Block) : Block * list Block * Block :=
  (hd zero_block ks, removelast (tl ks), last (tl ks) zero_block).

Definition encryptBlock (ks : list Block) (s : Block) : Block :=
  let '(k0, middle, kn) := split_schedule ks in
  final_round (fold_left round middle (xorBlock s k0)) kn.

Definition decryptBlock (ks : list Block) (s : Block) : Block :=
  let '(k0, middle, kn) := split_schedule ks in
  xorBlock (fold_right (fun k s => inv_round s k) (inv_final_round s kn) middle) k0.

End AES.

(** *** cipher-core: CBC, Pkcs7, the OpenSSL format, password-based AES *)

Module CipherCore.
Import CryptoJS Hashers AES.

(** [WordArray.random(8)]: two 32-bit words of the secure random source. *)
Definition random_salt (rnd : N * N) : bytes :=
  word_bytes (fst rnd mod w32)%N ++ word_bytes (snd rnd mod w32)%N.

(** [Pkcs7.pad] at the block size of four words. *)
Definition Pkcs7_pad (data : bytes) : bytes :=
  let nPaddingBytes := (16 - List.length data mod 16)%nat in
  data ++ repeat (byte_of_N (N.of_nat nPaddingBytes)) nPaddingBytes.

(** [Pkcs7.unpad]: the number of padding bytes is read from the low byte of
    the word that holds the last significant byte, and taken off the count
    of significant bytes unchecked.  [sigBytes] is that count on entry. *)
Definition Pkcs7_unpad (dataWords : bytes) (sigBytes : Z) : bytes :=
  let nPaddingBytes :=
    if (sigBytes <=? 0)%Z then 0%Z
    else Z.of_N (Byte.to_N
           (nth (Z.to_nat ((sigBytes - 1) / 4 * 4 + 3)) dataWords x00)) in
  firstn (Z.to_nat (sigBytes - nPaddingBytes)) dataWords.

(** The blocks a buffer is processed in on flush: sixteen bytes each, the
    words missing from the last one read as 0. *)
Definition blocks_of (data : bytes) : list Block :=
  map block_of_bytes (chunks 16 data).

Fixpoint CBC_encrypt (ks : list Block) (prev : Block) (blocks : list Block)
    : list Block :=
  match blocks with
  | [] => []
  | thisBlock :: rest =>
      let c := encryptBlock ks (xorBlock thisBlock prev) in
      c :: CBC_encrypt ks c rest
  end.

Fixpoint CBC_decrypt (ks : list Block) (prev : Block) (blocks : list Block)
    : list Block :=
  match blocks with
  | [] => []
  | thisBlock :: rest =>
      xorBlock (decryptBlock ks thisBlock) prev :: CBC_decrypt ks thisBlock rest
  end.

(** [cipher.createEncryptor(key, { iv }).finalize(message)] *)
Definition encryptor_finalize (key iv message : bytes) : bytes :=
  flat_map bytes_of_block
    (CBC_encrypt (keySchedule key) (block_of_bytes iv) (blocks_of (Pkcs7_pad message))).

(** [cipher.createDecryptor(key, { iv }).finalize(ciphertext)] *)
Definition decryptor_finalize (key iv ciphertext : bytes) : bytes :=
  Pkcs7_unpad
    (flat_map bytes_of_block
       (CBC_decrypt (keySchedule key) (block_of_bytes iv) (blocks_of ciphertext)))
    (Z.of_nat (List.length ciphertext)).

(** [OpenSSLKdf.execute(password, 256/32, 128/32, salt)]: key and iv. *)
Definition OpenSSLKdf (password salt : bytes) : bytes * bytes :=
  let key := EvpKDF (8 + 4) password salt in
  (firstn 32 key, skipn 32 key).

Definition Salted__ : bytes := map byte_of_N (lit "Salted__").

Definition bytes_eqb (a b : bytes) : bool :=
  if list_eq_dec Byte.byte_eq_dec a b then true else false.

(** [format.OpenSSL.stringify] *)
Definition OpenSSL_stringify (salt ciphertext : bytes) : jsstring :=
  Base64_stringify (Salted__ ++ salt ++ ciphertext).

(** The last word of a [WordArray] cut out of a longer word list is whole:
    the bytes it lacks are 0. *)
Definition whole_words (bs : bytes) : bytes :=
  bs ++ repeat x00 ((4 - List.length bs mod 4) mod 4).

(** [format.OpenSSL.parse]: the salt when the text starts with the words
    of "Salted__", and the ciphertext after the first four words; the
    whole text as ciphertext otherwise. *)
Definition OpenSSL_parse (openSSLStr : jsstring) : option bytes * bytes :=
  let ciphertext := Base64_parse openSSLStr in
  if bytes_eqb (firstn 8 ciphertext) Salted__ then
    (Some (whole_words (firstn 8 (skipn 8 ciphertext))), skipn 16 ciphertext)
  else (None, ciphertext).

(** [CryptoJS.AES.encrypt(message, password).toString()] for a password
    that is a string.  [rnd] is what the random source gives for the salt. *)
Definition AES_encrypt (rnd : N * N) (message password : jsstring) : result jsstring :=
  let salt := random_salt rnd in
  match Utf8_parse password with
  | Throw e => Throw e
  | Ok pw =>
      let (key, iv) := OpenSSLKdf pw salt in
      match Utf8_parse message with
      | Throw e => Throw e
      | Ok msg => Ok (OpenSSL_stringify salt (encryptor_finalize key iv msg))
      end
  end.

(** [CryptoJS.AES.decrypt(ciphertext, password)] for a ciphertext and a
    password that are strings.  A text without salt is decrypted under a
    fresh random one, drawn from [rnd]. *)
Definition AES_decrypt (rnd : N * N) (ciphertext password : jsstring) : result bytes :=
  let (salt, ct) := OpenSSL_parse ciphertext in
  let salt := match salt with Some s => s | None => random_salt rnd end in
  match Utf8_parse password with
  | Throw e => Throw e
  | Ok pw =>
      let (key, iv) := OpenSSLKdf pw salt in
      Ok (decryptor_finalize key iv ct)
  end.

End CipherCore.

(** ** client/src/lib/crypto.ts: PasswordCrypto *)

Module PasswordCrypto.
Import CryptoJS.

Definition encrypt_failed : string := "Failed to encrypt password".
Definition decrypt_failed : string := "Failed to decrypt password".
Definition invalid_key : string := "Invalid decryption key".

Definition encrypt (rnd : N * N) (password masterKey : jsstring) : result jsstring :=
  try_catch_rethrow
    (CipherCore.AES_encrypt rnd password masterKey)
    encrypt_failed.

Definition decrypt (rnd : N * N) (encryptedPassword masterKey : jsstring)
    : result jsstring :=
  try_catch_rethrow
    (match CipherCore.AES_decrypt rnd encryptedPassword masterKey with
     | Throw e => Throw e
     | Ok decrypted =>
         match Utf8_stringify decrypted with
         | Throw e => Throw e
         | Ok password =>
             match password with
             | [] => Throw invalid_key
             | _ :: _ => Ok password
             end
         end
     end)
    decrypt_failed.

(** [CryptoJS.SHA256(username + password).toString()] *)
Definition generateMasterKey (username password : jsstring) : result jsstring :=
  match Utf8_parse (username ++ password) with
  | Throw e => Throw e
  | Ok message => Ok (Hex_stringify (Hashers.SHA256 message))
  end.

End PasswordCrypto.

(** ** client/src/components/credential-modal.tsx: saveMutation *)

(** The user object of [useAuth()], as far as the components read it. *)
Record AuthUser := {
  auth_username : jsstring;
  auth_password : option jsstring
}.

(** [CredentialFormData]: the values of the credential form. *)
Record CredentialFormData := {
  form_name : jsstring;
  form_url : option jsstring;
  form_username : jsstring;
  form_password : jsstring;
  form_category : jsstring
}.

Module CredentialModal.

(** [user.password || ""]: the user object of the client may carry no
    password. *)
Definition password_or_empty (password : option jsstring) : jsstring :=
  match password with
  | Some p => p
  | None => []
  end.

(** [const masterKey = PasswordCrypto.generateMasterKey(user.username, user.password || "")] *)
Definition masterKey (username : jsstring) (password : option jsstring)
    : result jsstring :=
  PasswordCrypto.generateMasterKey username (password_or_empty password).

(** [const encryptedPassword = PasswordCrypto.encrypt(data.password, masterKey)] *)
Definition encryptedPassword (rnd : N * N) (username : jsstring)
    (password : option jsstring) (data_password : jsstring) : result jsstring :=
  match masterKey username password with
  | Throw e => Throw e
  | Ok key => PasswordCrypto.encrypt rnd data_password key
  end.

Definition not_authenticated : string := "User not authenticated".

(** [const payload = { name: data.name, url: data.url || null, ... }] *)
Definition payload (rnd : N * N) (user : AuthUser) (data : CredentialFormData)
    : result InsertCredential :=
  match encryptedPassword rnd (auth_username user) (auth_password user)
          (form_password data) with
  | Throw e => Throw e
  | Ok encrypted =>
      Ok {| ins_name := form_name data;
            ins_url := or_null (form_url data);
            ins_username := form_username data;
            ins_encryptedPassword := encrypted;
            ins_category := Some (form_category data) |}
  end.

(** The request [saveMutation] sends: a PUT to the credential that is
    edited, a POST when there is none. *)
Inductive Sent :=
| Put (id : jsstring) (body : InsertCredential)
| Post (body : InsertCredential).

Definition saveMutation (rnd : N * N) (user : option AuthUser)
    (credential : option Credential.t) (data : CredentialFormData) : result Sent :=
  match user with
  | None => Throw not_authenticated
  | Some user =>
      match payload rnd user data with
      | Throw e => Throw e
      | Ok body =>
          Ok (match credential with
              | Some credential => Put (Credential.id credential) body
              | None => Post body
              end)
      end
  end.

(** The effect that runs when the dialog opens: the values the form is
    reset to.  With a credential to edit its password is decrypted first;
    [Throw] stands for the toast "Failed to decrypt", after which the form
    is left as it was, and without a user nothing happens. *)
Definition opened_form (rnd : N * N) (user : option AuthUser)
    (credential : option Credential.t) : option (result CredentialFormData) :=
  match credential with
  | Some credential =>
      match user with
      | Some user =>
          Some
            match masterKey (auth_username user) (auth_password user) with
            | Throw e => Throw e
            | Ok key =>
                match PasswordCrypto.decrypt rnd
                        (Credential.encryptedPassword credential) key with
                | Throw e => Throw e
                | Ok password =>
                    Ok {| form_name := Credential.name credential;
                          form_url := Some (or_else (Credential.url credential) []);
                          form_username := Credential.username credential;
                          form_password := password;
                          form_category := Credential.category credential |}
                end
            end
      | None => None
      end
  | None =>
      Some (Ok {| form_name := []; form_url := Some []; form_username := [];
                  form_password := []; form_category := lit "other" |})
  end.

End CredentialModal.

(** ** client/src/components/credential-card.tsx *)

Module CredentialCard.

(** What [copyPassword] does: nothing without a user, the decrypted
    password handed to the clipboard, or the toast "Failed to decrypt". *)
Inductive Copy :=
| Nothing
| Clipboard (text : jsstring)
| Toast (title : string).

Definition copyPassword (rnd : N * N) (user : option AuthUser)
    (credential : Credential.t) : Copy :=
  match user with
  | None => Nothing
  | Some user =>
      match
        match CredentialModal.masterKey (auth_username user) (auth_password user) with
        | Throw e => Throw e
        | Ok masterKey =>
            PasswordCrypto.decrypt rnd (Credential.encryptedPassword credential)
              masterKey
        end
      with
      | Ok decryptedPassword => Clipboard decryptedPassword
      | Throw _ => Toast "Failed to decrypt"
      end
  end.

(** [const passwordStrength = analyzePasswordStrength(credential.encryptedPassword)] *)
Definition passwordStrength (credential : Credential.t) : Strength :=
  analyzePasswordStrength (Credential.encryptedPassword credential).

End CredentialCard.

(** ** client/src/components/recovery-key-modal.tsx: PasswordGeneratorModal *)

Module PasswordGeneratorModal.

(** The options the dialog starts with, and the ends of its length slider. *)
Definition initial_options : PasswordGeneratorOptions :=
  {| length := 16; uppercase := true; lowercase := true;
     numbers := true; symbols := false |}.

Definition slider_min : Z := 8.
Definition slider_max : Z := 64.

Section Engine.

Variable Array_sort :
  (code_unit -> code_unit -> M Z) -> list code_unit -> M (list code_unit).

(** The effect on a change of the options:
    [try { setGeneratedPassword(PasswordGenerator.generate(options)) }
     catch (error) { setGeneratedPassword("") }] *)
Definition generatedPassword (options : PasswordGeneratorOptions) : M jsstring :=
  generated <- PasswordGenerator.generate Array_sort options ;;
  ret match generated with
      | Ok password => password
      | Throw _ => []
      end.

End Engine.

End PasswordGeneratorModal.

(** ** client/src/components/import-export-modal.tsx *)

Module ImportExport.

(** One object of [decryptedCredentials]. *)
Record ExportRow := {
  row_name : jsstring;
  row_url : jsstring;
  row_username : jsstring;
  row_password : jsstring;
  row_category : jsstring
}.

(** [/^[=+\-@]/] *)
Definition formula_char (c : code_unit) : bool :=
  existsb (N.eqb c) (lit "=+-@").

Definition apostrophe : code_unit := N_of_ascii "'".
Definition double_quote : code_unit := 34%N.

Definition sanitizeForCSV (value : jsstring) : jsstring :=
  match value with
  | [] => value
  | c :: _ => if formula_char c then apostrophe :: value else value
  end.

Definition not_available : string :=
  "User not authenticated or master key not available".

(** The loop over the credentials of [exportMutation].  The random source
    is a sequence of draws, of which the decryption of each credential may
    take one. *)
Fixpoint export_loop (rnd : nat -> N * N) (masterKey : jsstring)
    (credentials : list Credential.t)
    (decryptedCredentials : list ExportRow) (errors : list jsstring)
    : list ExportRow * list jsstring :=
  match credentials with
  | [] => (decryptedCredentials, errors)
  | cred :: rest =>
      match PasswordCrypto.decrypt (rnd 0%nat) (Credential.encryptedPassword cred)
              masterKey with
      | Ok decryptedPassword =>
          export_loop (fun i => rnd (S i)) masterKey rest
            (decryptedCredentials
               ++ [{| row_name := sanitizeForCSV (Credential.name cred);
                      row_url := sanitizeForCSV (or_else (Credential.url cred) []);
                      row_username := sanitizeForCSV (Credential.username cred);
                      row_password := sanitizeForCSV decryptedPassword;
                      row_category := sanitizeForCSV (Credential.category cred) |}])
            errors
      | Throw _ =>
          export_loop (fun i => rnd (S i)) masterKey rest decryptedCredentials
            (errors
               ++ [lit "Failed to decrypt password for " ++ [double_quote]
                     ++ Credential.name cred ++ [double_quote]])
      end
  end.

(** [exportMutation] up to the objects it hands to [JSON.stringify] or
    [Papa.unparse], and the errors it logs. *)
Definition exportMutation (rnd : nat -> N * N) (user : option AuthUser)
    (masterKey : option jsstring) (credentials : list Credential.t)
    : result (list ExportRow * list jsstring) :=
  match user, or_null masterKey with
  | Some _, Some masterKey => Ok (export_loop rnd masterKey credentials [] [])
  | _, _ => Throw not_available
  end.

(** *** Import

    A record of the parsed file is of type [any].  The loop reads five of
    its properties; a property is undefined, null, a string, or a value of
    another type, of which only the truthiness counts.  The record itself
    may be null, on which reading a property throws a [TypeError]. *)
Inductive Value :=
| Undefined
| Null
| Str (s : jsstring)
| Other (truthy : bool).

Record Properties := {
  prop_name : Value;
  prop_url : Value;
  prop_username : Value;
  prop_password : Value;
  prop_category : Value
}.

Definition truthy (v : Value) : bool :=
  match v with
  | Str (_ :: _) => true
  | Other b => b
  | _ => false
  end.

(** [v || fallback] *)
Definition or_value (v fallback : Value) : Value :=
  if truthy v then v else fallback.

(** What the schema gives on success. *)
Record ValidData := {
  valid_name : jsstring;
  valid_url : option jsstring;
  valid_username : jsstring;
  valid_password : jsstring;
  valid_category : jsstring
}.

(** [insertCredentialSchema.omit(...).extend({ password: z.string().min(1) })
      .safeParse({ name, url, username, password, category })]: the columns
    [name], [username] and [category] are strings, [url] is a string or
    null, and the password is a string of one character at least. *)
Definition safeParse (name url username password category : Value)
    : option ValidData :=
  match name, username, password, category with
  | Str name, Str username, Str (c :: password), Str category =>
      match url with
      | Str url =>
          Some {| valid_name := name; valid_url := Some url;
                  valid_username := username; valid_password := c :: password;
                  valid_category := category |}
      | Null | Undefined =>
          Some {| valid_name := name; valid_url := None;
                  valid_username := username; valid_password := c :: password;
                  valid_category := category |}
      | Other _ => None
      end
  | _, _, _, _ => None
  end.

(** An entry of [errors], by the template that builds it: the value
    [cred.name || 'unknown'] it quotes, and for a failed import the message
    of the exception.  The texts of the schema's issues are left out. *)
Inductive ImportError :=
| Validation_failed (label : Value)
| Failed_to_import (label : Value) (message : string).

Record ImportResult := {
  successful : nat;
  failed : nat;
  errors : list ImportError
}.

(** A statement of the loop completes, or an exception leaves the loop. *)
Inductive Completion (A : Type) : Type :=
| Normal (a : A)
| Escaped (a : A).

Definition CHUNK_SIZE : nat := 50.

(** [credentials.slice(i, j)] for [i <= j] *)
Definition slice {A} (i j : nat) (l : list A) : list A :=
  firstn (j - i) (skipn i l).

Section Network.

(** [apiRequest] of [lib/queryClient] is not part of the sources at hand:
    the POST changes the state of the network and the server behind it,
    and resolves or throws. *)
Variable Net : Type.
Variable apiRequest_POST : InsertCredential -> Net -> result unit * Net.

Record ImportState := {
  counts : ImportResult;
  net : Net;
  random : nat -> N * N
}.

Definition count_failed (e : ImportError) (st : ImportState) : ImportState :=
  {| counts := {| successful := successful (counts st);
                  failed := S (failed (counts st));
                  errors := errors (counts st) ++ [e] |};
     net := net st; random := random st |}.

(** The body of [for (const cred of chunk)] on one record. *)
Definition import_record (masterKey : jsstring) (cred : option Properties)
    (st : ImportState) : Completion ImportState :=
  match cred with
  | None =>
      (* [cred.name] throws in the [try] block; the [catch] block counts
         the record and throws on [cred.name] in its turn. *)
      Escaped {| counts := {| successful := successful (counts st);
                              failed := S (failed (counts st));
                              errors := errors (counts st) |};
                 net := net st; random := random st |}
  | Some cred =>
      let label := or_value (prop_name cred) (Str (lit "unknown")) in
      match safeParse (prop_name cred) (or_value (prop_url cred) Null)
              (prop_username cred) (prop_password cred)
              (or_value (prop_category cred) (Str (lit "other"))) with
      | None => Normal (count_failed (Validation_failed label) st)
      | Some validData =>
          let rnd := random st 0%nat in
          let st := {| counts := counts st; net := net st;
                       random := fun i => random st (S i) |} in
          match PasswordCrypto.encrypt rnd (valid_password validData) masterKey with
          | Throw e => Normal (count_failed (Failed_to_import label e) st)
          | Ok encryptedPassword =>
              match apiRequest_POST
                      {| ins_name := valid_name validData;
                         ins_url := valid_url validData;
                         ins_username := valid_username validData;
                         ins_encryptedPassword := encryptedPassword;
                         ins_category := Some (valid_category validData) |}
                      (net st) with
              | (Ok _, net') =>
                  Normal {| counts := {| successful := S (successful (counts st));
                                         failed := failed (counts st);
                                         errors := errors (counts st) |};
                            net := net'; random := random st |}
              | (Throw e, net') =>
                  Normal (count_failed (Failed_to_import label e)
                            {| counts := counts st; net := net';
                               random := random st |})
              end
          end
      end
  end.

(** [for (const cred of chunk) { ... }] *)
Fixpoint for_of (masterKey : jsstring) (chunk : list (option Properties))
    (st : ImportState) : Completion ImportState :=
  match chunk with
  | [] => Normal st
  | cred :: rest =>
      match import_record masterKey cred st with
      | Normal st' => for_of masterKey rest st'
      | Escaped st' => Escaped st'
      end
  end.

(** [for (let i = 0; i < credentials.length; i += CHUNK_SIZE)], with a
    bound on the number of iterations. *)
Fixpoint chunks_from (bound i : nat) (masterKey : jsstring)
    (credentials : list (option Properties)) (st : ImportState)
    : Completion ImportState :=
  match bound with
  | O => Normal st
  | S bound' =>
      if (i <? List.length credentials)%nat then
        match for_of masterKey (slice i (i + CHUNK_SIZE) credentials) st with
        | Normal st' => chunks_from bound' (i + CHUNK_SIZE) masterKey credentials st'
        | Escaped st' => Escaped st'
        end
      else Normal st
  end.

(** The import of the records of a file: what [setImportResult] is given,
    or an exception that reaches the outer [catch], and the state of the
    network either way. *)
Definition import_credentials (masterKey : jsstring)
    (credentials : list (option Properties)) (random : nat -> N * N) (net0 : Net)
    : Completion ImportState :=
  chunks_from (List.length credentials) 0 masterKey credentials
    {| counts := {| successful := 0; failed := 0; errors := [] |};
       net := net0; random := random |}.

End Network.

End ImportExport.

(** * Vocabulary of the properties, and sample data *)

Module GeneratorSpec.
Import PasswordGenerator.

(** The number of classes a policy enables, and the characters it draws
    from. *)
Definition class_count (o : PasswordGeneratorOptions) : nat :=
  (Nat.b2n (uppercase o) + Nat.b2n (lowercase o)
   + Nat.b2n (numbers o) + Nat.b2n (symbols o))%nat.

Definition charset_of (o : PasswordGeneratorOptions) : jsstring :=
  (if uppercase o then UPPERCASE else [])
    ++ (if lowercase o then LOWERCASE else [])
    ++ (if numbers o then NUMBERS else [])
    ++ (if symbols o then SYMBOLS else []).

Definition contains (class s : jsstring) : Prop :=
  exists c, In c s /\ In c class.

(** One character of every class the policy enables. *)
Definition represents (o : PasswordGeneratorOptions) (s : jsstring) : Prop :=
  (uppercase o = true -> contains UPPERCASE s)
  /\ (lowercase o = true -> contains LOWERCASE s)
  /\ (numbers o = true -> contains NUMBERS s)
  /\ (symbols o = true -> contains SYMBOLS s).

Definition sorts_by_rearranging
    (sort : (code_unit -> code_unit -> M Z) -> list code_unit -> M (list code_unit))
    : Prop :=
  forall cmp l r, Permutation (fst (sort cmp l r)) l.

(** The characters pushed for the enabled classes, in the order of the
    source. *)
Definition guaranteed_of (o : PasswordGeneratorOptions) (cu cl cn cs : code_unit)
    : jsstring :=
  (if uppercase o then [cu] else []) ++ (if lowercase o then [cl] else [])
    ++ (if numbers o then [cn] else []) ++ (if symbols o then [cs] else []).

Section Body.

Variable Array_sort :
  (code_unit -> code_unit -> M Z) -> list code_unit -> M (list code_unit).

(** [generate] after its validation, on the charset it has built. *)
Definition generate_body (o : PasswordGeneratorOptions) (charset : jsstring)
    : M (result jsstring) :=
  guaranteedChars <- push_guaranteed (uppercase o) UPPERCASE [] ;;
  guaranteedChars <- push_guaranteed (lowercase o) LOWERCASE guaranteedChars ;;
  guaranteedChars <- push_guaranteed (numbers o) NUMBERS guaranteedChars ;;
  guaranteedChars <- push_guaranteed (symbols o) SYMBOLS guaranteedChars ;;
  password <-
    fill (Z.to_nat (length o - Z.of_nat (List.length guaranteedChars))) charset
         (fold_left (fun p char => p ++ to_str char) guaranteedChars []) ;;
  shuffled <- shuffleString Array_sort password ;;
  ret (Ok shuffled).

End Body.

(** A sample random source and the policies of the specification. *)
Definition sample_rng : Rng :=
  fun i => (N.of_nat i * 2862933555777941757 + 3037000493)%N.

Definition policy16 : PasswordGeneratorOptions :=
  {| length := 16; uppercase := true; lowercase := true;
     numbers := true; symbols := true |}.

Definition policy_short : PasswordGeneratorOptions :=
  {| length := 2; uppercase := true; lowercase := true;
     numbers := true; symbols := false |}.

End GeneratorSpec.

Module ResetSpec.
(** Two rows that agree on everything but the password hash. *)
Definition same_but_password (u u' : User.t) : Prop :=
  User.id u' = User.id u
  /\ User.username u' = User.username u
  /\ User.recoveryKey u' = User.recoveryKey u
  /\ User.createdAt u' = User.createdAt u.

(** A stand-in for [server/auth.ts] and the driver.  The only value that
    is no string is the undefined of a property that is missing, for which
    the driver sends NULL.  The verifier of a phrase is the phrase behind a
    marker, the hash of a password the password behind the salt in
    hexadecimal; both throw on a value that is no string. *)
Definition sample_prepare (v : unit) : result (option jsstring) := Ok None.

Definition sample_compare (supplied : BodyValue unit) (stored : jsstring)
    : result bool :=
  match supplied with
  | AString s => Ok (str_eqb (lit "v1." ++ s) stored)
  | NoString _ => Throw "The first argument must be of type string"
  end.

Definition sample_hash (salt : list byte) (password : BodyValue unit)
    : result jsstring :=
  match password with
  | AString p => Ok (CryptoJS.Hex_stringify salt ++ lit "." ++ p)
  | NoString _ => Throw "The first argument must be of type string"
  end.

Definition alice : User.t :=
  {| User.id := lit "u-1"; User.username := lit "alice";
     User.password := lit "00.Secret123!";
     User.recoveryKey := lit "v1.apple brave coral";
     User.createdAt := 1700000000 |}.

Definition bob : User.t :=
  {| User.id := lit "u-2"; User.username := lit "bob";
     User.password := lit "01.hunter2";
     User.recoveryKey := lit "v1.delta eagle frost";
     User.createdAt := 1700000100 |}.

Definition sample_db : Database :=
  {| users := [alice; bob];
     credentials :=
       [ {| Credential.id := lit "c-1"; Credential.userId := lit "u-1";
            Credential.name := lit "mail"; Credential.url := None;
            Credential.username := lit "alice@example.org";
            Credential.encryptedPassword :=
              lit "U2FsdGVkX18BAgMEBQYHCBg7e9YKfAmtpjFFyOuge7o=";
            Credential.category := lit "other";
            Credential.createdAt := 1700000200;
            Credential.updatedAt := 1700000200 |} ] |}.

Definition good_reset : ResetRequest unit :=
  {| req_username := AString (lit "alice");
     req_recoveryKey := AString (lit "apple brave coral");
     req_newPassword := AString (lit "NewSecret456!") |}.






End ResetSpec.

Module CipherSpec.
Import CryptoJS.

(** The bytes of an ASCII text, and bytes in hexadecimal, to write test
    vectors. *)
Definition ascii_bytes (s : string) : bytes := map byte_of_N (lit s).

Definition hex (bs : bytes) : string :=
  string_of_list_ascii (map ascii_of_N (Hex_stringify bs)).

Definition padding_length (data : bytes) : nat := (16 - List.length data mod 16)%nat.

Definition triplet (b1 b2 b3 : byte) : N :=
  N.lor (N.lor (N.shiftl (Byte.to_N b1) 16) (N.shiftl (Byte.to_N b2) 8)) (Byte.to_N b3).

Definition sextet (t j : N) : N := N.land (N.shiftr t (6 * (3 - j))) 63.

(** The byte [parseLoop] builds at phase 1, 2 and 3 from the sextets on
    both sides of it. *)
Definition parse_byte (phase prev c : N) : byte :=
  byte_of_N (N.lor (N.shiftl prev (phase * 2)) (N.shiftr c (6 - phase * 2))).

(** A Unicode scalar value: a code point that is no surrogate. *)
Definition scalar (cp : N) : Prop :=
  (cp < 55296 \/ 57344 <= cp < 1114112)%N.

(** A string that can be encoded as UTF-8: its code units are below 2^16
    and no surrogate stands unpaired. *)
Definition well_formed (s : jsstring) : bool := is_ok (Utf8_parse s).

(** What [decrypt] answers on what [encrypt] returned: the plaintext when
    it is not empty, the error of a failed decryption when it is. *)
Definition opened (plaintext : jsstring) : result jsstring :=
  match plaintext with
  | [] => Throw PasswordCrypto.decrypt_failed
  | _ :: _ => Ok plaintext
  end.

(** [s] with the character at position [i] replaced by the character [c]. *)
Definition replace_at (i : nat) (c : ascii) (s : jsstring) : jsstring :=
  firstn i s ++ [N_of_ascii c] ++ skipn (S i) s.

(** The account of the end-to-end scenario, a salt, and what sealing gives
    under them. *)
Definition alice_key : jsstring :=
  lit "596a3b71f7e61ca8b4facabb3475ecb823e608598f9a24063620b7a59062356e".

(** The key of the same username with the password "Secret5!". *)
Definition other_key : jsstring :=
  lit "5e684c45a30f85022ba47c2d0b0c671f536d57554a6db1ad01b053315dea662b".

(** The key of the same username with the password "Secret124!". *)
Definition another_key : jsstring :=
  lit "ed205fb63a9d63c801935d8e9f921abab869646886ffe5e3d5530e4395f72e31".

Definition sample_salt : N * N := (0x01020304, 0x05060708)%N.

Definition sealed_site_password : jsstring :=
  lit "U2FsdGVkX18BAgMEBQYHCBg7e9YKfAmtpjFFyOuge7o=".

Definition sealed_empty : jsstring :=
  lit "U2FsdGVkX18BAgMEBQYHCFezgU58nbpc+ta1ulByqIg=".

End CipherSpec.

(** ** Proof tools *)

(** An equation between tuples of bits, bit by bit. *)
Ltac split_bits :=
  repeat match goal with
         | |- (_, _) = (_, _) => apply f_equal2
         end.

(** The bits of a byte variable, as eight boolean variables. *)
Ltac bits_of x :=
  let t := fresh "t" in
  generalize (Byte.to_bits x); intro t;
  destruct t as (? & ? & ? & ? & ? & ? & ? & ?).

(** Linear arithmetic with quotients and remainders by constants. *)
Ltac divmod_lia := zify; Z.to_euclidean_division_equations; lia.

(** Settles the comparisons of the goal that linear arithmetic decides. *)
Ltac decide_comparisons :=
  repeat match goal with
         | |- context [(?a <? ?b)%N] =>
             first [ replace (a <? b)%N with true
                       by (symmetry; apply N.ltb_lt; divmod_lia)
                   | replace (a <? b)%N with false
                       by (symmetry; apply N.ltb_ge; divmod_lia) ]
         | |- context [(?a <=? ?b)%N] =>
             first [ replace (a <=? b)%N with true
                       by (symmetry; apply N.leb_le; divmod_lia)
                   | replace (a <=? b)%N with false
                       by (symmetry; apply N.leb_gt; divmod_lia) ]
         end.

(** A conjunction of closed equations, each settled by evaluation. *)
Ltac compute_each :=
  repeat match goal with
         | |- _ /\ _ => split
         end;
  vm_compute; reflexivity.

(** ** Vocabulary of the further properties *)

Module StrengthSpec.

(** The answers of the estimator's four class tests on one character:
    uppercase, lowercase, digit, other. *)
Definition classes (c : code_unit) : bool * bool * bool * bool :=
  (class_upper c, class_lower c, class_digit c, class_other c).

End StrengthSpec.

Module VaultSpec.

(** The session acts for the user with this identifier. *)
Definition acts_as (session : option User.t) (userId : jsstring) : bool :=
  match session with
  | Some user => str_eqb (User.id user) userId
  | None => false
  end.

(** The constraints [shared/schema.ts] declares: the primary keys of both
    tables and the usernames are distinct, and every credential refers to
    a user. *)
Definition consistent (db : Database) : Prop :=
  NoDup (map User.id (users db))
  /\ NoDup (map User.username (users db))
  /\ NoDup (map Credential.id (credentials db))
  /\ Forall (fun c => In (Credential.userId c) (map User.id (users db)))
       (credentials db).

(** A text without U+0000, which the database refuses. *)
Definition nul_free (s : jsstring) : bool := negb (existsb (N.eqb 0) s).

Definition nul_free_option (x : option jsstring) : bool :=
  match x with
  | Some s => nul_free s
  | None => true
  end.

(** The columns an update names are without U+0000. *)
Definition update_nul_free (updates : UpdateCredential) : bool :=
  nul_free_option (upd_name updates)
  && match upd_url updates with
     | Some url => nul_free_option url
     | None => true
     end
  && nul_free_option (upd_username updates)
  && nul_free_option (upd_encryptedPassword updates)
  && nul_free_option (upd_category updates).

(** The text of a generated identifier or of a sealed password: no U+0000
    and no surrogate in it. *)
Definition plain (s : jsstring) : Prop :=
  Forall (fun c => (0 < c < 55296)%N) s.

(** [rows'] is [rows] with [row] put in at some place. *)
Definition put_in {A} (row : A) (rows rows' : list A) : Prop :=
  exists before after, rows = before ++ after /\ rows' = before ++ row :: after.

(** A column that an update leaves out keeps its value. *)
Definition kept_where_left_out (updates : UpdateCredential) (c c' : Credential.t)
    : Prop :=
  (upd_name updates = None -> Credential.name c' = Credential.name c)
  /\ (upd_url updates = None -> Credential.url c' = Credential.url c)
  /\ (upd_username updates = None -> Credential.username c' = Credential.username c)
  /\ (upd_encryptedPassword updates = None ->
      Credential.encryptedPassword c' = Credential.encryptedPassword c)
  /\ (upd_category updates = None -> Credential.category c' = Credential.category c).

(** A row after an update: its identifier, its owner and its creation
    time are those of the row before. *)
Definition same_identity (c c' : Credential.t) : Prop :=
  Credential.id c' = Credential.id c
  /\ Credential.userId c' = Credential.userId c
  /\ Credential.createdAt c' = Credential.createdAt c.

Definition mail : Credential.t :=
  {| Credential.id := lit "c-1"; Credential.userId := lit "u-1";
     Credential.name := lit "mail"; Credential.url := None;
     Credential.username := lit "alice@example.org";
     Credential.encryptedPassword :=
       lit "U2FsdGVkX18BAgMEBQYHCBg7e9YKfAmtpjFFyOuge7o=";
     Credential.category := lit "other";
     Credential.createdAt := 1700000200;
     Credential.updatedAt := 1700000200 |}.

Definition bank : InsertCredential :=
  {| ins_name := lit "bank"; ins_url := Some [];
     ins_username := lit "bob";
     ins_encryptedPassword := lit "U2FsdGVkX18BAgMEBQYHCFezgU58nbpc+ta1ulByqIg=";
     ins_category := None |}.

Definition rename : UpdateCredential :=
  {| upd_name := Some (lit "webmail"); upd_url := None; upd_username := None;
     upd_encryptedPassword := None; upd_category := None |}.

Definition carol : InsertUser :=
  {| new_username := lit "carol"; new_password := lit "02.pass";
     new_recoveryKey := lit "v1.grape honey ivory" |}.

End VaultSpec.

Module TransferSpec.
Import ImportExport.

(** The value starts with one of the characters "=", "+", "-" and "@". *)
Definition starts_formula (value : jsstring) : bool :=
  match value with
  | c :: _ => formula_char c
  | [] => false
  end.

(** The row the export writes for a credential whose password opened. *)
Definition row_of (cred : Credential.t) (decryptedPassword : jsstring) : ExportRow :=
  {| row_name := sanitizeForCSV (Credential.name cred);
     row_url := sanitizeForCSV (or_else (Credential.url cred) []);
     row_username := sanitizeForCSV (Credential.username cred);
     row_password := sanitizeForCSV decryptedPassword;
     row_category := sanitizeForCSV (Credential.category cred) |}.


(** The state of an import before its first record. *)
Definition start {Net : Type} (random : nat -> N * N) (net0 : Net) : ImportState Net :=
  {| counts := {| successful := 0; failed := 0; errors := [] |};
     net := net0; random := random |}.

(** An exported object read back from the file: each of its five
    properties is the string that was written. *)
Definition reread (row : ExportRow) : Properties :=
  {| prop_name := Str (row_name row);
     prop_url := Str (row_url row);
     prop_username := Str (row_username row);
     prop_password := Str (row_password row);
     prop_category := Str (row_category row) |}.

(** The counters and the list of errors go together, and account for a
    number of records. *)
Definition accounts_for (n : nat) (result : ImportResult) : Prop :=
  (successful result + failed result = n)%nat
  /\ List.length (errors result) = failed result.

(** A network that keeps what was posted, and one that refuses all. *)
Definition keep_posted (body : InsertCredential) (sent : list InsertCredential)
    : result unit * list InsertCredential :=
  (Ok tt, sent ++ [body]).

Definition salts (i : nat) : N * N := (N.of_nat i + 16909060, 84281096)%N.

Definition record_of (name password : string) : option Properties :=
  Some {| prop_name := Str (lit name); prop_url := Undefined;
          prop_username := Str (lit "alice"); prop_password := Str (lit password);
          prop_category := Undefined |}.

End TransferSpec.

(** * Properties *)

(** ** Known answers

    The library model against published test vectors: RFC 1321 (MD5),
    FIPS 180-4 (SHA-256), FIPS 197 appendix C.3 (AES-256), RFC 4648
    (Base64), and the OpenSSL-compatible text that
    [openssl enc -aes-256-cbc -md md5] produces for the same password, salt
    and message. *)

Module KnownAnswers.
Import CryptoJS Hashers AES CipherCore CipherSpec.

Example MD5_abc : hex (MD5 (ascii_bytes "abc")) = "900150983cd24fb0d6963f7d28e17f72"%string.
Proof. vm_compute. reflexivity. Qed.

Example MD5_empty : hex (MD5 []) = "d41d8cd98f00b204e9800998ecf8427e"%string.
Proof. vm_compute. reflexivity. Qed.

Example SHA256_abc :
  hex (SHA256 (ascii_bytes "abc"))
  = "ba7816bf8f01cfea414140de5dae2223b00361a396177a9cb410ff61f20015ad"%string.
Proof. vm_compute. reflexivity. Qed.

Example SHA256_two_blocks :
  hex (SHA256 (ascii_bytes "abcdbcdecdefdefgefghfghighijhijkijkljklmklmnlmnomnopnopq"))
  = "248d6a61d20638b8e5c026930c3e6039a33ce45964ff2167f6ecedd419db06c1"%string.
Proof. vm_compute. reflexivity. Qed.

Example SBOX_first_row :
  hex (firstn 16 SBOX) = "637c777bf26b6fc53001672bfed7ab76"%string.
Proof. vm_compute. reflexivity. Qed.

Example AES256_fips197 :
  hex (bytes_of_block
         (encryptBlock
            (keySchedule (map byte_of_N (map N.of_nat (seq 0 32))))
            (block_of_bytes
               (map byte_of_N (map (fun i => N.of_nat (17 * i)) (seq 0 16))))))
  = "8ea2b7ca516745bfeafc49904b496089"%string.
Proof. vm_compute. reflexivity. Qed.

Example Base64_rfc4648 :
  Base64_stringify (ascii_bytes "f") = lit "Zg=="
  /\ Base64_stringify (ascii_bytes "fo") = lit "Zm8="
  /\ Base64_stringify (ascii_bytes "foobar") = lit "Zm9vYmFy"
  /\ Base64_parse (lit "Zm9vYmE=") = ascii_bytes "fooba".
Proof. compute_each. Qed.

Example Utf8_euro_and_emoji :
  Utf8_parse [8364; 55357; 56832]%N
  = Ok (map byte_of_N [226; 130; 172; 240; 159; 152; 128]%N).
Proof. vm_compute. reflexivity. Qed.

Example EvpKDF_md5 :
  hex (EvpKDF 12 (ascii_bytes "secret") (ascii_bytes "12345678"))
  = ("7ee080c6739056454793b9864669d85f2d06f361067a22fdf7eee3109c8cbdc6"
       ++ "8bdce420bfb8cd33e85370ea108d6683")%string.
Proof. vm_compute. reflexivity. Qed.

Example AES_encrypt_openssl :
  AES_encrypt (0x01020304, 0x05060708)%N (lit "site-password") (lit "secretkey")
  = Ok (lit "U2FsdGVkX18BAgMEBQYHCBQPol5EfVhnwSzYQuQMzOo=").
Proof. vm_compute. reflexivity. Qed.

End KnownAnswers.

(** ** The strength estimator *)

(** C6: the score of [analyzePasswordStrength] is the number of conditions
    that hold among length >= 8, length >= 12, contains a lowercase letter,
    an uppercase letter, a digit, a symbol; it lies in 0..6; the label is
    Weak for 0-2, Moderate for 3-4 and Strong for 5-6; "abc" scores 1 (Weak)
    and "Passw0rd!123" scores 6 (Strong). *)
Theorem analyzePasswordStrength_additive :
  forall password : jsstring,
    score (analyzePasswordStrength password) = estimate_points password
    /\ (score (analyzePasswordStrength password) <= 6)%N
    /\ label (analyzePasswordStrength password)
       = estimate_label (score (analyzePasswordStrength password))
    /\ (score (analyzePasswordStrength (lit "abc")) = 1%N
        /\ label (analyzePasswordStrength (lit "abc")) = Weak)
    /\ (score (analyzePasswordStrength (lit "Passw0rd!123")) = 6%N
        /\ label (analyzePasswordStrength (lit "Passw0rd!123")) = Strong).
Proof.
  intro password.
  assert (General :
    score (analyzePasswordStrength password) = estimate_points password
    /\ (score (analyzePasswordStrength password) <= 6)%N
    /\ label (analyzePasswordStrength password)
       = estimate_label (score (analyzePasswordStrength password))).
  { unfold analyzePasswordStrength, estimate_points, estimate_label, test.
    destruct (8 <=? N.of_nat (List.length password))%N;
      destruct (12 <=? N.of_nat (List.length password))%N;
      destruct (existsb class_lower password);
      destruct (existsb class_upper password);
      destruct (existsb class_digit password);
      destruct (existsb class_other password);
      cbn; (split; [reflexivity | split; [lia | reflexivity]]). }
  destruct General as (Hscore & Hbound & Hlabel).
  split; [exact Hscore|]. split; [exact Hbound|]. split; [exact Hlabel|].
  compute_each.
Qed.

(** ** The password generator *)

Module GeneratorFacts.
Import PasswordGenerator GeneratorSpec.

Lemma random_below_lt (n : N) (r : Rng) :
  (0 < n)%N -> (fst (random_below n r) < n)%N.
Proof.
  intro Hn. unfold random_below, bind, Math_random, ret; cbn [fst].
  apply N.Div0.div_lt_upper_bound.
  assert (r 0%nat mod mantissa < mantissa)%N by (apply N.mod_lt; discriminate).
  nia.
Qed.

Lemma getRandomChar_in (charset : jsstring) (r : Rng) :
  charset <> [] ->
  exists c, fst (getRandomChar charset r) = Some c /\ In c charset.
Proof.
  intro Hne.
  assert (Hlt : (fst (random_below (N.of_nat (List.length charset)) r)
                 < N.of_nat (List.length charset))%N).
  { apply random_below_lt. destruct charset; [contradiction | cbn; lia]. }
  unfold getRandomChar, bind.
  destruct (random_below (N.of_nat (List.length charset)) r) as [i r'] eqn:E.
  cbn [fst] in *. unfold ret; cbn [fst].
  destruct (nth_error charset (N.to_nat i)) as [c|] eqn:En.
  - exists c. split; [reflexivity | eapply nth_error_In; eassumption].
  - apply nth_error_None in En. lia.
Qed.

Lemma push_guaranteed_spec (flag : bool) (class : jsstring) g (r : Rng) :
  class <> [] ->
  exists c r', In c class
    /\ push_guaranteed flag class g r = (g ++ (if flag then [Some c] else []), r').
Proof.
  intro Hne. unfold push_guaranteed.
  destruct flag.
  - destruct (getRandomChar_in r Hne) as (c & Hc & Hin).
    unfold bind. destruct (getRandomChar class r) as [v r'] eqn:E.
    cbn [fst] in Hc. subst v. exists c, r'. split; [assumption | reflexivity].
  - destruct class as [|c class']; [contradiction|].
    exists c, r. split; [left; reflexivity | unfold ret; now rewrite app_nil_r].
Qed.

Lemma fill_spec (n : nat) (charset : jsstring) :
  charset <> [] ->
  forall password r,
  exists cs r', fill n charset password r = (password ++ cs, r')
    /\ List.length cs = n /\ Forall (fun c => In c charset) cs.
Proof.
  intro Hne. induction n as [|n IH]; intros password r.
  - exists [], r. cbn. unfold ret. rewrite app_nil_r. auto.
  - cbn [fill]. unfold bind.
    destruct (getRandomChar_in r Hne) as (c & Hc & Hin).
    destruct (getRandomChar charset r) as [v r1] eqn:E.
    cbn [fst] in Hc. subst v. cbn [to_str].
    destruct (IH (password ++ [c]) r1) as (cs & r' & Hfill & Hlen & Hall).
    exists (c :: cs), r'. rewrite Hfill, <- app_assoc. cbn.
    repeat split; auto.
Qed.

Lemma guaranteed_length o cu cl cn cs :
  List.length (guaranteed_of o cu cl cn cs) = class_count o.
Proof.
  unfold guaranteed_of, class_count.
  destruct (uppercase o), (lowercase o), (numbers o), (symbols o); reflexivity.
Qed.

Lemma guaranteed_represents o cu cl cn cs rest :
  In cu UPPERCASE -> In cl LOWERCASE -> In cn NUMBERS -> In cs SYMBOLS ->
  represents o (guaranteed_of o cu cl cn cs ++ rest).
Proof.
  intros Hu Hl Hn Hs. unfold represents, contains, guaranteed_of.
  repeat split; intro E; rewrite E;
    [exists cu | exists cl | exists cn | exists cs];
    (split; [ | assumption]);
    rewrite !in_app_iff; cbn; tauto.
Qed.

Lemma fold_to_str (g : list code_unit) (p : jsstring) :
  fold_left (fun p char => p ++ to_str char) (map Some g) p = p ++ g.
Proof.
  revert p. induction g as [|c g IH]; intro p; cbn.
  - now rewrite app_nil_r.
  - rewrite IH, <- app_assoc. reflexivity.
Qed.

Lemma class_nonempty :
  UPPERCASE <> [] /\ LOWERCASE <> [] /\ NUMBERS <> [] /\ SYMBOLS <> [].
Proof. repeat split; discriminate. Qed.

Section AnyEngine.
Variable Array_sort :
  (code_unit -> code_unit -> M Z) -> list code_unit -> M (list code_unit).

Lemma generate_unfold o :
  generate Array_sort o
  = match charset_of o with
    | [] => ret (Throw no_class_message)
    | _ :: _ => generate_body Array_sort o (charset_of o)
    end.
Proof.
  unfold generate, generate_body, charset_of.
  destruct (uppercase o), (lowercase o), (numbers o), (symbols o); reflexivity.
Qed.

(** Without a class the call throws before it draws anything. *)
Lemma generate_no_class o r :
  class_count o = 0%nat ->
  generate Array_sort o r = (Throw no_class_message, r).
Proof.
  unfold class_count, generate.
  destruct (uppercase o), (lowercase o), (numbers o), (symbols o);
    cbn; intro H; try discriminate H; reflexivity.
Qed.

(** With a class, the string handed to the shuffle is the guaranteed
    characters followed by the fill. *)
Lemma generate_shape o r :
  class_count o <> 0%nat ->
  exists cu cl cn cs fillchars r',
    In cu UPPERCASE /\ In cl LOWERCASE /\ In cn NUMBERS /\ In cs SYMBOLS
    /\ List.length fillchars = Z.to_nat (length o - Z.of_nat (class_count o))
    /\ Forall (fun c => In c (charset_of o)) fillchars
    /\ fst (generate Array_sort o r)
       = Ok (fst (Array_sort random_comparator
                    (guaranteed_of o cu cl cn cs ++ fillchars) r')).
Proof.
  intro Hcount.
  destruct class_nonempty as (Hu & Hl & Hn & Hs).
  assert (Hcs : charset_of o <> []).
  { unfold class_count, charset_of in *.
    destruct (uppercase o), (lowercase o), (numbers o), (symbols o);
      cbn in *; congruence. }
  assert (Ebody : generate Array_sort o = generate_body Array_sort o (charset_of o)).
  { rewrite generate_unfold. destruct (charset_of o); [congruence | reflexivity]. }
  rewrite Ebody. unfold generate_body.
  unfold bind.
  destruct (push_guaranteed_spec (uppercase o) [] r Hu) as (cu & r1 & Hcu & E1).
  rewrite E1.
  destruct (push_guaranteed_spec (lowercase o)
              ([] ++ (if uppercase o then [Some cu] else [])) r1 Hl)
    as (cl & r2 & Hcl & E2).
  rewrite E2.
  destruct (push_guaranteed_spec (numbers o)
              (([] ++ (if uppercase o then [Some cu] else []))
                 ++ (if lowercase o then [Some cl] else [])) r2 Hn)
    as (cn & r3 & Hcn & E3).
  rewrite E3.
  destruct (push_guaranteed_spec (symbols o)
              ((([] ++ (if uppercase o then [Some cu] else []))
                 ++ (if lowercase o then [Some cl] else []))
                 ++ (if numbers o then [Some cn] else [])) r3 Hs)
    as (cs & r4 & Hcs' & E4).
  rewrite E4.
  assert (Eg :
    ((([] ++ (if uppercase o then [Some cu] else []))
        ++ (if lowercase o then [Some cl] else []))
       ++ (if numbers o then [Some cn] else []))
      ++ (if symbols o then [Some cs] else [])
    = map Some (guaranteed_of o cu cl cn cs)).
  { unfold guaranteed_of.
    destruct (uppercase o), (lowercase o), (numbers o), (symbols o); reflexivity. }
  rewrite Eg, fold_to_str, length_map, guaranteed_length. cbn [app].
  destruct (fill_spec (Z.to_nat (length o - Z.of_nat (class_count o))) Hcs
              (guaranteed_of o cu cl cn cs) r4)
    as (fillchars & r5 & Efill & Hlen & Hall).
  rewrite Efill.
  exists cu, cl, cn, cs, fillchars, r5.
  unfold shuffleString, ret.
  destruct (Array_sort random_comparator
              (guaranteed_of o cu cl cn cs ++ fillchars) r5) as [s r6].
  cbn [fst]. repeat split; assumption.
Qed.

Hypothesis Array_sort_rearranges : sorts_by_rearranging Array_sort.

Lemma represents_perm o s s' :
  Permutation s' s -> represents o s -> represents o s'.
Proof.
  intros Hp (Hu & Hl & Hn & Hs).
  assert (Hc : forall class, contains class s -> contains class s').
  { intros class (c & Hin & Hcl). exists c. split; [|assumption].
    eapply Permutation_in; [symmetry; eassumption | assumption]. }
  unfold represents; repeat split; intro E; apply Hc; auto.
Qed.

(** What [generate] returns under a policy with a class: never an
    error, one character of each enabled class, and as many characters
    as the longer of the requested length and the number of classes. *)
Lemma generate_with_class o r :
  class_count o <> 0%nat ->
  exists s, fst (generate Array_sort o r) = Ok s
    /\ List.length s = Nat.max (class_count o) (Z.to_nat (length o))
    /\ represents o s
    /\ Forall (fun c => In c (charset_of o)) s.
Proof.
  intro Hcount.
  destruct (@generate_shape o r Hcount)
    as (cu & cl & cn & cs & fillchars & r' & Hu & Hl & Hn & Hs & Hlen & Hall & E).
  pose proof (Array_sort_rearranges random_comparator
                (guaranteed_of o cu cl cn cs ++ fillchars) r') as Hperm.
  eexists. split; [exact E|]. split; [|split].
  - rewrite (Permutation_length Hperm), length_app, guaranteed_length, Hlen. lia.
  - eapply represents_perm; [exact Hperm|]. now apply guaranteed_represents.
  - eapply Permutation_Forall; [symmetry; exact Hperm|].
    apply Forall_app; split; [|assumption].
    unfold guaranteed_of, charset_of. rewrite Forall_forall. intros c Hc.
    rewrite !in_app_iff in *.
    destruct (uppercase o), (lowercase o), (numbers o), (symbols o);
      cbn in Hc; intuition (subst; auto).
Qed.

End AnyEngine.

(** The insertion engine rearranges, whatever the comparator answers. *)
Lemma insert_by_perm cmp x l r :
  Permutation (fst (insert_by cmp x l r)) (x :: l).
Proof.
  revert r. induction l as [|y l IH]; intro r; cbn.
  - apply Permutation_refl.
  - unfold bind. destruct (cmp x y r) as [order r1].
    destruct (order <=? 0)%Z; cbn.
    + apply Permutation_refl.
    + specialize (IH r1). destruct (insert_by cmp x l r1) as [rest r2].
      cbn in *. rewrite perm_swap. now constructor.
Qed.

Lemma insertion_sort_rearranges : sorts_by_rearranging insertion_sort.
Proof.
  intros cmp l. induction l as [|x l IH]; intro r; cbn.
  - apply Permutation_refl.
  - unfold bind. specialize (IH r).
    destruct (insertion_sort cmp l r) as [sorted r1]. cbn in IH.
    rewrite insert_by_perm. now constructor.
Qed.

End GeneratorFacts.

Import GeneratorSpec GeneratorFacts.

(** C4, as the code has it: [generate] throws exactly when no class is
    enabled.  With a class enabled it never throws, also when the requested
    length is below the number of enabled classes: it then returns as many
    characters as there are enabled classes, one of each. *)
Theorem generate_policy_validation :
  forall Array_sort, sorts_by_rearranging Array_sort ->
  forall (options : PasswordGeneratorOptions) (r : Rng),
    (class_count options = 0%nat ->
       fst (PasswordGenerator.generate Array_sort options r)
       = Throw PasswordGenerator.no_class_message)
    /\ (class_count options <> 0%nat ->
        exists s, fst (PasswordGenerator.generate Array_sort options r) = Ok s
          /\ represents options s
          /\ List.length s = Nat.max (class_count options) (Z.to_nat (length options))
          /\ ((length options < Z.of_nat (class_count options))%Z ->
              List.length s = class_count options)).
Proof.
  intros Array_sort Hsort options r. split.
  - intro H0. now rewrite generate_no_class.
  - intro Hc. destruct (@generate_with_class Array_sort Hsort options r Hc) as (s & E & Hlen & Hrep & _).
    exists s. split; [exact E|]. split; [exact Hrep|]. split; [exact Hlen|]. intro Hshort. lia.
Qed.

Lemma generate_policy_validation_witness :
  sorts_by_rearranging PasswordGenerator.insertion_sort
  /\ (exists s, fst (PasswordGenerator.generate PasswordGenerator.insertion_sort
                       policy_short sample_rng) = Ok s
        /\ represents policy_short s
        /\ List.length s = 3%nat).
Proof.
  split; [exact insertion_sort_rearranges|].
  destruct (@generate_policy_validation _ insertion_sort_rearranges policy_short sample_rng)
    as [_ H].
  destruct H as (s & E & Hrep & Hlen & _); [vm_compute; discriminate|].
  exists s. split; [exact E|]. split; [exact Hrep|]. exact Hlen.
Defined.

(** C4 as stated fails: the policy {length: 2, uppercase, lowercase,
    numbers} is answered with a password of three characters, not with an
    error. *)
Lemma generate_short_length_no_error :
  fst (PasswordGenerator.generate PasswordGenerator.insertion_sort
         policy_short sample_rng) = Ok (lit "A6w").
Proof. vm_compute. reflexivity. Qed.

(** C5: under the policy {length: 16, uppercase, lowercase, numbers, symbols}
    every draw of the random source, and every engine whose sort rearranges,
    gives a string of exactly 16 characters with an uppercase letter, a
    lowercase letter, a digit and a symbol among them. *)
Theorem generate_guarantees_16 :
  forall Array_sort, sorts_by_rearranging Array_sort ->
  forall r : Rng,
    exists s, fst (PasswordGenerator.generate Array_sort policy16 r) = Ok s
      /\ List.length s = 16%nat
      /\ contains PasswordGenerator.UPPERCASE s
      /\ contains PasswordGenerator.LOWERCASE s
      /\ contains PasswordGenerator.NUMBERS s
      /\ contains PasswordGenerator.SYMBOLS s.
Proof.
  intros Array_sort Hsort r.
  destruct (@generate_with_class Array_sort Hsort policy16 r) as (s & E & Hlen & Hrep & _).
  { cbn. discriminate. }
  destruct Hrep as (Hu & Hl & Hn & Hs).
  exists s. repeat split; auto.
Qed.

Lemma generate_guarantees_16_witness :
  sorts_by_rearranging PasswordGenerator.insertion_sort
  /\ (exists s, fst (PasswordGenerator.generate PasswordGenerator.insertion_sort
                       policy16 sample_rng) = Ok s
        /\ List.length s = 16%nat
        /\ contains PasswordGenerator.UPPERCASE s
        /\ contains PasswordGenerator.LOWERCASE s
        /\ contains PasswordGenerator.NUMBERS s
        /\ contains PasswordGenerator.SYMBOLS s).
Proof.
  split; [exact insertion_sort_rearranges|].
  exact (@generate_guarantees_16 _ insertion_sort_rearranges sample_rng).
Defined.

(** ** Password reset by recovery key *)

Module ResetFacts.
Import Server ResetSpec.

Lemma updateUserPassword_rows (rows : list User.t) (id password : jsstring) :
  Forall2 same_but_password rows
    (map (fun u => if str_eqb (User.id u) id then User.set_password u password else u)
         rows).
Proof.
  induction rows as [|u rows IH]; cbn; constructor; [|exact IH].
  destruct (str_eqb (User.id u) id); unfold same_but_password; cbn; auto.
Qed.

Lemma updateUserPassword_other (db : Database) (id password : jsstring) (u : User.t) :
  In u (users db) -> User.id u <> id ->
  In u (users (updateUserPassword db id password)).
Proof.
  intros Hin Hid. cbn. apply in_map_iff. exists u. split; [|assumption].
  unfold str_eqb. destruct (list_eq_dec N.eq_dec (User.id u) id); congruence.
Qed.

Lemma updateUserPassword_target (db : Database) (id password : jsstring) (u' : User.t) :
  In u' (users (updateUserPassword db id password)) -> User.id u' = id ->
  User.password u' = password.
Proof.
  cbn. intros Hin Hid. apply in_map_iff in Hin. destruct Hin as (u & Eu & _).
  unfold str_eqb in Eu.
  destruct (list_eq_dec N.eq_dec (User.id u) id) as [E|E]; subst u'.
  - reflexivity.
  - contradiction.
Qed.

End ResetFacts.

Import ResetSpec ResetFacts.

(** C7: a password reset that succeeds leaves every credential record as it
    was, and changes no field of any account row but the password hash:
    identifiers, usernames, recovery verifiers and creation times stay, and a
    row with another identifier than the recovered account's stays whole.
    The rows of the recovered account carry the hash of the new password. *)
Theorem reset_password_frame :
  forall (Other : Type) (prepareValue : Other -> result (option jsstring))
         (compareRecoveryKeys : BodyValue Other -> jsstring -> result bool)
         (hashPassword : list byte -> BodyValue Other -> result jsstring)
         (salt : list byte) (db db' : Database) (req : ResetRequest Other)
         (resp : Response),
    Server.reset_password prepareValue compareRecoveryKeys hashPassword salt db req
      = (db', resp) ->
    status resp = 200%N ->
    credentials db' = credentials db
    /\ Forall2 same_but_password (users db) (users db')
    /\ exists user hashedPassword,
         Server.getUserByUsername prepareValue db (req_username req) = Ok (Some user)
         /\ hashPassword salt (req_newPassword req) = Ok hashedPassword
         /\ (forall u, In u (users db) -> User.id u <> User.id user -> In u (users db'))
         /\ (forall u', In u' (users db') -> User.id u' = User.id user ->
                        User.password u' = hashedPassword).
Proof.
  intros Other prepareValue compareRecoveryKeys hashPassword salt db db' req resp
         E Hstatus.
  unfold Server.reset_password, Server.verifyRecoveryKey in E.
  destruct (Server.getUserByUsername prepareValue db (req_username req))
    as [[user|]|e] eqn:Euser.
  - destruct (compareRecoveryKeys (req_recoveryKey req) (User.recoveryKey user))
      as [[|]|e].
    + destruct (hashPassword salt (req_newPassword req)) as [hashed|e] eqn:Ehash.
      * injection E as <- <-. split; [reflexivity|]. split.
        -- apply updateUserPassword_rows.
        -- exists user, hashed. split; [reflexivity|]. split; [reflexivity|]. split.
           ++ intros u Hin Hid. now apply updateUserPassword_other.
           ++ intros u' Hin Hid.
              exact (@updateUserPassword_target db (User.id user) hashed u' Hin Hid).
      * injection E as <- <-. discriminate Hstatus.
    + injection E as <- <-. discriminate Hstatus.
    + injection E as <- <-. discriminate Hstatus.
  - injection E as <- <-. discriminate Hstatus.
  - injection E as <- <-. discriminate Hstatus.
Qed.

Lemma reset_password_frame_witness :
  Server.reset_password sample_prepare sample_compare sample_hash [x2a] sample_db
    good_reset
  = (Server.updateUserPassword sample_db (lit "u-1") (lit "2a.NewSecret456!"),
     Server.reset_done)
  /\ credentials (Server.updateUserPassword sample_db (lit "u-1") (lit "2a.NewSecret456!"))
     = credentials sample_db
  /\ Forall2 same_but_password (users sample_db)
       (users (Server.updateUserPassword sample_db (lit "u-1") (lit "2a.NewSecret456!"))).
Proof.
  assert (E : Server.reset_password sample_prepare sample_compare sample_hash [x2a]
                sample_db good_reset
              = (Server.updateUserPassword sample_db (lit "u-1") (lit "2a.NewSecret456!"),
                 Server.reset_done)) by (vm_compute; reflexivity).
  destruct (@reset_password_frame _ sample_prepare sample_compare sample_hash [x2a]
              sample_db _ good_reset _ E eq_refl) as (Hc & Hu & _).
  split; [exact E|]. split; [exact Hc | exact Hu].
Defined.




(** ** Key derivation *)

Module KeyFacts.
Import CryptoJS Hashers.

Lemma Hex_stringify_length (bs : bytes) :
  List.length (Hex_stringify bs) = (2 * List.length bs)%nat.
Proof.
  unfold Hex_stringify. induction bs as [|b bs IH]; cbn [flat_map List.length app].
  - reflexivity.
  - rewrite IH. lia.
Qed.

Lemma SHA256_round_length W st i :
  List.length (SHA256_round W st i) = List.length st.
Proof.
  unfold SHA256_round.
  repeat (destruct st as [|? st]; try reflexivity).
Qed.

Lemma SHA256_block_length H blk :
  List.length (SHA256_block H blk) = List.length H.
Proof.
  unfold SHA256_block. rewrite length_map, length_combine.
  assert (E : forall l st, List.length (fold_left
               (SHA256_round (fold_left SHA256_schedule_step (seq 16 48)
                                (map be_word (chunks 4 blk)))) l st)
             = List.length st).
  { induction l as [|i l IH]; intro st; cbn [fold_left]; [reflexivity|].
    rewrite IH. apply SHA256_round_length. }
  rewrite E. apply Nat.min_id.
Qed.

Lemma flat_map_word_bytes_length ws :
  List.length (flat_map word_bytes ws) = (4 * List.length ws)%nat.
Proof.
  induction ws as [|w ws IH]; cbn [flat_map List.length app]; [reflexivity|].
  unfold word_bytes at 1. cbn [List.length app]. rewrite IH. lia.
Qed.

(** A SHA256 digest has 32 bytes. *)
Lemma SHA256_length (msg : bytes) : List.length (SHA256 msg) = 32%nat.
Proof.
  unfold SHA256. rewrite flat_map_word_bytes_length.
  assert (E : forall blocks H, List.length (fold_left SHA256_block blocks H)
                               = List.length H).
  { induction blocks as [|b blocks IH]; intro H; cbn [fold_left]; [reflexivity|].
    rewrite IH. apply SHA256_block_length. }
  rewrite E. reflexivity.
Qed.

End KeyFacts.

(** C9, as the code has it: [generateMasterKey] checks nothing about its
    arguments.  Whenever the concatenation of username and password can be
    encoded as UTF-8 - the empty username and the empty password included -
    it returns a key, the 64 hexadecimal digits of the SHA256 digest. *)
Theorem generateMasterKey_accepts :
  forall (username password : jsstring) (message : CryptoJS.bytes),
    CryptoJS.Utf8_parse (username ++ password) = Ok message ->
    PasswordCrypto.generateMasterKey username password
    = Ok (CryptoJS.Hex_stringify (Hashers.SHA256 message))
    /\ List.length (CryptoJS.Hex_stringify (Hashers.SHA256 message)) = 64%nat.
Proof.
  intros username password message E.
  unfold PasswordCrypto.generateMasterKey. rewrite E. split; [reflexivity|].
  rewrite KeyFacts.Hex_stringify_length, KeyFacts.SHA256_length. reflexivity.
Qed.

Lemma generateMasterKey_accepts_witness :
  CryptoJS.Utf8_parse ([] ++ []) = Ok []
  /\ PasswordCrypto.generateMasterKey [] []
     = Ok (CryptoJS.Hex_stringify (Hashers.SHA256 [])).
Proof.
  split; [reflexivity|].
  exact (proj1 (@generateMasterKey_accepts [] [] [] eq_refl)).
Defined.

(** C9 as stated fails: the empty username with the empty password is not
    rejected, it gives the SHA256 digest of the empty message as key; and the
    credential form, for a user object without password, derives the key of
    ("alice", ""). *)
Lemma generateMasterKey_empty_inputs :
  PasswordCrypto.generateMasterKey [] []
  = Ok (lit "e3b0c44298fc1c149afbf4c8996fb92427ae41e4649b934ca495991b7852b855")
  /\ CredentialModal.masterKey (lit "alice") None
     = Ok (lit "2bd806c97f0e00af1a1fc3328fa763a9269723c8db8fac4f93af71db186d6e90").
Proof. compute_each. Qed.

(** C10: the key depends on username and password through their
    concatenation only, so two credentials with the same concatenation have
    the same key: ("ab", "c") and ("a", "bc") differ and share one. *)
Theorem generateMasterKey_concatenation :
  forall u1 p1 u2 p2 : jsstring,
    u1 ++ p1 = u2 ++ p2 ->
    PasswordCrypto.generateMasterKey u1 p1 = PasswordCrypto.generateMasterKey u2 p2
    /\ (exists key,
          PasswordCrypto.generateMasterKey (lit "ab") (lit "c") = Ok key
          /\ PasswordCrypto.generateMasterKey (lit "a") (lit "bc") = Ok key
          /\ str_eqb (lit "ab") (lit "a") = false).
Proof.
  intros u1 p1 u2 p2 E. split.
  - unfold PasswordCrypto.generateMasterKey. now rewrite E.
  - eexists. compute_each.
Qed.

Lemma generateMasterKey_concatenation_witness :
  lit "ab" ++ lit "c" = lit "a" ++ lit "bc"
  /\ PasswordCrypto.generateMasterKey (lit "ab") (lit "c")
     = PasswordCrypto.generateMasterKey (lit "a") (lit "bc").
Proof.
  split; [reflexivity|].
  exact (proj1 (@generateMasterKey_concatenation (lit "ab") (lit "c") (lit "a") (lit "bc")
                  eq_refl)).
Defined.

(** ** The cipher *)


Module ByteFacts.
Import CryptoJS.

Lemma to_N_byte_of_N (n : N) : (n < 256)%N -> Byte.to_N (byte_of_N n) = n.
Proof.
  intro H. unfold byte_of_N. rewrite N.mod_small by assumption.
  destruct (Byte.of_N n) as [b|] eqn:E.
  - now apply Byte.to_of_N.
  - apply Byte.of_N_None_iff in E. lia.
Qed.

Lemma byte_of_N_to_N (b : byte) : byte_of_N (Byte.to_N b) = b.
Proof.
  unfold byte_of_N. pose proof (Byte.to_N_bounded b).
  rewrite N.mod_small by lia. now rewrite Byte.of_to_N.
Qed.

Lemma byte_of_N_mod (n : N) : byte_of_N (n mod 256) = byte_of_N n.
Proof. unfold byte_of_N. now rewrite N.Div0.mod_mod. Qed.

Lemma to_bits_bxor a b :
  Byte.to_bits (bxor a b) = xor8 (Byte.to_bits a) (Byte.to_bits b).
Proof. unfold bxor. apply Byte.to_bits_of_bits. Qed.

Lemma to_bits_inj a b : Byte.to_bits a = Byte.to_bits b -> a = b.
Proof.
  intro H. rewrite <- (Byte.of_bits_to_bits a), <- (Byte.of_bits_to_bits b).
  now rewrite H.
Qed.

End ByteFacts.

Module AESFacts.
Import CryptoJS AES ByteFacts.

Lemma to_bits_xtime a : Byte.to_bits (xtime a) = xtime8 (Byte.to_bits a).
Proof. unfold xtime. apply Byte.to_bits_of_bits. Qed.

Lemma bxor_cancel a k : bxor (bxor a k) k = a.
Proof.
  apply to_bits_inj. rewrite !to_bits_bxor.
  bits_of a. bits_of k. cbv [xor8].
  split_bits; ring.
Qed.

Lemma wxor_cancel w k : wxor (wxor w k) k = w.
Proof.
  destruct w, k. cbv [wxor]. now rewrite !bxor_cancel.
Qed.

Lemma xorBlock_cancel s k : xorBlock (xorBlock s k) k = s.
Proof.
  destruct s, k. cbv [xorBlock]. now rewrite !wxor_cancel.
Qed.

Lemma inv_sub_sub a : inv_sub (sub a) = a.
Proof. destruct a; reflexivity. Qed.

Lemma InvSubBytes_SubBytes s : InvSubBytes (SubBytes s) = s.
Proof.
  destruct s as [[] [] [] []]. cbv [InvSubBytes SubBytes bmap wmap].
  now rewrite !inv_sub_sub.
Qed.

Lemma InvShiftRows_ShiftRows s : InvShiftRows (ShiftRows s) = s.
Proof. destruct s as [[] [] [] []]. reflexivity. Qed.

Lemma InvMixColumn_MixColumn w : InvMixColumn (MixColumn w) = w.
Proof.
  destruct w as [a b c d]. cbv [InvMixColumn MixColumn].
  f_equal; apply to_bits_inj;
    cbv [xor4 mul14 mul13 mul11 mul9 mul8 mul4 mul3 mul2];
    repeat (rewrite to_bits_bxor || rewrite to_bits_xtime).
  all: bits_of a; bits_of b; bits_of c; bits_of d; cbv [xor8 xtime8].
  all: split_bits; ring.
Qed.

Lemma InvMixColumns_MixColumns s : InvMixColumns (MixColumns s) = s.
Proof.
  destruct s. cbv [InvMixColumns MixColumns bmap]. now rewrite !InvMixColumn_MixColumn.
Qed.

Lemma inv_round_round s k : inv_round (round s k) k = s.
Proof.
  unfold inv_round, round.
  now rewrite xorBlock_cancel, InvMixColumns_MixColumns,
    InvShiftRows_ShiftRows, InvSubBytes_SubBytes.
Qed.

Lemma inv_final_round_final_round s k : inv_final_round (final_round s k) k = s.
Proof.
  unfold inv_final_round, final_round.
  now rewrite xorBlock_cancel, InvShiftRows_ShiftRows, InvSubBytes_SubBytes.
Qed.

Lemma inv_rounds_rounds (middle : list Block) (s : Block) :
  fold_right (fun k s => inv_round s k) (fold_left round middle s) middle = s.
Proof.
  revert s. induction middle as [|k middle IH]; intro s; cbn.
  - reflexivity.
  - rewrite IH. apply inv_round_round.
Qed.

(** Decryption undoes encryption, under any key schedule. *)
Lemma decryptBlock_encryptBlock (ks : list Block) (s : Block) :
  decryptBlock ks (encryptBlock ks s) = s.
Proof.
  unfold decryptBlock, encryptBlock.
  destruct (split_schedule ks) as [[k0 middle] kn].
  now rewrite inv_final_round_final_round, inv_rounds_rounds, xorBlock_cancel.
Qed.

Lemma block_of_bytes_of_block (s : Block) : block_of_bytes (bytes_of_block s) = s.
Proof. destruct s as [[] [] [] []]. reflexivity. Qed.

Lemma bytes_of_block_length (s : Block) : List.length (bytes_of_block s) = 16%nat.
Proof. destruct s as [[] [] [] []]. reflexivity. Qed.

End AESFacts.

Module CipherFacts.
Import CryptoJS AES CipherCore CipherSpec ByteFacts AESFacts.

Lemma firstn_exact {A} (a b : list A) n : List.length a = n -> firstn n (a ++ b) = a.
Proof.
  intros <-. rewrite firstn_app, Nat.sub_diag, firstn_all. cbn. apply app_nil_r.
Qed.

Lemma skipn_exact {A} (a b : list A) n : List.length a = n -> skipn n (a ++ b) = b.
Proof.
  intros <-. rewrite skipn_app, Nat.sub_diag, skipn_all. reflexivity.
Qed.

Lemma chunks_fuel_nil {A} (fuel n : nat) : @chunks_fuel A fuel n [] = [].
Proof. destruct fuel; reflexivity. Qed.

Lemma chunks_fuel_enough {A} (n : nat) :
  (0 < n)%nat ->
  forall (f1 f2 : nat) (l : list A),
    (List.length l <= f1)%nat -> (List.length l <= f2)%nat ->
    chunks_fuel f1 n l = chunks_fuel f2 n l.
Proof.
  intro Hn. induction f1 as [|f1 IH]; intros f2 l H1 H2.
  - destruct l; [|cbn in H1; lia]. now rewrite !chunks_fuel_nil.
  - destruct l as [|x l]; [now rewrite !chunks_fuel_nil|].
    destruct f2 as [|f2]; [cbn in H2; lia|].
    cbn [chunks_fuel]. f_equal.
    apply IH; rewrite length_skipn; cbn [List.length] in *; lia.
Qed.

Lemma chunks_app {A} (n : nat) (a rest : list A) :
  (0 < n)%nat -> List.length a = n -> chunks n (a ++ rest) = a :: chunks n rest.
Proof.
  intros Hn Ha. unfold chunks. rewrite length_app, Ha.
  destruct a as [|x a]; [cbn in Ha; lia|].
  destruct n as [|n]; [lia|].
  cbn [Nat.add chunks_fuel app].
  change (x :: a ++ rest) with ((x :: a) ++ rest).
  rewrite firstn_exact, skipn_exact by assumption.
  f_equal. apply chunks_fuel_enough; lia.
Qed.

Lemma blocks_of_cons (s : Block) (rest : bytes) :
  blocks_of (bytes_of_block s ++ rest) = s :: blocks_of rest.
Proof.
  unfold blocks_of. rewrite chunks_app; [|lia|apply bytes_of_block_length].
  cbn [map]. now rewrite block_of_bytes_of_block.
Qed.

Lemma blocks_of_bytes_of_blocks (cs : list Block) :
  blocks_of (flat_map bytes_of_block cs) = cs.
Proof.
  induction cs as [|c cs IH]; [reflexivity|].
  cbn [flat_map]. now rewrite blocks_of_cons, IH.
Qed.

Lemma bytes_of_blocks_length (cs : list Block) :
  List.length (flat_map bytes_of_block cs) = (16 * List.length cs)%nat.
Proof.
  induction cs as [|c cs IH]; [reflexivity|].
  cbn [flat_map List.length]. rewrite length_app, bytes_of_block_length, IH. lia.
Qed.

(** A buffer of whole blocks is the bytes of its blocks. *)
Lemma bytes_of_blocks_of (k : nat) :
  forall data : bytes,
    List.length data = (16 * k)%nat ->
    flat_map bytes_of_block (blocks_of data) = data.
Proof.
  induction k as [|k IH]; intros data H.
  - destruct data; [reflexivity | cbn in H; lia].
  - do 16 (destruct data as [|? data]; [cbn in H; lia|]).
    match goal with
    | |- context [blocks_of (?x0 :: ?x1 :: ?x2 :: ?x3 :: ?x4 :: ?x5 :: ?x6 :: ?x7 ::
                             ?x8 :: ?x9 :: ?xa :: ?xb :: ?xc :: ?xd :: ?xe :: ?xf :: data)] =>
        change (x0 :: x1 :: x2 :: x3 :: x4 :: x5 :: x6 :: x7 ::
                x8 :: x9 :: xa :: xb :: xc :: xd :: xe :: xf :: data)
          with (bytes_of_block
                  (block (word x0 x1 x2 x3) (word x4 x5 x6 x7)
                         (word x8 x9 xa xb) (word xc xd xe xf)) ++ data)
    end.
    rewrite blocks_of_cons. cbn [flat_map]. rewrite IH; [reflexivity|].
    cbn [List.length] in H. lia.
Qed.

Lemma CBC_decrypt_encrypt (ks : list Block) (blocks : list Block) :
  forall prev, CBC_decrypt ks prev (CBC_encrypt ks prev blocks) = blocks.
Proof.
  induction blocks as [|b blocks IH]; intro prev;
    cbn [CBC_decrypt CBC_encrypt]; [reflexivity|].
  now rewrite decryptBlock_encryptBlock, xorBlock_cancel, IH.
Qed.

Lemma CBC_encrypt_length ks blocks :
  forall prev, List.length (CBC_encrypt ks prev blocks) = List.length blocks.
Proof.
  induction blocks as [|b blocks IH]; intro prev;
    cbn [CBC_encrypt List.length]; [reflexivity|].
  now rewrite IH.
Qed.

(** *** Padding *)

Lemma padding_length_bounds data :
  (1 <= padding_length data <= 16)%nat.
Proof.
  unfold padding_length.
  pose proof (Nat.mod_upper_bound (List.length data) 16). lia.
Qed.

Lemma Pkcs7_pad_length data :
  List.length (Pkcs7_pad data)
  = (16 * (List.length data / 16 + 1))%nat.
Proof.
  unfold Pkcs7_pad. rewrite length_app, repeat_length.
  pose proof (Nat.div_mod_eq (List.length data) 16).
  pose proof (Nat.mod_upper_bound (List.length data) 16). lia.
Qed.

Lemma Pkcs7_unpad_pad data :
  Pkcs7_unpad (Pkcs7_pad data) (Z.of_nat (List.length (Pkcs7_pad data))) = data.
Proof.
  pose proof (Pkcs7_pad_length data) as HL.
  pose proof (padding_length_bounds data) as Hn.
  unfold Pkcs7_unpad.
  set (L := List.length (Pkcs7_pad data)) in *.
  destruct (Z.of_nat L <=? 0)%Z eqn:E; [apply Z.leb_le in E; lia|].
  assert (Eidx : Z.to_nat ((Z.of_nat L - 1) / 4 * 4 + 3)
                 = (List.length data + (padding_length data - 1))%nat).
  { assert (HL' : L = (List.length data + padding_length data)%nat).
    { unfold L, Pkcs7_pad. rewrite length_app, repeat_length. reflexivity. }
    assert (Hq : ((Z.of_nat L - 1) / 4
                  = 4 * (Z.of_nat (List.length data / 16) + 1) - 1)%Z).
    { symmetry. apply Z.div_unique with (r := 3%Z); lia. }
    rewrite Hq. lia. }
  rewrite Eidx. unfold Pkcs7_pad at 1 2. fold (padding_length data).
  rewrite app_nth2_plus, nth_repeat_lt by lia.
  rewrite to_N_byte_of_N by lia.
  replace (Z.to_nat (Z.of_nat L - Z.of_N (N.of_nat (padding_length data))))
    with (List.length data).
  - apply firstn_exact. reflexivity.
  - unfold L, Pkcs7_pad. rewrite length_app, repeat_length.
    fold (padding_length data). lia.
Qed.

(** [finalize] of the decryptor undoes [finalize] of the encryptor. *)
Lemma decryptor_encryptor (key iv message : bytes) :
  decryptor_finalize key iv (encryptor_finalize key iv message) = message.
Proof.
  unfold decryptor_finalize, encryptor_finalize.
  rewrite blocks_of_bytes_of_blocks, CBC_decrypt_encrypt.
  rewrite bytes_of_blocks_length, CBC_encrypt_length.
  rewrite (@bytes_of_blocks_of _ _ (Pkcs7_pad_length message)).
  replace (16 * List.length (blocks_of (Pkcs7_pad message)))%nat
    with (List.length (Pkcs7_pad message)).
  - apply Pkcs7_unpad_pad.
  - rewrite <- bytes_of_blocks_length.
    now rewrite (@bytes_of_blocks_of _ _ (Pkcs7_pad_length message)).
Qed.

End CipherFacts.

Module Base64Facts.
Import CryptoJS CipherSpec ByteFacts.

Lemma N_forall_below (P : N -> bool) (n : nat) :
  forallb P (map N.of_nat (seq 0 n)) = true ->
  forall s, (s < N.of_nat n)%N -> P s = true.
Proof.
  intros H s Hs. rewrite forallb_forall in H. apply H.
  apply in_map_iff. exists (N.to_nat s). split; [apply N2Nat.id|].
  apply in_seq. lia.
Qed.

Lemma reverseMap_charAt s : (s < 64)%N -> reverseMap (charAt s) = s.
Proof.
  intro H. apply N.eqb_eq. revert s H.
  apply (N_forall_below (fun s => reverseMap (charAt s) =? s)%N 64).
  vm_compute. reflexivity.
Qed.

Lemma charAt_not_padding s : (s < 64)%N -> (charAt s =? paddingChar)%N = false.
Proof.
  intro H. apply negb_true_iff. revert s H.
  apply (N_forall_below (fun s => negb (charAt s =? paddingChar)%N) 64).
  vm_compute. reflexivity.
Qed.

(** An "or" of two values whose bits do not meet is their sum. *)
Lemma lor_shiftl_add (x y n : N) :
  (y < 2 ^ n)%N -> N.lor (N.shiftl x n) y = (x * 2 ^ n + y)%N.
Proof.
  intro H.
  assert (Hland : N.land (N.shiftl x n) y = 0%N).
  { apply N.bits_inj. intro k. rewrite N.land_spec, N.bits_0.
    destruct (N.lt_ge_cases k n) as [Hk|Hk].
    - now rewrite N.shiftl_spec_low.
    - rewrite <- (N.mod_small y (2 ^ n)) by assumption.
      rewrite N.mod_pow2_bits_high by assumption. apply andb_false_r. }
  rewrite <- N.lxor_lor, <- N.add_nocarry_lxor by assumption.
  now rewrite N.shiftl_mul_pow2.
Qed.

Lemma to_N_lt (b : byte) : (Byte.to_N b < 256)%N.
Proof. pose proof (Byte.to_N_bounded b). lia. Qed.

Lemma triplet_value b1 b2 b3 :
  triplet b1 b2 b3
  = ((Byte.to_N b1 * 256 + Byte.to_N b2) * 256 + Byte.to_N b3)%N.
Proof.
  unfold triplet.
  pose proof (to_N_lt b1). pose proof (to_N_lt b2). pose proof (to_N_lt b3).
  rewrite (N.shiftl_mul_pow2 (Byte.to_N b2) 8).
  rewrite lor_shiftl_add by (change (2 ^ 16)%N with 65536%N; change (2 ^ 8)%N with 256%N; lia).
  replace (Byte.to_N b1 * 2 ^ 16 + Byte.to_N b2 * 2 ^ 8)%N
    with (N.shiftl (Byte.to_N b1 * 256 + Byte.to_N b2) 8)
    by (rewrite N.shiftl_mul_pow2; change (2 ^ 16)%N with 65536%N;
        change (2 ^ 8)%N with 256%N; lia).
  rewrite lor_shiftl_add by (change (2 ^ 8)%N with 256%N; lia).
  reflexivity.
Qed.

Lemma sextet_value t j : sextet t j = (t / 2 ^ (6 * (3 - j)) mod 64)%N.
Proof.
  unfold sextet. change 63%N with (N.ones 6).
  now rewrite N.land_ones, N.shiftr_div_pow2.
Qed.

Lemma sextet_lt t j : (sextet t j < 64)%N.
Proof. rewrite sextet_value. apply N.mod_lt. discriminate. Qed.

Lemma parse_byte_1 b1 b2 b3 :
  parse_byte 1 (sextet (triplet b1 b2 b3) 0) (sextet (triplet b1 b2 b3) 1) = b1.
Proof.
  unfold parse_byte. rewrite !sextet_value, triplet_value.
  rewrite N.shiftr_div_pow2.
  pose proof (to_N_lt b1). pose proof (to_N_lt b2). pose proof (to_N_lt b3).
  change (6 * (3 - 0))%N with 18%N. change (6 * (3 - 1))%N with 12%N.
  change (1 * 2)%N with 2%N. change (6 - 2)%N with 4%N.
  change (2 ^ 18)%N with 262144%N. change (2 ^ 12)%N with 4096%N.
  change (2 ^ 4)%N with 16%N.
  rewrite lor_shiftl_add by (change (2 ^ 2)%N with 4%N; divmod_lia).
  change (2 ^ 2)%N with 4%N.
  transitivity (byte_of_N (Byte.to_N b1)); [|apply byte_of_N_to_N].
  f_equal. divmod_lia.
Qed.

Lemma parse_byte_2 b1 b2 b3 :
  parse_byte 2 (sextet (triplet b1 b2 b3) 1) (sextet (triplet b1 b2 b3) 2) = b2.
Proof.
  unfold parse_byte. rewrite !sextet_value, triplet_value.
  rewrite N.shiftr_div_pow2.
  pose proof (to_N_lt b1). pose proof (to_N_lt b2). pose proof (to_N_lt b3).
  change (6 * (3 - 1))%N with 12%N. change (6 * (3 - 2))%N with 6%N.
  change (2 * 2)%N with 4%N. change (6 - 4)%N with 2%N.
  change (2 ^ 12)%N with 4096%N. change (2 ^ 6)%N with 64%N.
  change (2 ^ 2)%N with 4%N.
  rewrite lor_shiftl_add by (change (2 ^ 4)%N with 16%N; divmod_lia).
  change (2 ^ 4)%N with 16%N.
  transitivity (byte_of_N (Byte.to_N b2)); [|apply byte_of_N_to_N].
  rewrite <- byte_of_N_mod. f_equal. divmod_lia.
Qed.

Lemma parse_byte_3 b1 b2 b3 :
  parse_byte 3 (sextet (triplet b1 b2 b3) 2) (sextet (triplet b1 b2 b3) 3) = b3.
Proof.
  unfold parse_byte. rewrite !sextet_value, triplet_value.
  rewrite N.shiftr_div_pow2.
  pose proof (to_N_lt b1). pose proof (to_N_lt b2). pose proof (to_N_lt b3).
  change (6 * (3 - 2))%N with 6%N. change (6 * (3 - 3))%N with 0%N.
  change (3 * 2)%N with 6%N. change (6 - 6)%N with 0%N.
  change (2 ^ 6)%N with 64%N. change (2 ^ 0)%N with 1%N.
  rewrite lor_shiftl_add by (change (2 ^ 6)%N with 64%N; divmod_lia).
  change (2 ^ 6)%N with 64%N.
  transitivity (byte_of_N (Byte.to_N b3)); [|apply byte_of_N_to_N].
  rewrite <- byte_of_N_mod. f_equal. divmod_lia.
Qed.

(** The characters of a triplet, by their sextets. *)
Lemma triplet_chars_eq n b1 b2 b3 :
  triplet_chars n b1 b2 b3
  = let char j := charAt (sextet (triplet b1 b2 b3) j) in
    match n with
    | 1%nat => [char 0; char 1; paddingChar; paddingChar]
    | 2%nat => [char 0; char 1; char 2; paddingChar]
    | _ => [char 0; char 1; char 2; char 3]
    end%N.
Proof. reflexivity. Qed.

Lemma before_padding_char s rest :
  (s < 64)%N -> before_padding (charAt s :: rest) = charAt s :: before_padding rest.
Proof. intro H. cbn [before_padding]. now rewrite charAt_not_padding. Qed.

Lemma before_padding_padding rest : before_padding (paddingChar :: rest) = [].
Proof. cbn [before_padding]. now rewrite N.eqb_refl. Qed.

Lemma parseLoop_0 prev c rest : parseLoop 0 prev (c :: rest) = parseLoop 1 c rest.
Proof. reflexivity. Qed.

Lemma parseLoop_1 prev c rest :
  parseLoop 1 prev (c :: rest)
  = parse_byte 1 (reverseMap prev) (reverseMap c) :: parseLoop 2 c rest.
Proof. reflexivity. Qed.

Lemma parseLoop_2 prev c rest :
  parseLoop 2 prev (c :: rest)
  = parse_byte 2 (reverseMap prev) (reverseMap c) :: parseLoop 3 c rest.
Proof. reflexivity. Qed.

Lemma parseLoop_3 prev c rest :
  parseLoop 3 prev (c :: rest)
  = parse_byte 3 (reverseMap prev) (reverseMap c) :: parseLoop 0 c rest.
Proof. reflexivity. Qed.

(** Induction on a list by groups of three elements. *)
Lemma list_ind_by_3 {A} (P : list A -> Prop) :
  P [] -> (forall a, P [a]) -> (forall a b, P [a; b]) ->
  (forall a b c rest, P rest -> P (a :: b :: c :: rest)) ->
  forall l, P l.
Proof.
  intros H0 H1 H2 H3. fix IH 1.
  intros [|a [|b [|c rest]]]; [exact H0 | apply H1 | apply H2 | apply H3, IH].
Qed.

Lemma parseLoop_stringify (bs : bytes) :
  forall prev : code_unit,
    parseLoop 0 prev (before_padding (Base64_stringify bs)) = bs.
Proof.
  induction bs as [|b1|b1 b2|b1 b2 b3 rest IH] using list_ind_by_3; intro prev.
  - reflexivity.
  - cbn [Base64_stringify]. rewrite triplet_chars_eq. cbv beta iota zeta.
    rewrite !before_padding_char by apply sextet_lt.
    rewrite before_padding_padding.
    rewrite parseLoop_0, parseLoop_1, !reverseMap_charAt by apply sextet_lt.
    now rewrite parse_byte_1.
  - cbn [Base64_stringify]. rewrite triplet_chars_eq. cbv beta iota zeta.
    rewrite !before_padding_char by apply sextet_lt.
    rewrite before_padding_padding.
    rewrite parseLoop_0, parseLoop_1, parseLoop_2, !reverseMap_charAt
      by apply sextet_lt.
    now rewrite parse_byte_1, parse_byte_2.
  - cbn [Base64_stringify]. rewrite triplet_chars_eq. cbv beta iota zeta.
    cbn [app].
    rewrite !before_padding_char by apply sextet_lt.
    rewrite parseLoop_0, parseLoop_1, parseLoop_2, parseLoop_3, !reverseMap_charAt
      by apply sextet_lt.
    now rewrite parse_byte_1, parse_byte_2, parse_byte_3, IH.
Qed.

(** [Base64.parse] reads back what [Base64.stringify] wrote. *)
Lemma Base64_parse_stringify (bs : bytes) : Base64_parse (Base64_stringify bs) = bs.
Proof. apply parseLoop_stringify. Qed.

End Base64Facts.

Module Utf8Facts.
Import CryptoJS CipherSpec ByteFacts.

Lemma Utf8_stringify_cons (b0 : byte) (r0 : bytes) :
  Utf8_stringify (b0 :: r0)
  = let n0 := Byte.to_N b0 in
    if (n0 <? 128)%N then prepend n0 (Utf8_stringify r0)
    else if in_range 194 223 n0 then
      match r0 with
      | b1 :: r1 =>
          if is_cont b1 then
            prepend ((n0 - 192) * 64 + cont b1)%N (Utf8_stringify r1)
          else Throw malformed_utf8
      | _ => Throw malformed_utf8
      end
    else if in_range 224 239 n0 then
      match r0 with
      | b1 :: b2 :: r2 =>
          let cp := ((n0 - 224) * 4096 + cont b1 * 64 + cont b2)%N in
          if is_cont b1 && is_cont b2 && (2048 <=? cp)%N
             && negb (in_range 55296 57343 cp) then
            prepend cp (Utf8_stringify r2)
          else Throw malformed_utf8
      | _ => Throw malformed_utf8
      end
    else if in_range 240 244 n0 then
      match r0 with
      | b1 :: b2 :: b3 :: r3 =>
          let cp := ((n0 - 240) * 262144 + cont b1 * 4096 + cont b2 * 64 + cont b3)%N in
          if is_cont b1 && is_cont b2 && is_cont b3
             && (65536 <=? cp)%N && (cp <? 1114112)%N then
            prepend cp (Utf8_stringify r3)
          else Throw malformed_utf8
      | _ => Throw malformed_utf8
      end
    else Throw malformed_utf8.
Proof. reflexivity. Qed.

Lemma Utf8_stringify_encode (cp : N) (rest : bytes) :
  scalar cp ->
  Utf8_stringify (utf8_encode cp ++ rest) = prepend cp (Utf8_stringify rest).
Proof.
  intro Hcp. unfold scalar in Hcp. unfold utf8_encode.
  destruct (N.ltb_spec cp 128) as [H1|H1];
    [|destruct (N.ltb_spec cp 2048) as [H2|H2];
      [|destruct (N.ltb_spec cp 65536) as [H3|H3]]];
    cbn [app]; rewrite Utf8_stringify_cons; cbv beta iota zeta;
    unfold is_cont, cont, in_range;
    rewrite !to_N_byte_of_N by divmod_lia;
    decide_comparisons; cbv beta iota delta [andb negb].
  all: try (f_equal; divmod_lia).
  replace ((224 + cp / 4096 - 224) * 4096 + (128 + cp / 64 mod 64 - 128) * 64
           + (128 + cp mod 64 - 128))%N with cp by divmod_lia.
  destruct Hcp as [Hcp|Hcp]; decide_comparisons; reflexivity.
Qed.

Lemma utf16_encode_pair (c d : N) :
  is_lead c = true -> is_trail d = true ->
  utf16_encode ((c - 55296) * 1024 + (d - 56320) + 65536) = [c; d]
  /\ scalar ((c - 55296) * 1024 + (d - 56320) + 65536).
Proof.
  unfold is_lead, is_trail, in_range, utf16_encode, scalar.
  intros Hc Hd. apply andb_prop in Hc, Hd.
  destruct Hc as [Hc1 Hc2], Hd as [Hd1 Hd2].
  apply N.leb_le in Hc1, Hc2, Hd1, Hd2.
  split; [|lia].
  decide_comparisons. f_equal; [|f_equal]; divmod_lia.
Qed.

Lemma stringify_parse_upto (n : nat) :
  forall (str : jsstring) (bs : bytes),
    (List.length str <= n)%nat ->
    Utf8_parse str = Ok bs -> Utf8_stringify bs = Ok str.
Proof.
  induction n as [|n IH]; intros str bs Hlen H.
  - destruct str; [|cbn in Hlen; lia]. cbn in H. injection H as <-. reflexivity.
  - destruct str as [|c rest]; [cbn in H; injection H as <-; reflexivity|].
    cbn [Utf8_parse] in H. cbn [List.length] in Hlen.
    destruct (is_lead c) eqn:Hlead.
    + destruct rest as [|d rest']; [discriminate|].
      destruct (is_trail d) eqn:Htrail; [|discriminate].
      destruct (Utf8_parse rest') as [bs'|] eqn:Hrest; [|discriminate].
      injection H as <-.
      destruct (utf16_encode_pair c d Hlead Htrail) as [Epair Hscalar].
      rewrite Utf8_stringify_encode by assumption.
      rewrite (IH rest' bs') by (cbn [List.length] in Hlen; lia || assumption).
      cbn [prepend]. now rewrite Epair.
    + destruct (is_trail c) eqn:Htrail; [discriminate|].
      destruct (N.ltb_spec c 65536) as [Hbmp|Hbmp]; [|discriminate].
      destruct (Utf8_parse rest) as [bs'|] eqn:Hrest; [|discriminate].
      injection H as <-.
      assert (Hscalar : scalar c).
      { unfold scalar, is_lead, is_trail, in_range in *.
        apply andb_false_iff in Hlead, Htrail.
        rewrite !N.leb_gt in Hlead, Htrail. lia. }
      rewrite Utf8_stringify_encode by assumption.
      rewrite (IH rest bs') by (lia || assumption).
      cbn [prepend]. unfold utf16_encode.
      apply N.ltb_lt in Hbmp. now rewrite Hbmp.
Qed.

(** [Utf8.stringify] reads back what [Utf8.parse] wrote. *)
Lemma Utf8_stringify_parse (str : jsstring) (bs : bytes) :
  Utf8_parse str = Ok bs -> Utf8_stringify bs = Ok str.
Proof. apply (@stringify_parse_upto (List.length str)). lia. Qed.

(** Only the empty string is encoded by no bytes. *)
Lemma Utf8_parse_nil (str : jsstring) : Utf8_parse str = Ok [] -> str = [].
Proof.
  intro H. apply Utf8_stringify_parse in H. cbn in H. now injection H.
Qed.

End Utf8Facts.

Module SealFacts.
Import CryptoJS Hashers CipherCore CipherSpec CipherFacts Base64Facts Utf8Facts.

Lemma random_salt_length (rnd : N * N) : List.length (random_salt rnd) = 8%nat.
Proof. reflexivity. Qed.

Lemma bytes_eqb_refl (a : bytes) : bytes_eqb a a = true.
Proof.
  unfold bytes_eqb. destruct (list_eq_dec Byte.byte_eq_dec a a); congruence.
Qed.

(** [OpenSSL.parse] reads back the salt and the ciphertext that
    [OpenSSL.stringify] wrote. *)
Lemma OpenSSL_parse_stringify (salt ciphertext : bytes) :
  List.length salt = 8%nat ->
  OpenSSL_parse (OpenSSL_stringify salt ciphertext) = (Some salt, ciphertext).
Proof.
  intro Hsalt. unfold OpenSSL_parse, OpenSSL_stringify.
  rewrite Base64_parse_stringify.
  rewrite (@firstn_exact _ Salted__ (salt ++ ciphertext) 8 eq_refl), bytes_eqb_refl.
  rewrite (@skipn_exact _ Salted__ (salt ++ ciphertext) 8 eq_refl).
  rewrite (@firstn_exact _ salt ciphertext 8 Hsalt).
  rewrite app_assoc.
  rewrite (@skipn_exact _ (Salted__ ++ salt) ciphertext 16)
    by (rewrite length_app, Hsalt; reflexivity).
  unfold whole_words. rewrite Hsalt. cbn [Nat.modulo Nat.sub repeat].
  now rewrite app_nil_r.
Qed.

(** The library's decryption gives back the bytes of the message that its
    encryption was given, whatever salts the random source draws. *)
Lemma AES_decrypt_encrypt (rnd rnd' : N * N) (message password : jsstring)
    (msg pw : bytes) :
  Utf8_parse message = Ok msg -> Utf8_parse password = Ok pw ->
  exists sealed,
    AES_encrypt rnd message password = Ok sealed
    /\ AES_decrypt rnd' sealed password = Ok msg.
Proof.
  intros Hmsg Hpw. unfold AES_encrypt, AES_decrypt. rewrite Hpw, Hmsg.
  destruct (OpenSSLKdf pw (random_salt rnd)) as [key iv] eqn:Ekdf.
  eexists. split; [reflexivity|].
  rewrite OpenSSL_parse_stringify by apply random_salt_length.
  cbv beta iota zeta. rewrite Ekdf, decryptor_encryptor. reflexivity.
Qed.

Lemma decrypt_encrypt (rnd rnd' : N * N) (plaintext masterKey : jsstring) :
  well_formed plaintext = true ->
  well_formed masterKey = true ->
  exists sealed,
    PasswordCrypto.encrypt rnd plaintext masterKey = Ok sealed
    /\ PasswordCrypto.decrypt rnd' sealed masterKey = opened plaintext.
Proof.
  unfold well_formed. intros Hp Hk.
  destruct (Utf8_parse plaintext) as [msg|] eqn:Emsg; [|discriminate].
  destruct (Utf8_parse masterKey) as [pw|] eqn:Epw; [|discriminate].
  destruct (AES_decrypt_encrypt rnd rnd' plaintext masterKey Emsg Epw)
    as (sealed & Henc & Hdec).
  exists sealed. unfold PasswordCrypto.encrypt, PasswordCrypto.decrypt.
  rewrite Henc, Hdec, (Utf8_stringify_parse plaintext Emsg).
  split; [reflexivity|]. now destruct plaintext.
Qed.

(** [decrypt] has one error, and no empty answer. *)
Lemma decrypt_outcomes (rnd : N * N) (encryptedPassword masterKey : jsstring) :
  PasswordCrypto.decrypt rnd encryptedPassword masterKey
    = Throw PasswordCrypto.decrypt_failed
  \/ exists (password : jsstring) (decrypted : bytes),
       PasswordCrypto.decrypt rnd encryptedPassword masterKey = Ok password
       /\ password <> []
       /\ AES_decrypt rnd encryptedPassword masterKey = Ok decrypted
       /\ Utf8_stringify decrypted = Ok password.
Proof.
  unfold PasswordCrypto.decrypt.
  destruct (AES_decrypt rnd encryptedPassword masterKey) as [decrypted|e] eqn:Hd;
    [|left; reflexivity].
  destruct (Utf8_stringify decrypted) as [[|c password]|e] eqn:Hs;
    [left; reflexivity | | left; reflexivity].
  right. exists (c :: password), decrypted.
  split; [reflexivity|]. split; [discriminate|]. split; [reflexivity | exact Hs].
Qed.

(** [decrypt] reads its text through [Base64.parse] only. *)
Lemma decrypt_reads_decoding (rnd : N * N) (encryptedPassword masterKey : jsstring) :
  PasswordCrypto.decrypt rnd encryptedPassword masterKey
  = PasswordCrypto.decrypt rnd
      (Base64_stringify (Base64_parse encryptedPassword)) masterKey.
Proof.
  unfold PasswordCrypto.decrypt, AES_decrypt, OpenSSL_parse.
  now rewrite Base64_parse_stringify.
Qed.

(** Hexadecimal digits are encodable. *)
Lemma Utf8_parse_below_surrogates (s : jsstring) :
  Forall (fun c => (c < 55296)%N) s -> well_formed s = true.
Proof.
  unfold well_formed. induction 1 as [|c s Hc _ IH]; [reflexivity|].
  cbn [Utf8_parse]. unfold is_lead, is_trail, in_range.
  replace (55296 <=? c)%N with false by (symmetry; apply N.leb_gt; lia).
  replace (56320 <=? c)%N with false by (symmetry; apply N.leb_gt; lia).
  cbn [andb].
  replace (c <? 65536)%N with true by (symmetry; apply N.ltb_lt; lia).
  now destruct (Utf8_parse s).
Qed.

Lemma Hex_stringify_digits (bs : bytes) :
  Forall (fun c => (c < 55296)%N) (Hex_stringify bs).
Proof.
  unfold Hex_stringify. induction bs as [|b bs IH]; cbn [flat_map app].
  - constructor.
  - pose proof (Byte.to_N_bounded b).
    assert (Hd : forall n, (n < 16)%N -> (hex_digit n < 55296)%N).
    { intros n Hn. unfold hex_digit. destruct (n <? 10)%N; lia. }
    constructor; [apply Hd; divmod_lia|].
    constructor; [apply Hd; divmod_lia|]. exact IH.
Qed.

(** Every derived key is a string [encrypt] and [decrypt] accept. *)
Lemma derived_key_encodable (username password key : jsstring) :
  PasswordCrypto.generateMasterKey username password = Ok key ->
  well_formed key = true.
Proof.
  unfold PasswordCrypto.generateMasterKey.
  destruct (Utf8_parse (username ++ password)); [|discriminate].
  intro H. injection H as <-.
  apply Utf8_parse_below_surrogates, Hex_stringify_digits.
Qed.

Lemma sample_keys :
  PasswordCrypto.generateMasterKey (lit "alice") (lit "Secret123!") = Ok alice_key
  /\ PasswordCrypto.generateMasterKey (lit "alice") (lit "Secret5!") = Ok other_key
  /\ PasswordCrypto.generateMasterKey (lit "alice") (lit "Secret124!") = Ok another_key.
Proof. compute_each. Qed.

End SealFacts.

Import CipherSpec SealFacts.

(** C1, as the code has it: for every derived key, every plaintext that is a
    well-formed string and every salt the random source draws, opening the
    sealed plaintext under the same key returns the plaintext when it is not
    empty; the sealed empty plaintext does not open, it fails with "Failed to
    decrypt password". *)
Theorem decrypt_encrypt_roundtrip :
  forall (rnd rnd' : N * N) (username accountPassword masterKey plaintext : jsstring),
    PasswordCrypto.generateMasterKey username accountPassword = Ok masterKey ->
    well_formed plaintext = true ->
    exists sealed,
      PasswordCrypto.encrypt rnd plaintext masterKey = Ok sealed
      /\ PasswordCrypto.decrypt rnd' sealed masterKey
         = match plaintext with
           | [] => Throw PasswordCrypto.decrypt_failed
           | _ :: _ => Ok plaintext
           end.
Proof.
  intros rnd rnd' username accountPassword masterKey plaintext Hkey Hp.
  apply (decrypt_encrypt rnd rnd' plaintext masterKey Hp).
  exact (derived_key_encodable username accountPassword Hkey).
Qed.

Lemma decrypt_encrypt_roundtrip_witness :
  PasswordCrypto.generateMasterKey (lit "alice") (lit "Secret123!") = Ok alice_key
  /\ well_formed (lit "site-password") = true
  /\ exists sealed,
       PasswordCrypto.encrypt sample_salt (lit "site-password") alice_key = Ok sealed
       /\ PasswordCrypto.decrypt (0, 0)%N sealed alice_key = Ok (lit "site-password").
Proof.
  assert (Hkey : PasswordCrypto.generateMasterKey (lit "alice") (lit "Secret123!")
                 = Ok alice_key) by (vm_compute; reflexivity).
  split; [exact Hkey|]. split; [reflexivity|].
  exact (@decrypt_encrypt_roundtrip sample_salt (0, 0)%N (lit "alice") (lit "Secret123!")
           alice_key (lit "site-password") Hkey eq_refl).
Defined.

(** C1 as stated fails at the empty plaintext: sealed under the derived key
    of ("alice", "Secret123!"), it does not open under that key.  (And a
    plaintext that is an unpaired surrogate is not sealed at all.) *)
Lemma decrypt_of_sealed_empty :
  PasswordCrypto.encrypt sample_salt [] alice_key = Ok sealed_empty
  /\ PasswordCrypto.decrypt (0, 0)%N sealed_empty alice_key
     = Throw "Failed to decrypt password"
  /\ PasswordCrypto.encrypt sample_salt [55296%N] alice_key
     = Throw "Failed to encrypt password".
Proof. compute_each. Qed.

(** C2, as the code has it: [decrypt] checks no authentication tag.  It
    returns a string exactly when the bytes CryptoJS decrypts are valid UTF-8
    and decode to a string that is not empty - for a text that was modified
    as for one that was not; every failure is the one error "Failed to
    decrypt password"; and the text is read through its Base64 decoding
    only, so that two texts with the same decoding open alike. *)
Theorem decrypt_checks_decoding_only :
  forall (rnd : N * N) (encryptedPassword masterKey : jsstring),
    (forall password,
       PasswordCrypto.decrypt rnd encryptedPassword masterKey = Ok password
       <-> (password <> []
            /\ exists decrypted,
                 CipherCore.AES_decrypt rnd encryptedPassword masterKey = Ok decrypted
                 /\ CryptoJS.Utf8_stringify decrypted = Ok password))
    /\ (forall e,
          PasswordCrypto.decrypt rnd encryptedPassword masterKey = Throw e ->
          e = PasswordCrypto.decrypt_failed)
    /\ PasswordCrypto.decrypt rnd encryptedPassword masterKey
       = PasswordCrypto.decrypt rnd
           (CryptoJS.Base64_stringify (CryptoJS.Base64_parse encryptedPassword))
           masterKey.
Proof.
  intros rnd encryptedPassword masterKey. split; [|split].
  - intro password. split.
    + intro H.
      destruct (decrypt_outcomes rnd encryptedPassword masterKey)
        as [E|(p & d & E & Hne & Hd & Hs)]; rewrite E in H; [discriminate|].
      injection H as <-. split; [assumption|]. now exists d.
    + intros (Hne & d & Hd & Hs). unfold PasswordCrypto.decrypt.
      rewrite Hd, Hs. destruct password; [contradiction | reflexivity].
  - intros e H.
    destruct (decrypt_outcomes rnd encryptedPassword masterKey)
      as [E|(p & d & E & _)]; rewrite E in H; [now injection H | discriminate].
  - apply decrypt_reads_decoding.
Qed.

(** C2 as stated fails: in the text that seals "site-password" under the
    derived key of ("alice", "Secret123!"), the character at position 24
    replaced by "H" opens, under the same key, to "SV"; and the character at
    position 42 replaced by "p" opens to the plaintext itself. *)
Lemma tampered_blob_opens :
  PasswordCrypto.encrypt sample_salt (lit "site-password") alice_key
    = Ok sealed_site_password
  /\ str_eqb (replace_at 24 "H" sealed_site_password) sealed_site_password = false
  /\ PasswordCrypto.decrypt (0, 0)%N (replace_at 24 "H" sealed_site_password) alice_key
     = Ok (lit "SV")
  /\ str_eqb (replace_at 42 "p" sealed_site_password) sealed_site_password = false
  /\ PasswordCrypto.decrypt (0, 0)%N (replace_at 42 "p" sealed_site_password) alice_key
     = Ok (lit "site-password").
Proof. compute_each. Qed.

(** C3, as the code has it: [decrypt] does not tell an empty secret from a
    failed decryption.  Under every well-formed key the sealed empty string
    fails to open, with the error a wrong key gives; [decrypt] never
    returns the empty string, and has no other error. *)
Theorem decrypt_empty_secret_fails :
  forall (rnd rnd' : N * N) (masterKey encryptedPassword : jsstring),
    (well_formed masterKey = true ->
     exists sealed,
       PasswordCrypto.encrypt rnd [] masterKey = Ok sealed
       /\ PasswordCrypto.decrypt rnd' sealed masterKey
          = Throw PasswordCrypto.decrypt_failed)
    /\ ((exists password,
           PasswordCrypto.decrypt rnd' encryptedPassword masterKey = Ok password
           /\ password <> [])
        \/ PasswordCrypto.decrypt rnd' encryptedPassword masterKey
           = Throw PasswordCrypto.decrypt_failed).
Proof.
  intros rnd rnd' masterKey encryptedPassword. split.
  - intro Hk. exact (decrypt_encrypt rnd rnd' [] masterKey eq_refl Hk).
  - destruct (decrypt_outcomes rnd' encryptedPassword masterKey)
      as [E|(p & d & E & Hne & _)]; [right; exact E|].
    left. exists p. split; assumption.
Qed.

(** C3 as stated fails: the sealed empty string does not open under its own
    key, with the very error that a wrong key gives on a sealed secret; and
    another wrong key opens that sealed secret to the string ",". *)
Lemma decrypt_wrong_key_or_empty :
  PasswordCrypto.encrypt sample_salt [] alice_key = Ok sealed_empty
  /\ PasswordCrypto.decrypt (0, 0)%N sealed_empty alice_key
     = Throw "Failed to decrypt password"
  /\ PasswordCrypto.encrypt sample_salt (lit "site-password") alice_key
     = Ok sealed_site_password
  /\ PasswordCrypto.decrypt (0, 0)%N sealed_site_password another_key
     = Throw "Failed to decrypt password"
  /\ PasswordCrypto.decrypt (0, 0)%N sealed_site_password other_key
     = Ok (lit ",").
Proof. compute_each. Qed.

(** * Further properties of the code *)

(** ** The generator and the estimator together *)

Module StrengthFacts.
Import PasswordGenerator StrengthSpec.

Lemma score_points (password : jsstring) :
  score (analyzePasswordStrength password) = estimate_points password.
Proof.
  unfold analyzePasswordStrength, estimate_points, test.
  destruct (8 <=? N.of_nat (List.length password))%N;
    destruct (12 <=? N.of_nat (List.length password))%N;
    destruct (existsb class_lower password);
    destruct (existsb class_upper password);
    destruct (existsb class_digit password);
    destruct (existsb class_other password); reflexivity.
Qed.

Lemma label_points (password : jsstring) :
  label (analyzePasswordStrength password) = estimate_label (estimate_points password).
Proof.
  unfold analyzePasswordStrength, estimate_points, estimate_label, test.
  destruct (8 <=? N.of_nat (List.length password))%N;
    destruct (12 <=? N.of_nat (List.length password))%N;
    destruct (existsb class_lower password);
    destruct (existsb class_upper password);
    destruct (existsb class_digit password);
    destruct (existsb class_other password); reflexivity.
Qed.

Lemma existsb_app_le (f : code_unit -> bool) (a b : jsstring) :
  (N.b2n (existsb f a) <= N.b2n (existsb f (a ++ b)))%N
  /\ (N.b2n (existsb f b) <= N.b2n (existsb f (a ++ b)))%N.
Proof.
  rewrite existsb_app.
  destruct (existsb f a), (existsb f b); cbn; lia.
Qed.

Lemma at_least_app_le (k : N) (a b : jsstring) :
  (N.b2n (k <=? N.of_nat (List.length a)) <= N.b2n (k <=? N.of_nat (List.length (a ++ b))))%N
  /\ (N.b2n (k <=? N.of_nat (List.length b))
      <= N.b2n (k <=? N.of_nat (List.length (a ++ b))))%N.
Proof.
  rewrite length_app.
  destruct (k <=? N.of_nat (List.length a))%N eqn:Ea;
    destruct (k <=? N.of_nat (List.length b))%N eqn:Eb;
    destruct (k <=? N.of_nat (List.length a + List.length b))%N eqn:Eab;
    cbn; try lia;
    repeat match goal with
           | H : (_ <=? _)%N = true |- _ => apply N.leb_le in H
           | H : (_ <=? _)%N = false |- _ => apply N.leb_gt in H
           end; lia.
Qed.

Lemma classes_of_class (class : jsstring) (expected : bool * bool * bool * bool) (c : code_unit) :
  forallb (fun c => if list_eq_dec bool_dec
                         (let '(u, l, d, o) := classes c in [u; l; d; o])
                         (let '(u, l, d, o) := expected in [u; l; d; o])
                    then true else false) class = true ->
  In c class -> classes c = expected.
Proof.
  intros Hall Hin. rewrite forallb_forall in Hall. specialize (Hall c Hin).
  destruct (classes c) as [[[u l] d] o], expected as [[[u' l'] d'] o'].
  destruct (list_eq_dec bool_dec [u; l; d; o] [u'; l'; d'; o']) as [E|E];
    [congruence | discriminate].
Qed.

Lemma classes_UPPERCASE c : In c UPPERCASE -> classes c = (true, false, false, false).
Proof. apply classes_of_class. vm_compute. reflexivity. Qed.

Lemma classes_LOWERCASE c : In c LOWERCASE -> classes c = (false, true, false, false).
Proof. apply classes_of_class. vm_compute. reflexivity. Qed.

Lemma classes_NUMBERS c : In c NUMBERS -> classes c = (false, false, true, false).
Proof. apply classes_of_class. vm_compute. reflexivity. Qed.

Lemma classes_SYMBOLS c : In c SYMBOLS -> classes c = (false, false, false, true).
Proof. apply classes_of_class. vm_compute. reflexivity. Qed.

(** The classes of a character of the charset of a policy are among the
    classes the policy enables. *)
Lemma classes_of_charset (o : PasswordGeneratorOptions) (c : code_unit) :
  In c (charset_of o) ->
  (class_upper c = true -> uppercase o = true)
  /\ (class_lower c = true -> lowercase o = true)
  /\ (class_digit c = true -> numbers o = true)
  /\ (class_other c = true -> symbols o = true).
Proof.
  unfold charset_of. rewrite !in_app_iff.
  intros [H|[H|[H|H]]];
    [ destruct (uppercase o); [apply classes_UPPERCASE in H | contradiction]
    | destruct (lowercase o); [apply classes_LOWERCASE in H | contradiction]
    | destruct (numbers o); [apply classes_NUMBERS in H | contradiction]
    | destruct (symbols o); [apply classes_SYMBOLS in H | contradiction] ];
    unfold classes in H; injection H as -> -> -> ->;
    repeat split; intro; congruence.
Qed.

Lemma existsb_false_Forall (f : code_unit -> bool) (s : jsstring) :
  existsb f s = false <-> Forall (fun c => f c = false) s.
Proof.
  induction s as [|c s IH]; cbn.
  - split; [constructor | reflexivity].
  - rewrite orb_false_iff, IH. split.
    + intros [H1 H2]. now constructor.
    + intro H. inversion H. auto.
Qed.

Lemma contains_existsb (class s : jsstring) (f : code_unit -> bool) :
  (forall c, In c class -> f c = true) -> contains class s -> existsb f s = true.
Proof.
  intros Hf (c & Hs & Hc). apply existsb_exists. exists c. auto.
Qed.

(** On a string over the charset of a policy that has a character of every
    enabled class, the four class tests of the estimator answer the four
    flags of the policy. *)
Lemma tests_of_generated (o : PasswordGeneratorOptions) (s : jsstring) :
  represents o s -> Forall (fun c => In c (charset_of o)) s ->
  existsb class_upper s = uppercase o
  /\ existsb class_lower s = lowercase o
  /\ existsb class_digit s = numbers o
  /\ existsb class_other s = symbols o.
Proof.
  intros (Hu & Hl & Hn & Hs) Hall.
  assert (Hoff : forall (f : code_unit -> bool) (flag : bool),
            (forall c, In c (charset_of o) -> f c = true -> flag = true) ->
            flag = false -> existsb f s = false).
  { intros f flag Hf Hflag. apply existsb_false_Forall.
    eapply Forall_impl; [|exact Hall]. intros c Hc. cbv beta in Hc.
    destruct (f c) eqn:E; [|reflexivity].
    specialize (Hf c Hc E). congruence. }
  repeat split.
  - destruct (uppercase o) eqn:E.
    + apply (contains_existsb (class := UPPERCASE)); [|auto].
      intros c Hc. apply classes_UPPERCASE in Hc. unfold classes in Hc. congruence.
    + apply (Hoff class_upper false); [|reflexivity].
      intros c Hc Hcl. destruct (classes_of_charset o c Hc) as (H & _). rewrite <- E. auto.
  - destruct (lowercase o) eqn:E.
    + apply (contains_existsb (class := LOWERCASE)); [|auto].
      intros c Hc. apply classes_LOWERCASE in Hc. unfold classes in Hc. congruence.
    + apply (Hoff class_lower false); [|reflexivity].
      intros c Hc Hcl. destruct (classes_of_charset o c Hc) as (_ & H & _).
      rewrite <- E. auto.
  - destruct (numbers o) eqn:E.
    + apply (contains_existsb (class := NUMBERS)); [|auto].
      intros c Hc. apply classes_NUMBERS in Hc. unfold classes in Hc. congruence.
    + apply (Hoff class_digit false); [|reflexivity].
      intros c Hc Hcl. destruct (classes_of_charset o c Hc) as (_ & _ & H & _).
      rewrite <- E. auto.
  - destruct (symbols o) eqn:E.
    + apply (contains_existsb (class := SYMBOLS)); [|auto].
      intros c Hc. apply classes_SYMBOLS in Hc. unfold classes in Hc. congruence.
    + apply (Hoff class_other false); [|reflexivity].
      intros c Hc Hcl. destruct (classes_of_charset o c Hc) as (_ & _ & _ & H).
      rewrite <- E. auto.
Qed.

(** What [generate] returns, when it returns. *)
Lemma generate_returns Array_sort (o : PasswordGeneratorOptions) (r : Rng) (s : jsstring) :
  sorts_by_rearranging Array_sort ->
  fst (generate Array_sort o r) = Ok s ->
  class_count o <> 0%nat
  /\ List.length s = Nat.max (class_count o) (Z.to_nat (length o))
  /\ represents o s
  /\ Forall (fun c => In c (charset_of o)) s.
Proof.
  intros Hsort E.
  destruct (Nat.eq_dec (class_count o) 0) as [H0|Hc].
  - rewrite (generate_no_class Array_sort o r H0) in E. discriminate E.
  - destruct (@generate_with_class Array_sort Hsort o r Hc) as (s' & E' & Hlen & Hrep & Hall).
    rewrite E in E'. injection E' as <-. auto.
Qed.

End StrengthFacts.

Import StrengthFacts.

(** X1: a password that [generate] returns is made of characters of the
    enabled classes only: with a class switched off, no character of the
    password passes the estimator's test for that class - no uppercase
    letter, no lowercase letter, no digit, or nothing but letters and
    digits. *)
Theorem generate_draws_enabled_classes :
  forall Array_sort, sorts_by_rearranging Array_sort ->
  forall (options : PasswordGeneratorOptions) (r : Rng) (password : jsstring),
    fst (PasswordGenerator.generate Array_sort options r) = Ok password ->
    Forall (fun c => In c (charset_of options)) password
    /\ (uppercase options = false -> Forall (fun c => class_upper c = false) password)
    /\ (lowercase options = false -> Forall (fun c => class_lower c = false) password)
    /\ (numbers options = false -> Forall (fun c => class_digit c = false) password)
    /\ (symbols options = false -> Forall (fun c => class_other c = false) password).
Proof.
  intros Array_sort Hsort options r password E.
  destruct (generate_returns options r Hsort E) as (_ & _ & Hrep & Hall).
  destruct (tests_of_generated Hrep Hall) as (Hu & Hl & Hn & Hs).
  split; [exact Hall|].
  repeat split; intro Hoff; apply existsb_false_Forall; congruence.
Qed.

Lemma generate_draws_enabled_classes_witness :
  fst (PasswordGenerator.generate PasswordGenerator.insertion_sort
         policy_short sample_rng) = Ok (lit "A6w")
  /\ Forall (fun c => class_other c = false) (lit "A6w").
Proof.
  assert (E : fst (PasswordGenerator.generate PasswordGenerator.insertion_sort
                     policy_short sample_rng) = Ok (lit "A6w"))
    by (vm_compute; reflexivity).
  split; [exact E|].
  exact (proj2 (proj2 (proj2 (proj2
           (@generate_draws_enabled_classes _ insertion_sort_rearranges
              policy_short sample_rng _ E)))) eq_refl).
Defined.

(** X2: the estimator's score of a generated password is the number of
    enabled classes, plus one when it has 8 characters and one more when it
    has 12; its length is the requested one, or the number of enabled
    classes when that is larger.  So a generated password of 12 characters
    or more from three classes or more is always rated Strong. *)
Theorem generated_password_score :
  forall Array_sort, sorts_by_rearranging Array_sort ->
  forall (options : PasswordGeneratorOptions) (r : Rng) (password : jsstring),
    fst (PasswordGenerator.generate Array_sort options r) = Ok password ->
    List.length password = Nat.max (class_count options) (Z.to_nat (length options))
    /\ score (analyzePasswordStrength password)
       = (N.of_nat (class_count options)
          + N.b2n (8 <=? N.of_nat (List.length password))
          + N.b2n (12 <=? N.of_nat (List.length password)))%N
    /\ ((12 <= length options)%Z -> (3 <= class_count options)%nat ->
        label (analyzePasswordStrength password) = Strong).
Proof.
  intros Array_sort Hsort options r password E.
  destruct (generate_returns options r Hsort E) as (_ & Hlen & Hrep & Hall).
  destruct (tests_of_generated Hrep Hall) as (Hu & Hl & Hn & Hs).
  assert (Hpoints : estimate_points password
                    = (N.of_nat (class_count options)
                       + N.b2n (8 <=? N.of_nat (List.length password))
                       + N.b2n (12 <=? N.of_nat (List.length password)))%N).
  { unfold estimate_points, class_count. rewrite Hu, Hl, Hn, Hs.
    destruct (uppercase options), (lowercase options), (numbers options),
      (symbols options); cbn [Nat.b2n N.b2n Nat.add N.of_nat]; lia. }
  split; [exact Hlen|]. split; [now rewrite score_points|].
  intros H12 H3. rewrite label_points, Hpoints.
  replace (8 <=? N.of_nat (List.length password))%N with true
    by (symmetry; apply N.leb_le; lia).
  replace (12 <=? N.of_nat (List.length password))%N with true
    by (symmetry; apply N.leb_le; lia).
  unfold estimate_label. cbn [N.b2n].
  replace (N.of_nat (class_count options) + 1 + 1 <=? 2)%N with false
    by (symmetry; apply N.leb_gt; lia).
  replace (N.of_nat (class_count options) + 1 + 1 <=? 4)%N with false
    by (symmetry; apply N.leb_gt; lia).
  reflexivity.
Qed.

Lemma generated_password_score_witness :
  exists password,
    fst (PasswordGenerator.generate PasswordGenerator.insertion_sort
           PasswordGeneratorModal.initial_options sample_rng) = Ok password
    /\ List.length password = 16%nat
    /\ score (analyzePasswordStrength password) = 5%N
    /\ label (analyzePasswordStrength password) = Strong.
Proof.
  destruct (fst (PasswordGenerator.generate PasswordGenerator.insertion_sort
                   PasswordGeneratorModal.initial_options sample_rng))
    as [password|e] eqn:E; [|vm_compute in E; discriminate E].
  exists password.
  destruct (@generated_password_score _ insertion_sort_rearranges
              PasswordGeneratorModal.initial_options sample_rng password E)
    as (Hlen & Hscore & Hlabel).
  split; [reflexivity|]. split; [exact Hlen|]. split.
  - rewrite Hscore, Hlen. reflexivity.
  - apply Hlabel; cbn; lia.
Defined.

(** X3: characters added to a password, in front or behind, never lower
    its score. *)
Theorem analyzePasswordStrength_monotone :
  forall password more : jsstring,
    (score (analyzePasswordStrength password)
     <= score (analyzePasswordStrength (password ++ more)))%N
    /\ (score (analyzePasswordStrength password)
        <= score (analyzePasswordStrength (more ++ password)))%N.
Proof.
  intros password more. rewrite !score_points. unfold estimate_points.
  pose proof (at_least_app_le 8 password more) as [H8a _].
  pose proof (at_least_app_le 12 password more) as [H12a _].
  pose proof (at_least_app_le 8 more password) as [_ H8b].
  pose proof (at_least_app_le 12 more password) as [_ H12b].
  pose proof (existsb_app_le class_lower password more) as [Hla _].
  pose proof (existsb_app_le class_upper password more) as [Hua _].
  pose proof (existsb_app_le class_digit password more) as [Hda _].
  pose proof (existsb_app_le class_other password more) as [Hoa _].
  pose proof (existsb_app_le class_lower more password) as [_ Hlb].
  pose proof (existsb_app_le class_upper more password) as [_ Hub].
  pose proof (existsb_app_le class_digit more password) as [_ Hdb].
  pose proof (existsb_app_le class_other more password) as [_ Hob].
  split; lia.
Qed.

(** X4: a password is rated Strong only if it has 8 characters at least
    and characters of three of the four classes at least; and with 12
    characters and three classes it is rated Strong. *)
Theorem strong_rating_needs :
  forall password : jsstring,
    (label (analyzePasswordStrength password) = Strong ->
     (8 <= List.length password)%nat
     /\ (3 <= N.b2n (existsb class_lower password) + N.b2n (existsb class_upper password)
              + N.b2n (existsb class_digit password)
              + N.b2n (existsb class_other password))%N)
    /\ ((12 <= List.length password)%nat ->
        (3 <= N.b2n (existsb class_lower password) + N.b2n (existsb class_upper password)
              + N.b2n (existsb class_digit password)
              + N.b2n (existsb class_other password))%N ->
        label (analyzePasswordStrength password) = Strong).
Proof.
  intro password. rewrite label_points. unfold estimate_points, estimate_label.
  destruct (8 <=? N.of_nat (List.length password))%N eqn:E8;
    destruct (12 <=? N.of_nat (List.length password))%N eqn:E12;
    repeat match goal with
           | H : (_ <=? _)%N = true |- _ => apply N.leb_le in H
           | H : (_ <=? _)%N = false |- _ => apply N.leb_gt in H
           end;
    destruct (existsb class_lower password), (existsb class_upper password),
      (existsb class_digit password), (existsb class_other password);
    cbn; split; intros; try discriminate; try lia; try reflexivity; try (split; lia).
Qed.

(** ** The sealed text *)

Module BlobFacts.
Import CryptoJS Hashers AES CipherCore CipherFacts Base64Facts.

(** What [encrypt] returned, when it returned. *)
Lemma encrypt_returns (rnd : N * N) (password masterKey sealed : jsstring) :
  PasswordCrypto.encrypt rnd password masterKey = Ok sealed ->
  exists msg pw key iv,
    Utf8_parse password = Ok msg /\ Utf8_parse masterKey = Ok pw
    /\ OpenSSLKdf pw (random_salt rnd) = (key, iv)
    /\ sealed = OpenSSL_stringify (random_salt rnd) (encryptor_finalize key iv msg).
Proof.
  unfold PasswordCrypto.encrypt, AES_encrypt. intro E.
  destruct (Utf8_parse masterKey) as [pw|e]; [|discriminate E].
  destruct (OpenSSLKdf pw (random_salt rnd)) as [key iv] eqn:Ekdf.
  destruct (Utf8_parse password) as [msg|e]; [|discriminate E].
  unfold try_catch_rethrow in E. injection E as <-. exists msg, pw, key, iv. auto.
Qed.

Lemma encrypt_well_formed (rnd : N * N) (password masterKey sealed : jsstring) :
  PasswordCrypto.encrypt rnd password masterKey = Ok sealed ->
  well_formed password = true /\ well_formed masterKey = true.
Proof.
  intro E. destruct (encrypt_returns _ _ _ E) as (msg & pw & key & iv & Hm & Hp & _).
  unfold well_formed. now rewrite Hm, Hp.
Qed.

Lemma Base64_stringify_length (bs : bytes) :
  List.length (Base64_stringify bs) = (4 * ((List.length bs + 2) / 3))%nat.
Proof.
  induction bs as [|b1|b1 b2|b1 b2 b3 rest IH] using list_ind_by_3;
    try reflexivity.
  cbn [Base64_stringify]. rewrite length_app, IH. cbn [List.length triplet_chars].
  replace (S (S (S (List.length rest))) + 2)%nat
    with (1 * 3 + (List.length rest + 2))%nat by lia.
  rewrite Nat.div_add_l by discriminate. lia.
Qed.

Lemma blocks_of_length (k : nat) (data : bytes) :
  List.length data = (16 * k)%nat -> List.length (blocks_of data) = k.
Proof.
  intro H. pose proof (bytes_of_blocks_length (blocks_of data)) as HL.
  rewrite (@bytes_of_blocks_of k data H) in HL. lia.
Qed.

Lemma encryptor_finalize_length (key iv message : bytes) :
  List.length (encryptor_finalize key iv message)
  = (16 * (List.length message / 16 + 1))%nat.
Proof.
  unfold encryptor_finalize.
  rewrite bytes_of_blocks_length, CBC_encrypt_length.
  now rewrite (@blocks_of_length _ _ (Pkcs7_pad_length message)).
Qed.

Lemma Base64_stringify_triplet (b1 b2 b3 : byte) (rest : bytes) :
  Base64_stringify (b1 :: b2 :: b3 :: rest)
  = triplet_chars 3 b1 b2 b3 ++ Base64_stringify rest.
Proof. reflexivity. Qed.

(** The first eight characters of every sealed text spell the start of
    "Salted__" in Base64, and four more follow at least. *)
Lemma OpenSSL_stringify_prefix (rnd : N * N) (ciphertext : bytes) :
  exists c8 c9 c10 c11 rest,
    OpenSSL_stringify (random_salt rnd) ciphertext
    = lit "U2FsdGVk" ++ c8 :: c9 :: c10 :: c11 :: rest.
Proof.
  unfold OpenSSL_stringify, random_salt, word_bytes.
  change Salted__ with [x53; x61; x6c; x74; x65; x64; x5f; x5f].
  cbn [app].
  do 3 rewrite Base64_stringify_triplet.
  change (triplet_chars 3 x53 x61 x6c) with (lit "U2Fs").
  change (triplet_chars 3 x74 x65 x64) with (lit "dGVk").
  cbv beta iota zeta delta [triplet_chars].
  do 5 eexists. reflexivity.
Qed.

End BlobFacts.

Import BlobFacts.

(** X6: the text [encrypt] returns carries its salt in the clear, followed
    by a ciphertext of whole 16-byte blocks, one more than the UTF-8
    bytes of the password fill; so the length of the text is a function of
    the byte length of the password alone. *)
Theorem encrypt_blob_shape :
  forall (rnd : N * N) (password masterKey sealed : jsstring) (msg : CryptoJS.bytes),
    PasswordCrypto.encrypt rnd password masterKey = Ok sealed ->
    CryptoJS.Utf8_parse password = Ok msg ->
    (exists ciphertext,
       CipherCore.OpenSSL_parse sealed = (Some (CipherCore.random_salt rnd), ciphertext)
       /\ List.length ciphertext = (16 * (List.length msg / 16 + 1))%nat)
    /\ List.length sealed = (4 * ((16 * (List.length msg / 16) + 34) / 3))%nat.
Proof.
  intros rnd password masterKey sealed msg E Hmsg.
  destruct (encrypt_returns _ _ _ E) as (msg' & pw & key & iv & Hm & _ & _ & ->).
  rewrite Hmsg in Hm. injection Hm as <-. split.
  - exists (CipherCore.encryptor_finalize key iv msg). split.
    + apply OpenSSL_parse_stringify, random_salt_length.
    + apply encryptor_finalize_length.
  - unfold CipherCore.OpenSSL_stringify.
    rewrite Base64_stringify_length, !length_app, random_salt_length,
      encryptor_finalize_length.
    change (List.length CipherCore.Salted__) with 8%nat.
    f_equal. f_equal. lia.
Qed.

Lemma encrypt_blob_shape_witness :
  PasswordCrypto.encrypt sample_salt (lit "site-password") alice_key
    = Ok sealed_site_password
  /\ List.length sealed_site_password = 44%nat.
Proof.
  assert (E : PasswordCrypto.encrypt sample_salt (lit "site-password") alice_key
              = Ok sealed_site_password) by (vm_compute; reflexivity).
  split; [exact E|].
  exact (proj2 (@encrypt_blob_shape sample_salt (lit "site-password") alice_key
                  sealed_site_password _ E eq_refl)).
Defined.

(** X7: the strength a credential card shows is computed on the stored
    text, not on the password: for every text that [encrypt] returned it is
    Strong, with a score of 5 at least, whatever the password is. *)
Theorem card_strength_always_strong :
  forall (rnd : N * N) (password masterKey : jsstring) (credential : Credential.t),
    PasswordCrypto.encrypt rnd password masterKey
      = Ok (Credential.encryptedPassword credential) ->
    label (CredentialCard.passwordStrength credential) = Strong
    /\ (5 <= score (CredentialCard.passwordStrength credential))%N.
Proof.
  intros rnd password masterKey credential E.
  destruct (encrypt_returns _ _ _ E) as (msg & pw & key & iv & _ & _ & _ & Hsealed).
  destruct (OpenSSL_stringify_prefix rnd (CipherCore.encryptor_finalize key iv msg))
    as (c8 & c9 & c10 & c11 & rest & Hprefix).
  unfold CredentialCard.passwordStrength.
  rewrite Hsealed, Hprefix.
  rewrite StrengthFacts.label_points, StrengthFacts.score_points.
  unfold estimate_points, estimate_label.
  rewrite length_app, !existsb_app.
  replace (existsb class_lower (lit "U2FsdGVk")) with true by reflexivity.
  replace (existsb class_upper (lit "U2FsdGVk")) with true by reflexivity.
  replace (existsb class_digit (lit "U2FsdGVk")) with true by reflexivity.
  change (List.length (lit "U2FsdGVk")) with 8%nat. cbn [List.length orb].
  replace (8 <=? N.of_nat (8 + S (S (S (S (List.length rest))))))%N with true
    by (symmetry; apply N.leb_le; lia).
  replace (12 <=? N.of_nat (8 + S (S (S (S (List.length rest))))))%N with true
    by (symmetry; apply N.leb_le; lia).
  cbn [N.b2n].
  match goal with
  | |- context [N.b2n ?symbol] => destruct symbol
  end; (split; [reflexivity | cbn [N.b2n]; lia]).
Qed.

Lemma card_strength_always_strong_witness :
  label (CredentialCard.passwordStrength
           {| Credential.id := lit "c-2"; Credential.userId := lit "u-1";
              Credential.name := lit "empty"; Credential.url := None;
              Credential.username := lit "alice";
              Credential.encryptedPassword := sealed_empty;
              Credential.category := lit "other";
              Credential.createdAt := 0; Credential.updatedAt := 0 |}) = Strong.
Proof.
  refine (proj1 (@card_strength_always_strong sample_salt [] alice_key _ _)).
  vm_compute. reflexivity.
Defined.

(** X8: the empty text, and every text that starts with the padding
    character "=", fails to decrypt under every key. *)
Theorem decrypt_empty_text_fails :
  forall (rnd : N * N) (rest masterKey : jsstring),
    PasswordCrypto.decrypt rnd [] masterKey = Throw PasswordCrypto.decrypt_failed
    /\ PasswordCrypto.decrypt rnd (CryptoJS.paddingChar :: rest) masterKey
       = Throw PasswordCrypto.decrypt_failed.
Proof.
  intros rnd rest masterKey.
  assert (Hempty : PasswordCrypto.decrypt rnd [] masterKey
                   = Throw PasswordCrypto.decrypt_failed).
  { unfold PasswordCrypto.decrypt, CipherCore.AES_decrypt.
    change (CipherCore.OpenSSL_parse []) with (@None CryptoJS.bytes, @nil byte).
    cbv beta iota zeta.
    destruct (CryptoJS.Utf8_parse masterKey) as [pw|e]; [|reflexivity].
    destruct (CipherCore.OpenSSLKdf pw (CipherCore.random_salt rnd)) as [key iv].
    reflexivity. }
  split; [exact Hempty|].
  rewrite decrypt_reads_decoding.
  unfold CryptoJS.Base64_parse. rewrite Base64Facts.before_padding_padding.
  exact Hempty.
Qed.

(** X9: a credential saved from the form opens again for the same user:
    when the password typed into the form is not empty, copying the
    password of the stored credential puts that password on the clipboard,
    and opening the credential for editing fills the form with it. *)
Theorem saved_credential_opens :
  forall (rnd rnd1 rnd2 : N * N) (user : AuthUser) (data : CredentialFormData)
         (body : InsertCredential) (credential : Credential.t),
    CredentialModal.payload rnd user data = Ok body ->
    Credential.encryptedPassword credential = ins_encryptedPassword body ->
    List.length (form_password data) <> 0%nat ->
    CredentialCard.copyPassword rnd1 (Some user) credential
      = CredentialCard.Clipboard (form_password data)
    /\ exists form,
         CredentialModal.opened_form rnd2 (Some user) (Some credential) = Some (Ok form)
         /\ form_password form = form_password data
         /\ form_name form = Credential.name credential.
Proof.
  intros rnd rnd1 rnd2 user data body credential Hpayload Hstored Hne.
  unfold CredentialModal.payload, CredentialModal.encryptedPassword in Hpayload.
  unfold CredentialCard.copyPassword, CredentialModal.opened_form.
  destruct (CredentialModal.masterKey (auth_username user) (auth_password user))
    as [key|e] eqn:Ekey; [|discriminate Hpayload].
  destruct (PasswordCrypto.encrypt rnd (form_password data) key)
    as [sealed|e] eqn:Eseal; [|discriminate Hpayload].
  injection Hpayload as <-. cbn [ins_encryptedPassword] in Hstored.
  destruct (encrypt_well_formed _ _ _ Eseal) as [Hp Hk].
  assert (Hopen : forall r, PasswordCrypto.decrypt r sealed key = Ok (form_password data)).
  { intro r. destruct (decrypt_encrypt rnd r (form_password data) key Hp Hk)
      as (sealed' & Es & Ed).
    rewrite Eseal in Es. injection Es as <-. rewrite Ed.
    destruct (form_password data); [contradiction Hne; reflexivity | reflexivity]. }
  rewrite Hstored, !Hopen. split; [reflexivity|].
  eexists. split; [reflexivity|]. split; reflexivity.
Qed.

Lemma saved_credential_opens_witness :
  CredentialCard.copyPassword (0, 0)%N
    (Some {| auth_username := lit "alice"; auth_password := Some (lit "Secret123!") |})
    {| Credential.id := lit "c-1"; Credential.userId := lit "u-1";
       Credential.name := lit "mail"; Credential.url := None;
       Credential.username := lit "alice@example.org";
       Credential.encryptedPassword := sealed_site_password;
       Credential.category := lit "other";
       Credential.createdAt := 1700000200; Credential.updatedAt := 1700000200 |}
  = CredentialCard.Clipboard (lit "site-password").
Proof.
  refine (proj1 (@saved_credential_opens sample_salt (0, 0)%N (0, 0)%N
                   {| auth_username := lit "alice";
                      auth_password := Some (lit "Secret123!") |}
                   {| form_name := lit "mail"; form_url := None;
                      form_username := lit "alice@example.org";
                      form_password := lit "site-password";
                      form_category := lit "other" |}
                   {| ins_name := lit "mail"; ins_url := None;
                      ins_username := lit "alice@example.org";
                      ins_encryptedPassword := sealed_site_password;
                      ins_category := Some (lit "other") |}
                   _ _ _ _)).
  - vm_compute. reflexivity.
  - reflexivity.
  - discriminate.
Defined.

(** ** The vault on the server *)

Module VaultFacts.
Import Server VaultSpec.

Lemma str_eqb_eq (a b : jsstring) : str_eqb a b = true <-> a = b.
Proof.
  unfold str_eqb. destruct (list_eq_dec N.eq_dec a b); split; congruence.
Qed.

Lemma str_eqb_neq (a b : jsstring) : str_eqb a b = false <-> a <> b.
Proof.
  unfold str_eqb. destruct (list_eq_dec N.eq_dec a b); split; congruence.
Qed.

Lemma str_eqb_refl (a : jsstring) : str_eqb a a = true.
Proof. now apply str_eqb_eq. Qed.

(** *** Texts on their way to the database *)

Lemma text_parameter_refused (s : jsstring) :
  nul_free s = false -> text_parameter s = Throw invalid_byte_sequence.
Proof.
  unfold nul_free, text_parameter. now destruct (existsb (N.eqb 0) s).
Qed.

Lemma text_parameter_taken (s : jsstring) :
  nul_free s = true -> text_parameter s = Ok (scrub s).
Proof.
  unfold nul_free, text_parameter. now destruct (existsb (N.eqb 0) s).
Qed.

Lemma text_parameter_returns (s text : jsstring) :
  text_parameter s = Ok text -> nul_free s = true /\ text = scrub s.
Proof.
  unfold nul_free, text_parameter. destruct (existsb (N.eqb 0) s); [discriminate|].
  intro H. injection H as <-. split; reflexivity.
Qed.

Lemma text_parameter_error (s : jsstring) (e : string) :
  text_parameter s = Throw e -> nul_free s = false.
Proof.
  unfold nul_free, text_parameter. now destruct (existsb (N.eqb 0) s).
Qed.

(** A text that can be encoded as UTF-8 is sent as it is. *)
Lemma scrub_upto (n : nat) :
  forall s : jsstring,
    (List.length s <= n)%nat -> CipherSpec.well_formed s = true -> scrub s = s.
Proof.
  unfold CipherSpec.well_formed.
  induction n as [|n IH]; intros s Hlen.
  - destruct s; [reflexivity | cbn in Hlen; lia].
  - destruct s as [|c rest]; [reflexivity|].
    cbn [CryptoJS.Utf8_parse scrub]. unfold CryptoJS.is_lead, CryptoJS.is_trail.
    destruct (in_range 55296 56319 c).
    + destruct rest as [|d rest']; [discriminate|].
      destruct (in_range 56320 57343 d); [|discriminate].
      intro H. f_equal. f_equal.
      destruct n as [|n]; [cbn in Hlen; lia|].
      assert (Hrest : scrub rest' = rest').
      { apply IH; [cbn in Hlen |- *; lia|].
        now destruct (CryptoJS.Utf8_parse rest'). }
      exact Hrest.
    + destruct (in_range 56320 57343 c); [discriminate|].
      destruct (c <? 65536)%N; [|discriminate].
      intro H. f_equal. apply IH; [cbn in Hlen; lia|].
      now destruct (CryptoJS.Utf8_parse rest).
Qed.

Lemma scrub_well_formed (s : jsstring) :
  CipherSpec.well_formed s = true -> scrub s = s.
Proof. apply (@scrub_upto (List.length s)). lia. Qed.

Lemma scrub_plain (s : jsstring) : plain s -> scrub s = s.
Proof.
  induction 1 as [|c rest Hc _ IH]; [reflexivity|].
  cbn [scrub]. unfold in_range.
  replace (55296 <=? c)%N with false by (symmetry; apply N.leb_gt; lia).
  replace (56320 <=? c)%N with false by (symmetry; apply N.leb_gt; lia).
  cbn [andb]. now rewrite IH.
Qed.

Lemma text_parameter_plain (s : jsstring) : plain s -> text_parameter s = Ok s.
Proof.
  intro H. rewrite text_parameter_taken; [now rewrite scrub_plain|].
  unfold nul_free. apply negb_true_iff.
  induction H as [|c rest Hc _ IH]; [reflexivity|].
  cbn [existsb]. rewrite IH.
  replace (0 =? c)%N with false by (symmetry; apply N.eqb_neq; lia).
  reflexivity.
Qed.

Lemma nullable_parameter_returns (x y : option jsstring) :
  nullable_parameter x = Ok y ->
  nul_free_option x = true /\ y = option_map scrub x.
Proof.
  destruct x as [s|]; cbn [nullable_parameter nul_free_option option_map].
  - destruct (text_parameter s) as [text|e] eqn:E; [|discriminate].
    intro H. injection H as <-.
    destruct (text_parameter_returns s E) as [Hfree ->]. auto.
  - intro H. injection H as <-. auto.
Qed.

Lemma nullable_parameter_error (x : option jsstring) (e : string) :
  nullable_parameter x = Throw e -> nul_free_option x = false.
Proof.
  destruct x as [s|]; cbn [nullable_parameter nul_free_option]; [|discriminate].
  destruct (text_parameter s) as [text|e'] eqn:E; [discriminate|].
  intros _. exact (text_parameter_error s E).
Qed.

(** *** Rows put in at a place *)

Lemma put_at_nil {A} (place : nat) (rows : list A) : put_at place [] rows = rows.
Proof. unfold put_at. cbn [app]. apply firstn_skipn. Qed.

Lemma filter_around {A} (p : A -> bool) (place : nat) (rows : list A) :
  filter p (firstn place rows) ++ filter p (skipn place rows) = filter p rows.
Proof. now rewrite <- filter_app, firstn_skipn. Qed.

Lemma filter_put_at {A} (p : A -> bool) (place : nat) (written rows : list A) :
  filter p (put_at place written rows)
  = filter p (firstn place rows) ++ filter p written ++ filter p (skipn place rows).
Proof. unfold put_at. now rewrite !filter_app. Qed.

Lemma filter_put_at_none {A} (p : A -> bool) (place : nat) (written rows : list A) :
  filter p written = [] -> filter p (put_at place written rows) = filter p rows.
Proof.
  intro H. rewrite filter_put_at, H. cbn [app]. apply filter_around.
Qed.

Lemma put_at_rearranges {A} (place : nat) (written rows : list A) :
  Permutation (put_at place written rows) (written ++ rows).
Proof.
  unfold put_at. rewrite <- (firstn_skipn place rows) at 3.
  rewrite !app_assoc. apply Permutation_app_tail, Permutation_app_comm.
Qed.

(** *** Selections of credentials *)

Lemma id_and_owner_owner (id userId : jsstring) (c : Credential.t) :
  id_and_owner id userId c = true -> Credential.userId c = userId.
Proof.
  unfold id_and_owner. intro H. apply andb_prop in H. now apply str_eqb_eq.
Qed.

Lemma set_updates_identity (now : N) (updates : UpdateCredential) (c : Credential.t) :
  same_identity c (set_updates now updates c).
Proof. repeat split. Qed.

(** The rows one user's update or deletion matches are not among the rows
    of another user. *)
Lemma others_unmatched (id actor other : jsstring) (rows : list Credential.t) :
  actor <> other ->
  filter (fun c => str_eqb (Credential.userId c) other)
    (filter (fun c => negb (id_and_owner id actor c)) rows)
  = filter (fun c => str_eqb (Credential.userId c) other) rows.
Proof.
  intro Hne. induction rows as [|c rows IH]; [reflexivity|].
  cbn [filter].
  destruct (id_and_owner id actor c) eqn:Eo; cbn [negb filter]; rewrite IH.
  - apply id_and_owner_owner in Eo.
    destruct (str_eqb (Credential.userId c) other) eqn:E; [|reflexivity].
    apply str_eqb_eq in E. congruence.
  - reflexivity.
Qed.

Lemma written_not_of_others (now : N) (id actor other : jsstring)
    (updates : UpdateCredential) (rows : list Credential.t) :
  actor <> other ->
  filter (fun c => str_eqb (Credential.userId c) other)
    (map (set_updates now updates) (filter (id_and_owner id actor) rows)) = [].
Proof.
  intro Hne. induction rows as [|c rows IH]; [reflexivity|].
  cbn [filter]. destruct (id_and_owner id actor c) eqn:Eo; [|exact IH].
  cbn [map filter set_updates Credential.userId].
  apply id_and_owner_owner in Eo. rewrite Eo.
  replace (str_eqb actor other) with false by (symmetry; now apply str_eqb_neq).
  exact IH.
Qed.

Lemma filter_unmatched {A} (p : A -> bool) (rows : list A) :
  filter p rows = [] -> filter (fun c => negb (p c)) rows = rows.
Proof.
  induction rows as [|c rows IH]; [reflexivity|].
  cbn [filter]. destruct (p c); [discriminate|].
  intro H. cbn [negb]. now rewrite IH.
Qed.

Lemma filter_filter_negb {A} (p : A -> bool) (rows : list A) :
  filter p (filter (fun c => negb (p c)) rows) = [].
Proof.
  induction rows as [|c rows IH]; [reflexivity|].
  cbn [filter]. destruct (p c) eqn:E; cbn [negb]; [exact IH|].
  cbn [filter]. now rewrite E.
Qed.

Lemma matched_and_others {A} (p : A -> bool) (rows : list A) :
  Permutation (filter p rows ++ filter (fun c => negb (p c)) rows) rows.
Proof.
  induction rows as [|c rows IH]; [constructor|].
  cbn [filter]. destruct (p c); cbn [negb app].
  - now constructor.
  - rewrite <- Permutation_middle. now constructor.
Qed.

Lemma existsb_false_filter {A} (p : A -> bool) (rows : list A) :
  existsb p rows = false -> filter p rows = [].
Proof.
  induction rows as [|c rows IH]; [reflexivity|].
  cbn [existsb filter]. destruct (p c); [discriminate|]. exact IH.
Qed.

Lemma fresh_id_unmatched (id userId : jsstring) (rows : list Credential.t) :
  existsb (fun c => str_eqb (Credential.id c) id) rows = false ->
  existsb (id_and_owner id userId) rows = false.
Proof.
  induction rows as [|c rows IH]; [reflexivity|].
  cbn [existsb]. intro H. apply orb_false_iff in H. destruct H as [H1 H2].
  unfold id_and_owner at 1. rewrite H1. cbn [andb orb]. now apply IH.
Qed.

Lemma existsb_false_not_in {A} (key : A -> jsstring) (k : jsstring) (rows : list A) :
  existsb (fun r => str_eqb (key r) k) rows = false -> ~ In k (map key rows).
Proof.
  induction rows as [|c rows IH]; cbn [existsb map In]; [tauto|].
  intro H. apply orb_false_iff in H. destruct H as [H1 H2].
  apply str_eqb_neq in H1. intros [E|Hin]; [contradiction | now apply IH].
Qed.

Lemma existsb_true_in {A} (key : A -> jsstring) (k : jsstring) (rows : list A) :
  existsb (fun r => str_eqb (key r) k) rows = true -> In k (map key rows).
Proof.
  intro H. apply existsb_exists in H. destruct H as (r & Hin & E).
  apply str_eqb_eq in E. subst k. now apply in_map.
Qed.

Lemma NoDup_app_one {A} (l : list A) (x : A) :
  NoDup l -> ~ In x l -> NoDup (l ++ [x]).
Proof.
  intros Hl Hx. induction Hl as [|y l Hy Hl IH]; cbn.
  - constructor; [tauto | constructor].
  - constructor.
    + rewrite in_app_iff. cbn. intros [H|[H|[]]]; [contradiction|].
      subst. apply Hx. now left.
    + apply IH. intro H. apply Hx. now right.
Qed.

(** Rows that are deleted leave the identifiers of the others distinct. *)
Lemma ids_after_delete (keep : Credential.t -> bool) (rows : list Credential.t) :
  NoDup (map Credential.id rows) -> NoDup (map Credential.id (filter keep rows)).
Proof.
  induction rows as [|c rows IH]; cbn [filter map]; intro Hrows; [exact Hrows|].
  inversion Hrows as [|? ? Hfresh Hrest]; subst.
  destruct (keep c); [|exact (IH Hrest)].
  cbn [map]. constructor; [|exact (IH Hrest)].
  intro Hin. apply Hfresh. apply in_map_iff in Hin. destruct Hin as (c' & E & Hc').
  apply filter_In in Hc'. apply in_map_iff. exists c'. tauto.
Qed.

(** What [createCredential] returned, when it returned. *)
Lemma createCredential_returns (generated : jsstring) (now : N) (place : nat)
    (db db' : Database) (ins : InsertCredential) (userId : jsstring)
    (credential : Credential.t) :
  createCredential generated now place db ins userId = Ok (db', credential) ->
  existsb (fun c => str_eqb (Credential.id c) generated) (credentials db) = false
  /\ existsb (fun u => str_eqb (User.id u) userId) (users db) = true
  /\ users db' = users db
  /\ credentials db' = put_at place [credential] (credentials db)
  /\ credential
     = {| Credential.id := generated;
          Credential.userId := userId;
          Credential.name := scrub (ins_name ins);
          Credential.url := option_map scrub (or_null (ins_url ins));
          Credential.username := scrub (ins_username ins);
          Credential.encryptedPassword := scrub (ins_encryptedPassword ins);
          Credential.category := scrub (or_else (ins_category ins) (lit "other"));
          Credential.createdAt := now;
          Credential.updatedAt := now |}.
Proof.
  unfold createCredential.
  destruct (text_parameter (ins_name ins)) as [name|e] eqn:E1; [|discriminate].
  destruct (nullable_parameter (or_null (ins_url ins))) as [url|e] eqn:E2;
    [|discriminate].
  destruct (text_parameter (ins_username ins)) as [username|e] eqn:E3; [|discriminate].
  destruct (text_parameter (ins_encryptedPassword ins)) as [sealed|e] eqn:E4;
    [|discriminate].
  destruct (text_parameter (or_else (ins_category ins) (lit "other")))
    as [category|e] eqn:E5; [|discriminate].
  destruct (existsb (fun c => str_eqb (Credential.id c) generated) (credentials db));
    [discriminate|].
  destruct (existsb (fun u => str_eqb (User.id u) userId) (users db));
    [|discriminate].
  cbn [negb]. intro H. injection H as <- <-.
  destruct (text_parameter_returns _ E1) as [_ ->].
  destruct (nullable_parameter_returns _ E2) as [_ ->].
  destruct (text_parameter_returns _ E3) as [_ ->].
  destruct (text_parameter_returns _ E4) as [_ ->].
  destruct (text_parameter_returns _ E5) as [_ ->].
  repeat split.
Qed.

(** What [updateCredential] returned, when it returned, and when it
    throws. *)
Lemma update_parameters_returns (updates sent : UpdateCredential) :
  update_parameters updates = Ok sent ->
  update_nul_free updates = true
  /\ sent
     = {| upd_name := option_map scrub (upd_name updates);
          upd_url := option_map (option_map scrub) (upd_url updates);
          upd_username := option_map scrub (upd_username updates);
          upd_encryptedPassword := option_map scrub (upd_encryptedPassword updates);
          upd_category := option_map scrub (upd_category updates) |}.
Proof.
  unfold update_parameters, optional_parameter, update_nul_free.
  destruct (nullable_parameter (upd_name updates)) as [name|e] eqn:E1; [|discriminate].
  destruct (upd_url updates) as [url|] eqn:Eu.
  - destruct (nullable_parameter url) as [url'|e] eqn:E2; [|discriminate].
    destruct (nullable_parameter (upd_username updates)) as [username|e] eqn:E3;
      [|discriminate].
    destruct (nullable_parameter (upd_encryptedPassword updates)) as [sealed|e] eqn:E4;
      [|discriminate].
    destruct (nullable_parameter (upd_category updates)) as [category|e] eqn:E5;
      [|discriminate].
    intro H. injection H as <-.
    destruct (nullable_parameter_returns _ E1) as [-> ->].
    destruct (nullable_parameter_returns _ E2) as [-> ->].
    destruct (nullable_parameter_returns _ E3) as [-> ->].
    destruct (nullable_parameter_returns _ E4) as [-> ->].
    destruct (nullable_parameter_returns _ E5) as [-> ->].
    split; reflexivity.
  - destruct (nullable_parameter (upd_username updates)) as [username|e] eqn:E3;
      [|discriminate].
    destruct (nullable_parameter (upd_encryptedPassword updates)) as [sealed|e] eqn:E4;
      [|discriminate].
    destruct (nullable_parameter (upd_category updates)) as [category|e] eqn:E5;
      [|discriminate].
    intro H. injection H as <-.
    destruct (nullable_parameter_returns _ E1) as [-> ->].
    destruct (nullable_parameter_returns _ E3) as [-> ->].
    destruct (nullable_parameter_returns _ E4) as [-> ->].
    destruct (nullable_parameter_returns _ E5) as [-> ->].
    split; reflexivity.
Qed.

Lemma update_parameters_error (updates : UpdateCredential) (e : string) :
  update_parameters updates = Throw e -> update_nul_free updates = false.
Proof.
  unfold update_parameters, optional_parameter, update_nul_free.
  destruct (nullable_parameter (upd_name updates)) as [name|e1] eqn:E1.
  2:{ intros _. now rewrite (nullable_parameter_error _ E1). }
  destruct (nullable_parameter_returns _ E1) as [-> _].
  assert (Hrest : forall rest : bool,
            match upd_url updates with
            | Some url => nul_free_option url
            | None => true
            end = false ->
            true && match upd_url updates with
                    | Some url => nul_free_option url
                    | None => true
                    end && rest = false) by (intros rest ->; reflexivity).
  destruct (upd_url updates) as [url|].
  - destruct (nullable_parameter url) as [url'|e2] eqn:E2.
    2:{ intros _. now rewrite (nullable_parameter_error _ E2). }
    destruct (nullable_parameter_returns _ E2) as [-> _].
    destruct (nullable_parameter (upd_username updates)) as [username|e3] eqn:E3.
    2:{ intros _. now rewrite (nullable_parameter_error _ E3). }
    destruct (nullable_parameter_returns _ E3) as [-> _].
    destruct (nullable_parameter (upd_encryptedPassword updates)) as [sealed|e4] eqn:E4.
    2:{ intros _. now rewrite (nullable_parameter_error _ E4). }
    destruct (nullable_parameter_returns _ E4) as [-> _].
    destruct (nullable_parameter (upd_category updates)) as [category|e5] eqn:E5;
      [discriminate|].
    intros _. now rewrite (nullable_parameter_error _ E5).
  - destruct (nullable_parameter (upd_username updates)) as [username|e3] eqn:E3.
    2:{ intros _. now rewrite (nullable_parameter_error _ E3). }
    destruct (nullable_parameter_returns _ E3) as [-> _].
    destruct (nullable_parameter (upd_encryptedPassword updates)) as [sealed|e4] eqn:E4.
    2:{ intros _. now rewrite (nullable_parameter_error _ E4). }
    destruct (nullable_parameter_returns _ E4) as [-> _].
    destruct (nullable_parameter (upd_category updates)) as [category|e5] eqn:E5;
      [discriminate|].
    intros _. now rewrite (nullable_parameter_error _ E5).
Qed.

(** [updateCredential] by the answer of the database. *)
Lemma updateCredential_cases (now : N) (place : nat) (db : Database)
    (id userId : jsstring) (updates : UpdateCredential) :
  (nul_free id && update_nul_free updates = false
   /\ exists e, updateCredential now place db id userId updates = Throw e)
  \/ (nul_free id && update_nul_free updates = true
      /\ exists sent,
           update_parameters updates = Ok sent
           /\ updateCredential now place db id userId updates
              = Ok ({| users := users db;
                       credentials :=
                         put_at place
                           (map (set_updates now sent)
                              (filter (id_and_owner (scrub id) userId) (credentials db)))
                           (filter (fun c => negb (id_and_owner (scrub id) userId c))
                              (credentials db)) |},
                    match map (set_updates now sent)
                            (filter (id_and_owner (scrub id) userId) (credentials db))
                    with
                    | credential :: _ => Some credential
                    | [] => None
                    end)).
Proof.
  unfold updateCredential.
  destruct (text_parameter id) as [text|e] eqn:Eid.
  - destruct (text_parameter_returns _ Eid) as [-> ->].
    destruct (update_parameters updates) as [sent|e] eqn:Eu.
    + right. destruct (update_parameters_returns _ Eu) as [-> _].
      split; [reflexivity|]. exists sent. split; reflexivity.
    + left. rewrite (update_parameters_error _ Eu). split; [reflexivity|].
      eexists. reflexivity.
  - left. rewrite (text_parameter_error _ Eid). split; [reflexivity|].
    destruct (update_parameters updates); eexists; reflexivity.
Qed.

(** The rows an update wrote are the rows it matched, under the same
    identifier and owner. *)
Lemma written_matched (now : N) (id userId : jsstring) (sent : UpdateCredential)
    (rows : list Credential.t) :
  filter (id_and_owner id userId)
    (map (set_updates now sent) (filter (id_and_owner id userId) rows))
  = map (set_updates now sent) (filter (id_and_owner id userId) rows).
Proof.
  induction rows as [|c rows IH]; [reflexivity|].
  cbn [filter]. destruct (id_and_owner id userId c) eqn:E; [|exact IH].
  cbn [map filter].
  replace (id_and_owner id userId (set_updates now sent c)) with true
    by (symmetry; exact E).
  now rewrite IH.
Qed.

Lemma written_not_left (now : N) (id userId : jsstring) (sent : UpdateCredential)
    (rows : list Credential.t) :
  filter (fun c => negb (id_and_owner id userId c))
    (map (set_updates now sent) (filter (id_and_owner id userId) rows)) = [].
Proof.
  induction rows as [|c rows IH]; [reflexivity|].
  cbn [filter]. destruct (id_and_owner id userId c) eqn:E; [|exact IH].
  cbn [map filter].
  replace (id_and_owner id userId (set_updates now sent c)) with true
    by (symmetry; exact E).
  exact IH.
Qed.

Lemma left_twice {A} (p : A -> bool) (rows : list A) :
  filter (fun c => negb (p c)) (filter (fun c => negb (p c)) rows)
  = filter (fun c => negb (p c)) rows.
Proof.
  induction rows as [|c rows IH]; [reflexivity|].
  cbn [filter]. destruct (p c) eqn:E; cbn [negb]; [exact IH|].
  cbn [filter]. rewrite E. cbn [negb]. now rewrite IH.
Qed.

Lemma none_before {A} (p : A -> bool) (place : nat) (rows : list A) :
  filter p rows = [] -> filter p (firstn place rows) = [].
Proof.
  intro H. rewrite <- (filter_around p place rows) in H.
  now apply app_eq_nil in H.
Qed.

Lemma none_after {A} (p : A -> bool) (place : nat) (rows : list A) :
  filter p rows = [] -> filter p (skipn place rows) = [].
Proof.
  intro H. rewrite <- (filter_around p place rows) in H.
  now apply app_eq_nil in H.
Qed.

(** The table after an update holds the identifiers it held. *)
Lemma ids_after_update (now : N) (place : nat) (id userId : jsstring)
    (sent : UpdateCredential) (rows : list Credential.t) :
  Permutation
    (map Credential.id
       (put_at place (map (set_updates now sent) (filter (id_and_owner id userId) rows))
          (filter (fun c => negb (id_and_owner id userId c)) rows)))
    (map Credential.id rows).
Proof.
  eapply Permutation_trans; [apply Permutation_map, put_at_rearranges|].
  rewrite map_app, map_map. cbn [set_updates Credential.id].
  rewrite <- map_app. apply Permutation_map, matched_and_others.
Qed.

Lemma owners_after_update (now : N) (place : nat) (id userId : jsstring)
    (sent : UpdateCredential) (rows : list Credential.t) (known : jsstring -> Prop) :
  Forall (fun c => known (Credential.userId c)) rows ->
  Forall (fun c => known (Credential.userId c))
    (put_at place (map (set_updates now sent) (filter (id_and_owner id userId) rows))
       (filter (fun c => negb (id_and_owner id userId c)) rows)).
Proof.
  intro H. eapply Permutation_Forall;
    [apply Permutation_sym, put_at_rearranges|].
  rewrite Forall_forall in H. apply Forall_app. split.
  - rewrite Forall_map. apply Forall_forall. intros c Hc.
    apply filter_In in Hc. apply (H c). tauto.
  - apply Forall_forall. intros c Hc. apply filter_In in Hc. apply (H c). tauto.
Qed.

(** The user a name selects after the password of a user was set. *)
Lemma getUserByUsername_after_update (Other : Type)
    (prepareValue : Other -> result (option jsstring)) (db : Database)
    (id password : jsstring) (name : BodyValue Other) :
  getUserByUsername prepareValue (updateUserPassword db id password) name
  = match getUserByUsername prepareValue db name with
    | Ok found =>
        Ok (option_map
              (fun u => if str_eqb (User.id u) id then User.set_password u password else u)
              found)
    | Throw e => Throw e
    end.
Proof.
  unfold getUserByUsername.
  destruct (query_parameter prepareValue name) as [[text|]|e]; try reflexivity.
  f_equal. unfold updateUserPassword. cbn [users].
  induction (users db) as [|u rows IH]; [reflexivity|].
  cbn [map filter].
  assert (E : User.username
                (if str_eqb (User.id u) id then User.set_password u password else u)
              = User.username u) by (destruct (str_eqb (User.id u) id); reflexivity).
  rewrite E. destruct (str_eqb (User.username u) text); [reflexivity | exact IH].
Qed.

End VaultFacts.

Import VaultSpec VaultFacts.

(** X10: no request to the credential routes made without a session, or in
    the session of one user, changes what another user is answered on
    GET /api/credentials, and none changes the table of users. *)
Theorem credential_routes_isolation :
  forall (generated : jsstring) (now : N) (place : nat) (actor : option User.t)
         (other : User.t) (req : Server.Request) (db : Database),
    acts_as actor (User.id other) = false ->
    Server.get_credentials (Some other)
      (fst (Server.credential_routes generated now place actor req db))
    = Server.get_credentials (Some other) db
    /\ users (fst (Server.credential_routes generated now place actor req db))
       = users db.
Proof.
  intros generated now place actor other req db Hother.
  destruct actor as [user|];
    [|destruct req as [|body|id body|id]; split; reflexivity].
  cbn [acts_as] in Hother. apply str_eqb_neq in Hother.
  unfold Server.get_credentials.
  destruct req as [|body|id body|id]; cbn [Server.credential_routes].
  - split; reflexivity.
  - unfold Server.post_credentials.
    destruct body as [validatedData|]; [|split; reflexivity].
    destruct (Server.createCredential generated now place db validatedData
                (User.id user)) as [[db' credential]|e] eqn:E; [|split; reflexivity].
    destruct (createCredential_returns _ _ _ _ _ _ E) as (_ & _ & Hu & Hc & Hrow).
    cbn [fst]. split; [|exact Hu].
    unfold Server.getCredentials. rewrite Hc, filter_put_at_none; [reflexivity|].
    cbn [filter].
    replace (str_eqb (Credential.userId credential) (User.id other)) with false;
      [reflexivity|].
    symmetry. apply str_eqb_neq. rewrite Hrow. exact Hother.
  - unfold Server.put_credential.
    destruct body as [validatedData|]; [|split; reflexivity].
    destruct (updateCredential_cases now place db id (User.id user) validatedData)
      as [(_ & e & E)|(_ & sent & _ & E)]; rewrite E; [split; reflexivity|].
    assert (Hw := @written_not_of_others now (Server.scrub id) (User.id user)
                    (User.id other) sent (credentials db) Hother).
    revert Hw.
    match goal with
    | |- context [match ?written with _ :: _ => _ | [] => None end] =>
        destruct written as [|credential rest]
    end; intro Hw; cbn [fst users credentials]; (split; [|reflexivity]);
      unfold Server.getCredentials; cbn [credentials];
      (rewrite filter_put_at_none; [now rewrite others_unmatched | exact Hw]).
  - unfold Server.delete_credential, Server.deleteCredential.
    destruct (Server.text_parameter id) as [text|e]; [|split; reflexivity].
    destruct (0 <? List.length
                     (filter (Server.id_and_owner text (User.id user)) (credentials db)))%nat;
      cbn [fst users credentials]; (split; [|reflexivity]);
      unfold Server.getCredentials; cbn [credentials];
      now rewrite others_unmatched.
Qed.

Lemma credential_routes_isolation_witness :
  Server.get_credentials (Some alice)
    (fst (Server.credential_routes (lit "c-2") 1700000300 0 (Some bob)
            (Server.DELETE_credential (lit "c-1")) sample_db))
  = Server.get_credentials (Some alice) sample_db.
Proof.
  exact (proj1 (@credential_routes_isolation (lit "c-2") 1700000300 0%nat (Some bob)
                  alice (Server.DELETE_credential (lit "c-1")) sample_db eq_refl)).
Defined.

(** X11: without a session every credential route answers 401 and leaves
    the database as it is. *)
Theorem credential_routes_need_session :
  forall (generated : jsstring) (now : N) (place : nat) (req : Server.Request)
         (db : Database),
    Server.credential_routes generated now place None req db
      = (db, Server.unauthorized)
    /\ Server.code Server.unauthorized = 401%N.
Proof.
  intros generated now place req db. split; [|reflexivity].
  destruct req; reflexivity.
Qed.

(** X12: a credential that POST /api/credentials created (status 201) is
    among what the user is listed next: the new listing is the listing of
    before with the credential put in at some place.  The credential has
    the generated identifier and the session's user as owner.  Its sealed
    password is the one of the request when that is a well-formed string,
    as every text [encrypt] returns is; its URL is null when the request has
    none or an empty one, and its category "other" when the request has none
    or an empty one.  Under an identifier that is plain text it is found
    again. *)
Theorem post_credentials_then_get :
  forall (generated : jsstring) (now : N) (place : nat) (user : User.t)
         (body : InsertCredential) (db db' : Database) (reply : Server.Reply),
    Server.post_credentials generated now place (Some user) (Some body) db
      = (db', reply) ->
    Server.code reply = 201%N ->
    exists credential,
      Server.payload reply = Server.One credential
      /\ (exists listing,
            Server.get_credentials (Some user) db'
            = {| Server.code := 200; Server.payload := Server.Many listing |}
            /\ put_in credential (Server.getCredentials db (User.id user)) listing)
      /\ Credential.id credential = generated
      /\ Credential.userId credential = User.id user
      /\ (well_formed (ins_encryptedPassword body) = true ->
          Credential.encryptedPassword credential = ins_encryptedPassword body)
      /\ match ins_url body with
         | Some (c :: url) =>
             well_formed (c :: url) = true -> Credential.url credential = Some (c :: url)
         | _ => Credential.url credential = None
         end
      /\ match ins_category body with
         | Some (c :: category) =>
             well_formed (c :: category) = true ->
             Credential.category credential = c :: category
         | _ => Credential.category credential = lit "other"
         end
      /\ (plain generated ->
          Server.getCredential db' generated (User.id user) = Ok (Some credential)).
Proof.
  intros generated now place user body db db' reply E Hcode.
  unfold Server.post_credentials in E.
  destruct (Server.createCredential generated now place db body (User.id user))
    as [[db1 credential]|e] eqn:Ec.
  2:{ injection E as <- <-. discriminate Hcode. }
  injection E as <- <-.
  destruct (createCredential_returns _ _ _ _ _ _ Ec) as (Hfresh & _ & Hu & Hc & Hrow).
  assert (Hown : str_eqb (Credential.userId credential) (User.id user) = true)
    by (rewrite Hrow; apply str_eqb_refl).
  exists credential. split; [reflexivity|]. split.
  { eexists. split.
    - unfold Server.get_credentials. reflexivity.
    - unfold Server.getCredentials. rewrite Hc, filter_put_at. cbn [filter].
      rewrite Hown. cbn [app].
      exists (filter (fun c => str_eqb (Credential.userId c) (User.id user))
                (firstn place (credentials db))),
             (filter (fun c => str_eqb (Credential.userId c) (User.id user))
                (skipn place (credentials db))).
      split; [now rewrite filter_around | reflexivity]. }
  assert (Hid : Credential.id credential = generated) by now rewrite Hrow.
  assert (Hsealed : Credential.encryptedPassword credential
                    = Server.scrub (ins_encryptedPassword body)) by now rewrite Hrow.
  assert (Hurl : Credential.url credential
                 = option_map Server.scrub (or_null (ins_url body))) by now rewrite Hrow.
  assert (Hcategory : Credential.category credential
                      = Server.scrub (or_else (ins_category body) (lit "other")))
    by now rewrite Hrow.
  split; [exact Hid|]. split; [now apply str_eqb_eq|].
  split; [intro Hwf; now rewrite Hsealed, scrub_well_formed|]. split; [|split].
  - rewrite Hurl. unfold or_null.
    destruct (ins_url body) as [[|c url]|]; try reflexivity.
    cbn [option_map]. intro Hwf. now rewrite scrub_well_formed.
  - rewrite Hcategory. unfold or_else.
    destruct (ins_category body) as [[|c category]|]; try reflexivity.
    intro Hwf. now rewrite scrub_well_formed.
  - intro Hplain. unfold Server.getCredential.
    rewrite (text_parameter_plain Hplain), Hc, filter_put_at.
    rewrite <- (firstn_skipn place (credentials db)), existsb_app in Hfresh.
    apply orb_false_iff in Hfresh. destruct Hfresh as [Hbefore Hafter].
    rewrite (existsb_false_filter _ _ (fresh_id_unmatched _ (User.id user) _ Hbefore)).
    rewrite (existsb_false_filter _ _ (fresh_id_unmatched _ (User.id user) _ Hafter)).
    cbn [app filter]. unfold Server.id_and_owner.
    now rewrite Hown, Hid, str_eqb_refl.
Qed.

Lemma post_credentials_then_get_witness :
  exists credential,
    snd (Server.post_credentials (lit "c-2") 1700000300 0 (Some bob) (Some bank)
           sample_db)
    = {| Server.code := 201; Server.payload := Server.One credential |}
    /\ Credential.userId credential = lit "u-2"
    /\ Credential.url credential = None
    /\ Credential.category credential = lit "other".
Proof.
  destruct (@post_credentials_then_get (lit "c-2") 1700000300 0%nat bob bank sample_db
              _ _ eq_refl eq_refl)
    as (credential & Hp & _ & _ & Hu & _ & Hurl & Hcat & _).
  exists credential. cbn in Hp. injection Hp as <-.
  split; [reflexivity|]. split; [reflexivity|]. split; reflexivity.
Defined.

(** X13: DELETE /api/credentials/:id in a session.  When the identifier
    holds U+0000 the database refuses it, and the handler answers 500
    "Failed to delete credential" and changes nothing.  Otherwise it answers
    404 and changes nothing when the session's user has no credential with
    this identifier - also when another user has one - and else 204: the
    user's credentials with this identifier are gone, the other credentials
    of the user stay listed, and the identifier is not found any more. *)
Theorem delete_credential_removes :
  forall (user : User.t) (id : jsstring) (db : Database),
    (nul_free id = false
     /\ Server.delete_credential (Some user) id db
        = (db, {| Server.code := 500;
                  Server.payload := Server.Message "Failed to delete credential" |}))
    \/ (nul_free id = true
        /\ Server.getCredential db id (User.id user) = Ok None
        /\ Server.delete_credential (Some user) id db = (db, Server.not_found))
    \/ (nul_free id = true
        /\ exists credential db',
             Server.getCredential db id (User.id user) = Ok (Some credential)
             /\ Server.delete_credential (Some user) id db
                = (db', {| Server.code := 204; Server.payload := Server.SendStatus |})
             /\ users db' = users db
             /\ Server.getCredential db' id (User.id user) = Ok None
             /\ Server.getCredentials db' (User.id user)
                = filter (fun c => negb (str_eqb (Credential.id c) (Server.scrub id)))
                    (Server.getCredentials db (User.id user))).
Proof.
  intros user id db.
  unfold Server.delete_credential, Server.deleteCredential, Server.getCredential.
  destruct (nul_free id) eqn:Hfree.
  - right. rewrite (text_parameter_taken _ Hfree).
    destruct (filter (Server.id_and_owner (Server.scrub id) (User.id user))
                (credentials db)) as [|credential rest] eqn:E.
    + left. split; [reflexivity|]. split; [reflexivity|].
      cbn [List.length Nat.ltb Nat.leb].
      rewrite (filter_unmatched _ _ E). now destruct db.
    + right. split; [reflexivity|].
      exists credential,
        {| users := users db;
           credentials :=
             filter (fun c => negb (Server.id_and_owner (Server.scrub id)
                                      (User.id user) c)) (credentials db) |}.
      split; [reflexivity|]. cbn [List.length Nat.ltb Nat.leb].
      split; [reflexivity|]. split; [reflexivity|]. cbn [credentials]. split.
      * now rewrite filter_filter_negb.
      * unfold Server.getCredentials. cbn [credentials]. clear E.
        induction (credentials db) as [|c rows IH]; [reflexivity|].
        cbn [filter]. unfold Server.id_and_owner at 1.
        destruct (str_eqb (Credential.userId c) (User.id user)) eqn:Eu;
          destruct (str_eqb (Credential.id c) (Server.scrub id)) eqn:Ei;
          cbn [andb negb filter]; rewrite ?Eu, ?Ei; cbn [negb]; now rewrite IH.
  - left. rewrite (text_parameter_refused _ Hfree). split; reflexivity.
Qed.

(** X14: PUT /api/credentials/:id in a session, with a body that the
    schema accepts.  When the identifier or a column of the body holds
    U+0000 the database refuses the statement, and the handler answers 500
    "Failed to update credential" and changes nothing.  Otherwise it answers
    404 and changes nothing when the session's user has no credential with
    this identifier, and else 200 with the updated credential: this has the
    identifier, the owner and the creation time of the credential before,
    the new time of update, the value of before in every column the body
    leaves out, and the sealed password of the body when that is a
    well-formed string.  It is what the identifier finds afterwards.  The
    table of users is unchanged, the rows of the table that are not the
    user's credential with this identifier are the same, in the same order
    among themselves, and the table holds the identifiers it held; where the
    written row lies among the others is not determined. *)
Theorem put_credential_frame :
  forall (now : N) (place : nat) (user : User.t) (id : jsstring)
         (updates : UpdateCredential) (db : Database),
    (nul_free id && update_nul_free updates = false
     /\ Server.put_credential now place (Some user) id (Some updates) db
        = (db, {| Server.code := 500;
                  Server.payload := Server.Message "Failed to update credential" |}))
    \/ (nul_free id && update_nul_free updates = true
        /\ Server.getCredential db id (User.id user) = Ok None
        /\ Server.put_credential now place (Some user) id (Some updates) db
           = (db, Server.not_found))
    \/ (nul_free id && update_nul_free updates = true
        /\ exists credential credential' db',
             Server.getCredential db id (User.id user) = Ok (Some credential)
             /\ Server.put_credential now place (Some user) id (Some updates) db
                = (db', {| Server.code := 200;
                           Server.payload := Server.One credential' |})
             /\ same_identity credential credential'
             /\ Credential.updatedAt credential' = now
             /\ kept_where_left_out updates credential credential'
             /\ (forall sealed,
                   upd_encryptedPassword updates = Some sealed ->
                   well_formed sealed = true ->
                   Credential.encryptedPassword credential' = sealed)
             /\ Server.getCredential db' id (User.id user) = Ok (Some credential')
             /\ users db' = users db
             /\ filter (fun c => negb (Server.id_and_owner (Server.scrub id)
                                         (User.id user) c)) (credentials db')
                = filter (fun c => negb (Server.id_and_owner (Server.scrub id)
                                           (User.id user) c)) (credentials db)
             /\ Permutation (map Credential.id (credentials db'))
                  (map Credential.id (credentials db))).
Proof.
  intros now place user id updates db.
  unfold Server.put_credential.
  destruct (updateCredential_cases now place db id (User.id user) updates)
    as [(Hfree & e & E)|(Hfree & sent & Hsent & E)]; rewrite E.
  { left. split; [exact Hfree | reflexivity]. }
  right. clear E.
  assert (Hid : nul_free id = true) by (apply andb_prop in Hfree; tauto).
  unfold Server.getCredential. rewrite (text_parameter_taken _ Hid).
  destruct (filter (Server.id_and_owner (Server.scrub id) (User.id user))
              (credentials db)) as [|credential rest] eqn:Em.
  - left. split; [exact Hfree|]. split; [reflexivity|].
    cbn [map]. rewrite put_at_nil, (filter_unmatched _ _ Em). now destruct db.
  - right. split; [exact Hfree|]. cbn [map].
    exists credential, (Server.set_updates now sent credential).
    eexists. split; [reflexivity|]. split; [reflexivity|].
    split; [apply set_updates_identity|]. split; [reflexivity|].
    destruct (update_parameters_returns _ Hsent) as [_ Esent].
    split; [|split].
    { rewrite Esent. unfold kept_where_left_out.
      cbn [Server.set_updates Credential.name Credential.url Credential.username
           Credential.encryptedPassword Credential.category
           upd_name upd_url upd_username upd_encryptedPassword upd_category].
      repeat split; intros ->; reflexivity. }
    { intros sealed Hsealed Hwf. rewrite Esent.
      cbn [Server.set_updates Credential.encryptedPassword upd_encryptedPassword].
      rewrite Hsealed. cbn [option_map]. now apply scrub_well_formed. }
    cbn [users credentials].
    assert (Hwritten : Server.set_updates now sent credential
                         :: map (Server.set_updates now sent) rest
                       = map (Server.set_updates now sent)
                           (filter (Server.id_and_owner (Server.scrub id) (User.id user))
                              (credentials db))) by now rewrite Em.
    rewrite Hwritten. split; [|split; [reflexivity|split]].
    + rewrite filter_put_at, written_matched.
      rewrite (none_before _ place _ (filter_filter_negb _ _)).
      rewrite (none_after _ place _ (filter_filter_negb _ _)).
      now rewrite <- Hwritten.
    + rewrite filter_put_at_none; [apply left_twice | apply written_not_left].
    + apply ids_after_update.
Qed.

(** X15: the constraints of the schema - distinct identifiers of users and
    of credentials, distinct usernames, every credential owned by a user -
    hold after every request to the credential routes, after every password
    reset and after every creation of a user, when they held before. *)
Theorem constraints_preserved :
  forall (Other : Type) (prepareValue : Other -> result (option jsstring))
         (compareRecoveryKeys : BodyValue Other -> jsstring -> result bool)
         (hashPassword : list byte -> BodyValue Other -> result jsstring)
         (salt : list byte) (reset : ResetRequest Other)
         (generated : jsstring) (now : N) (place : nat) (session : option User.t)
         (req : Server.Request) (insertUser : InsertUser) (db : Database),
    consistent db ->
    consistent (fst (Server.credential_routes generated now place session req db))
    /\ consistent (fst (Server.reset_password prepareValue compareRecoveryKeys
                          hashPassword salt db reset))
    /\ (forall db' user,
          Server.createUser generated now db insertUser = Ok (db', user) ->
          consistent db').
Proof.
  intros Other prepareValue compareRecoveryKeys hashPassword salt reset generated now
         place session req insertUser db (Hid & Hname & Hcid & Hfk).
  split; [|split].
  - destruct session as [user|]; [|now destruct req].
    destruct req as [|body|id body|id]; cbn [Server.credential_routes fst].
    + repeat split; assumption.
    + unfold Server.post_credentials.
      destruct body as [validatedData|]; [|repeat split; assumption].
      destruct (Server.createCredential generated now place db validatedData
                  (User.id user))
        as [[db' credential]|e] eqn:E; [|repeat split; assumption].
      destruct (createCredential_returns _ _ _ _ _ _ E)
        as (Hfresh & Howner & Hu & Hc & Hrow).
      assert (Eid : Credential.id credential = generated) by now rewrite Hrow.
      assert (Eowner : Credential.userId credential = User.id user) by now rewrite Hrow.
      cbn [fst]. unfold consistent. rewrite Hu, Hc.
      split; [assumption|]. split; [assumption|]. split.
      * eapply Permutation_NoDup;
          [apply Permutation_sym, Permutation_map, put_at_rearranges|].
        cbn [app map]. constructor; [|assumption].
        rewrite Eid. now apply existsb_false_not_in.
      * eapply Permutation_Forall; [apply Permutation_sym, put_at_rearranges|].
        cbn [app]. constructor; [|assumption].
        rewrite Eowner. now apply existsb_true_in.
    + unfold Server.put_credential.
      destruct body as [validatedData|]; [|repeat split; assumption].
      destruct (updateCredential_cases now place db id (User.id user) validatedData)
        as [(_ & e & E)|(_ & sent & _ & E)]; rewrite E; [repeat split; assumption|].
      assert (Hdb : consistent
                      {| users := users db;
                         credentials :=
                           Server.put_at place
                             (map (Server.set_updates now sent)
                                (filter (Server.id_and_owner (Server.scrub id)
                                           (User.id user)) (credentials db)))
                             (filter (fun c => negb (Server.id_and_owner
                                                       (Server.scrub id)
                                                       (User.id user) c))
                                (credentials db)) |}).
      { unfold consistent. cbn [users credentials].
        split; [assumption|]. split; [assumption|]. split.
        - eapply Permutation_NoDup;
            [apply Permutation_sym, ids_after_update | assumption].
        - exact (owners_after_update now place (Server.scrub id) (User.id user) sent
                   (fun owner => In owner (map User.id (users db))) Hfk). }
      now destruct (map (Server.set_updates now sent)
                      (filter (Server.id_and_owner (Server.scrub id) (User.id user))
                         (credentials db))).
    + unfold Server.delete_credential, Server.deleteCredential.
      destruct (Server.text_parameter id) as [text|e]; [|repeat split; assumption].
      assert (Hdb : consistent
                      {| users := users db;
                         credentials :=
                           filter (fun c => negb (Server.id_and_owner text
                                                    (User.id user) c))
                             (credentials db) |}).
      { unfold consistent. cbn [users credentials].
        split; [assumption|]. split; [assumption|]. split.
        - now apply ids_after_delete.
        - apply Forall_forall. intros c Hc. apply filter_In in Hc.
          rewrite Forall_forall in Hfk. apply Hfk. tauto. }
      now destruct (0 <? List.length
                           (filter (Server.id_and_owner text (User.id user))
                              (credentials db)))%nat.
  - assert (Hupd : forall id password,
              consistent (Server.updateUserPassword db id password)).
    { intros id password. unfold Server.updateUserPassword, consistent.
      cbn [users credentials].
      assert (Eid : map User.id
                      (map (fun u => if str_eqb (User.id u) id
                                     then User.set_password u password else u)
                           (users db))
                    = map User.id (users db)).
      { rewrite map_map. apply map_ext. intro u.
        now destruct (str_eqb (User.id u) id). }
      assert (Ename : map User.username
                        (map (fun u => if str_eqb (User.id u) id
                                       then User.set_password u password else u)
                             (users db))
                      = map User.username (users db)).
      { rewrite map_map. apply map_ext. intro u.
        now destruct (str_eqb (User.id u) id). }
      rewrite Eid, Ename. repeat split; assumption. }
    unfold Server.reset_password.
    destruct (Server.verifyRecoveryKey prepareValue compareRecoveryKeys db
                (req_username reset) (req_recoveryKey reset)) as [[user|]|e];
      try (repeat split; assumption).
    destruct (hashPassword salt (req_newPassword reset)) as [hashed|e];
      [apply Hupd | repeat split; assumption].
  - intros db' user. unfold Server.createUser.
    destruct (Server.text_parameter (new_username insertUser)) as [username|e];
      [|discriminate].
    destruct (Server.text_parameter (new_password insertUser)) as [password|e];
      [|discriminate].
    destruct (Server.text_parameter (new_recoveryKey insertUser)) as [recoveryKey|e];
      [|discriminate].
    destruct (existsb (fun u => str_eqb (User.id u) generated) (users db)) eqn:Efresh;
      [discriminate|].
    destruct (existsb (fun u => str_eqb (User.username u) username)
                (users db)) eqn:Ename; [discriminate|].
    intro H. injection H as <- <-. unfold consistent. cbn [users credentials].
    rewrite !map_app. cbn [map User.id User.username]. split; [|split; [|split]].
    + apply NoDup_app_one; [assumption | now apply existsb_false_not_in].
    + apply NoDup_app_one; [assumption | now apply existsb_false_not_in].
    + assumption.
    + eapply Forall_impl; [|exact Hfk]. intros c Hc. apply in_or_app. now left.
Qed.

Lemma constraints_preserved_witness :
  consistent sample_db
  /\ consistent
       (fst (Server.credential_routes (lit "c-2") 1700000300 0 (Some bob)
               (Server.POST_credentials (Some bank)) sample_db)).
Proof.
  assert (H : consistent sample_db).
  { unfold consistent. cbn.
    repeat split; repeat constructor; cbn; intuition discriminate. }
  split; [exact H|].
  exact (proj1 (@constraints_preserved unit sample_prepare sample_compare sample_hash
                  [x2a] good_reset (lit "c-2") 1700000300 0%nat (Some bob)
                  (Server.POST_credentials (Some bank)) carol sample_db H)).
Defined.

(** X16: POST /api/validate-recovery-key answers as the check of
    POST /api/reset-password does: 400 "Invalid username or recovery key" in
    the same cases, for an unknown username as for a key that does not
    match, and 500 where the lookup or the comparison throws.  When it
    answers 200 it names the identifier of the user, and the reset with the
    same username and key is not rejected as invalid. *)
Theorem validate_agrees_with_reset :
  forall (Other : Type) (prepareValue : Other -> result (option jsstring))
         (compareRecoveryKeys : BodyValue Other -> jsstring -> result bool)
         (hashPassword : list byte -> BodyValue Other -> result jsstring)
         (salt : list byte) (db : Database) (req : ResetRequest Other),
    (Server.validate_recovery_key prepareValue compareRecoveryKeys db
       (req_username req) (req_recoveryKey req)
     = {| Server.code := 400;
          Server.payload := Server.Message "Invalid username or recovery key" |}
     /\ Server.reset_password prepareValue compareRecoveryKeys hashPassword salt db req
        = (db, {| status := 400; message := "Invalid username or recovery key" |})
     /\ (Server.getUserByUsername prepareValue db (req_username req) = Ok None
         \/ exists user,
              Server.getUserByUsername prepareValue db (req_username req)
              = Ok (Some user)
              /\ compareRecoveryKeys (req_recoveryKey req) (User.recoveryKey user)
                 = Ok false))
    \/ (Server.validate_recovery_key prepareValue compareRecoveryKeys db
          (req_username req) (req_recoveryKey req)
        = {| Server.code := 500;
             Server.payload := Server.Message "Failed to validate recovery key" |}
        /\ Server.reset_password prepareValue compareRecoveryKeys hashPassword salt
             db req
           = (db, {| status := 500; message := "Failed to reset password" |}))
    \/ (exists user,
          Server.getUserByUsername prepareValue db (req_username req) = Ok (Some user)
          /\ Server.validate_recovery_key prepareValue compareRecoveryKeys db
               (req_username req) (req_recoveryKey req)
             = {| Server.code := 200; Server.payload := Server.ValidKey (User.id user) |}
          /\ (status (snd (Server.reset_password prepareValue compareRecoveryKeys
                             hashPassword salt db req)) = 200%N
              \/ status (snd (Server.reset_password prepareValue compareRecoveryKeys
                                hashPassword salt db req)) = 500%N)).
Proof.
  intros Other prepareValue compareRecoveryKeys hashPassword salt db req.
  unfold Server.validate_recovery_key, Server.reset_password, Server.verifyRecoveryKey.
  destruct (Server.getUserByUsername prepareValue db (req_username req))
    as [[user|]|e] eqn:Eu.
  - destruct (compareRecoveryKeys (req_recoveryKey req) (User.recoveryKey user))
      as [[|]|e] eqn:Ec.
    + right. right. exists user. split; [reflexivity|]. split; [reflexivity|].
      destruct (hashPassword salt (req_newPassword req)); [left | right]; reflexivity.
    + left. split; [reflexivity|]. split; [reflexivity|].
      right. exists user. split; [reflexivity | exact Ec].
    + right. left. split; reflexivity.
  - left. split; [reflexivity|]. split; [reflexivity|]. now left.
  - right. left. split; reflexivity.
Qed.

(** X17: a password reset that is not answered with status 200 leaves the
    database as it is. *)
Theorem failed_reset_changes_nothing :
  forall (Other : Type) (prepareValue : Other -> result (option jsstring))
         (compareRecoveryKeys : BodyValue Other -> jsstring -> result bool)
         (hashPassword : list byte -> BodyValue Other -> result jsstring)
         (salt : list byte) (db : Database) (req : ResetRequest Other),
    status (snd (Server.reset_password prepareValue compareRecoveryKeys hashPassword
                   salt db req))
      = 200%N
    \/ (fst (Server.reset_password prepareValue compareRecoveryKeys hashPassword
               salt db req) = db
        /\ (status (snd (Server.reset_password prepareValue compareRecoveryKeys
                           hashPassword salt db req)) = 400%N
            \/ status (snd (Server.reset_password prepareValue compareRecoveryKeys
                              hashPassword salt db req)) = 500%N)).
Proof.
  intros Other prepareValue compareRecoveryKeys hashPassword salt db req.
  unfold Server.reset_password.
  destruct (Server.verifyRecoveryKey prepareValue compareRecoveryKeys db
              (req_username req) (req_recoveryKey req)) as [[user|]|e].
  - destruct (hashPassword salt (req_newPassword req)) as [hashed|e].
    + left. reflexivity.
    + right. split; [reflexivity | right; reflexivity].
  - right. split; [reflexivity | left; reflexivity].
  - right. split; [reflexivity | right; reflexivity].
Qed.

(** X18: a recovery key is not used up by a reset.  After a reset that
    succeeded, the same username and recovery key are verified again, for
    the same account with its new password hash, so that a further reset
    with them is never rejected as invalid. *)
Theorem recovery_key_survives_reset :
  forall (Other : Type) (prepareValue : Other -> result (option jsstring))
         (compareRecoveryKeys : BodyValue Other -> jsstring -> result bool)
         (hashPassword : list byte -> BodyValue Other -> result jsstring)
         (salt salt' : list byte) (db db' : Database)
         (req again : ResetRequest Other) (resp : Response),
    Server.reset_password prepareValue compareRecoveryKeys hashPassword salt db req
      = (db', resp) ->
    status resp = 200%N ->
    req_username again = req_username req ->
    req_recoveryKey again = req_recoveryKey req ->
    (exists user hashed,
       Server.verifyRecoveryKey prepareValue compareRecoveryKeys db (req_username req)
         (req_recoveryKey req) = Ok (Some user)
       /\ hashPassword salt (req_newPassword req) = Ok hashed
       /\ Server.verifyRecoveryKey prepareValue compareRecoveryKeys db'
            (req_username req) (req_recoveryKey req)
          = Ok (Some (User.set_password user hashed)))
    /\ (status (snd (Server.reset_password prepareValue compareRecoveryKeys
                       hashPassword salt' db' again)) = 200%N
        \/ snd (Server.reset_password prepareValue compareRecoveryKeys hashPassword
                  salt' db' again)
           = Server.reset_failed).
Proof.
  intros Other prepareValue compareRecoveryKeys hashPassword salt salt' db db' req
         again resp E Hstatus Hname Hkey.
  unfold Server.reset_password in E.
  destruct (Server.verifyRecoveryKey prepareValue compareRecoveryKeys db
              (req_username req) (req_recoveryKey req)) as [[user|]|e] eqn:Ev;
    try (injection E as <- <-; discriminate Hstatus).
  destruct (hashPassword salt (req_newPassword req)) as [hashed|e] eqn:Eh;
    [|injection E as <- <-; discriminate Hstatus].
  injection E as <- <-.
  assert (Hagain : Server.verifyRecoveryKey prepareValue compareRecoveryKeys
                     (Server.updateUserPassword db (User.id user) hashed)
                     (req_username req) (req_recoveryKey req)
                   = Ok (Some (User.set_password user hashed))).
  { unfold Server.verifyRecoveryKey in *.
    rewrite getUserByUsername_after_update.
    destruct (Server.getUserByUsername prepareValue db (req_username req))
      as [[found|]|e]; try discriminate Ev.
    cbn [option_map].
    destruct (compareRecoveryKeys (req_recoveryKey req) (User.recoveryKey found))
      as [[|]|e] eqn:Ec; try discriminate Ev.
    injection Ev as ->. rewrite str_eqb_refl.
    cbn [User.set_password User.recoveryKey]. now rewrite Ec. }
  split.
  - exists user, hashed. split; [reflexivity|]. split; [reflexivity | exact Hagain].
  - unfold Server.reset_password. rewrite Hname, Hkey, Hagain.
    destruct (hashPassword salt' (req_newPassword again)); [left | right]; reflexivity.
Qed.

Lemma recovery_key_survives_reset_witness :
  Server.verifyRecoveryKey sample_prepare sample_compare
    (fst (Server.reset_password sample_prepare sample_compare sample_hash [x2a]
            sample_db good_reset))
    (AString (lit "alice")) (AString (lit "apple brave coral"))
  = Ok (Some (User.set_password alice (lit "2a.NewSecret456!"))).
Proof.
  destruct (@recovery_key_survives_reset unit sample_prepare sample_compare sample_hash
              [x2a] [x2b] sample_db _ good_reset good_reset _
              eq_refl eq_refl eq_refl eq_refl)
    as [(user & hashed & Hv & Hh & Hagain) _].
  cbn in Hv. injection Hv as <-. cbn in Hh. injection Hh as <-.
  exact Hagain.
Defined.



(** ** Export and import *)

Module TransferFacts.
Import ImportExport TransferSpec.

Lemma sanitizeForCSV_starts (value : jsstring) :
  starts_formula (sanitizeForCSV value) = false.
Proof.
  destruct value as [|c rest]; [reflexivity|].
  cbn [sanitizeForCSV]. destruct (formula_char c) eqn:E; [reflexivity | exact E].
Qed.

Lemma sanitizeForCSV_fixed (value : jsstring) :
  starts_formula value = false -> sanitizeForCSV value = value.
Proof.
  destruct value as [|c rest]; [reflexivity|].
  cbn [starts_formula sanitizeForCSV]. now intros ->.
Qed.

Lemma sanitizeForCSV_quoted (value : jsstring) :
  starts_formula value = true -> sanitizeForCSV value = apostrophe :: value.
Proof.
  destruct value as [|c rest]; [discriminate|].
  cbn [starts_formula sanitizeForCSV]. now intros ->.
Qed.

Lemma sanitizeForCSV_length (value : jsstring) :
  List.length value <> 0%nat -> List.length (sanitizeForCSV value) <> 0%nat.
Proof.
  destruct value as [|c rest]; [tauto|].
  cbn [sanitizeForCSV]. now destruct (formula_char c).
Qed.

(** The loop of the export adds to the rows and the errors it is given. *)
Lemma export_loop_adds (masterKey : jsstring) (credentials : list Credential.t) :
  forall (rnd : nat -> N * N) (rows0 : list ExportRow) (errors0 : list jsstring),
    export_loop rnd masterKey credentials rows0 errors0
    = (rows0 ++ fst (export_loop rnd masterKey credentials [] []),
       errors0 ++ snd (export_loop rnd masterKey credentials [] [])).
Proof.
  induction credentials as [|cred rest IH]; intros rnd rows0 errors0.
  - cbn. now rewrite !app_nil_r.
  - cbn [export_loop].
    destruct (PasswordCrypto.decrypt (rnd 0%nat) (Credential.encryptedPassword cred)
                masterKey) as [p|e].
    + rewrite (IH _ (rows0 ++ _) errors0), (IH _ ([] ++ _) []).
      cbn [fst snd app]. now rewrite <- app_assoc.
    + rewrite (IH _ rows0 (errors0 ++ _)), (IH _ [] ([] ++ _)).
      cbn [fst snd app]. now rewrite <- app_assoc.
Qed.

Lemma export_loop_cons (rnd : nat -> N * N) (masterKey : jsstring)
    (cred : Credential.t) (rest : list Credential.t) :
  export_loop rnd masterKey (cred :: rest) [] []
  = let later := export_loop (fun i => rnd (S i)) masterKey rest [] [] in
    match PasswordCrypto.decrypt (rnd 0%nat) (Credential.encryptedPassword cred)
            masterKey with
    | Ok p => (row_of cred p :: fst later, snd later)
    | Throw _ =>
        (fst later,
         (lit "Failed to decrypt password for " ++ [double_quote]
            ++ Credential.name cred ++ [double_quote]) :: snd later)
    end.
Proof.
  cbn [export_loop].
  destruct (PasswordCrypto.decrypt (rnd 0%nat) (Credential.encryptedPassword cred)
              masterKey) as [p|e]; rewrite export_loop_adds; reflexivity.
Qed.

(** A loop over two lists, one after the other. *)
Section Loops.
Variable Net : Type.
Variable apiRequest_POST : InsertCredential -> Net -> result unit * Net.

Lemma for_of_app (masterKey : jsstring) (a b : list (option Properties)) :
  forall st : ImportState Net,
    for_of apiRequest_POST masterKey (a ++ b) st
    = match for_of apiRequest_POST masterKey a st with
      | Normal st' => for_of apiRequest_POST masterKey b st'
      | Escaped st' => Escaped st'
      end.
Proof.
  induction a as [|cred a IH]; intro st; [reflexivity|].
  cbn [app for_of].
  destruct (import_record apiRequest_POST masterKey cred st); [apply IH | reflexivity].
Qed.

(** The loop over the chunks is the loop over what is left of the list. *)
Lemma chunks_from_skipn (masterKey : jsstring) (credentials : list (option Properties)) :
  forall (bound i : nat) (st : ImportState Net),
    (List.length credentials <= i + bound)%nat ->
    chunks_from apiRequest_POST bound i masterKey credentials st
    = for_of apiRequest_POST masterKey (skipn i credentials) st.
Proof.
  induction bound as [|bound IH]; intros i st Hbound.
  - rewrite skipn_all2 by lia. reflexivity.
  - cbn [chunks_from].
    destruct (i <? List.length credentials)%nat eqn:Ei.
    + apply Nat.ltb_lt in Ei. unfold slice.
      replace (i + CHUNK_SIZE - i)%nat with CHUNK_SIZE by lia.
      rewrite <- (firstn_skipn CHUNK_SIZE (skipn i credentials)) at 2.
      rewrite for_of_app.
      destruct (for_of apiRequest_POST masterKey
                  (firstn CHUNK_SIZE (skipn i credentials)) st) as [st'|st'];
        [|reflexivity].
      rewrite skipn_skipn, (Nat.add_comm CHUNK_SIZE i).
      apply IH. unfold CHUNK_SIZE. lia.
    + apply Nat.ltb_ge in Ei. rewrite skipn_all2 by lia. reflexivity.
Qed.



End Loops.

(** What the import makes of a record whose five properties are strings,
    the password not empty. *)
Lemma import_record_sends :
  forall (Net : Type) (apiRequest_POST : InsertCredential -> Net -> result unit * Net)
         (masterKey : jsstring) (row : ImportExport.ExportRow)
         (st : ImportExport.ImportState Net),
    well_formed masterKey = true ->
    well_formed (ImportExport.row_password row) = true ->
    List.length (ImportExport.row_password row) <> 0%nat ->
    exists sealed st',
      PasswordCrypto.encrypt (ImportExport.random st 0%nat)
        (ImportExport.row_password row) masterKey = Ok sealed
      /\ (forall rnd, PasswordCrypto.decrypt rnd sealed masterKey
                      = Ok (ImportExport.row_password row))
      /\ ImportExport.import_record apiRequest_POST masterKey (Some (reread row)) st
         = ImportExport.Normal st'
      /\ ImportExport.net st'
         = snd (apiRequest_POST
                  {| ins_name := ImportExport.row_name row;
                     ins_url := match ImportExport.row_url row with
                                | [] => None
                                | c :: url => Some (c :: url)
                                end;
                     ins_username := ImportExport.row_username row;
                     ins_encryptedPassword := sealed;
                     ins_category :=
                       Some match ImportExport.row_category row with
                            | [] => lit "other"
                            | c :: category => c :: category
                            end |}
                  (ImportExport.net st))
      /\ (ImportExport.successful (ImportExport.counts st')
          + ImportExport.failed (ImportExport.counts st')
          = S (ImportExport.successful (ImportExport.counts st)
               + ImportExport.failed (ImportExport.counts st)))%nat.
Proof.
  intros Net apiRequest_POST masterKey row st Hk Hp Hne.
  destruct (decrypt_encrypt (ImportExport.random st 0%nat) (0, 0)%N
              (ImportExport.row_password row) masterKey Hp Hk) as (sealed & Es & _).
  assert (Hopen : forall rnd, PasswordCrypto.decrypt rnd sealed masterKey
                              = Ok (ImportExport.row_password row)).
  { intro rnd.
    destruct (decrypt_encrypt (ImportExport.random st 0%nat) rnd
                (ImportExport.row_password row) masterKey Hp Hk) as (sealed' & Es' & Ed).
    rewrite Es in Es'. injection Es' as <-. rewrite Ed.
    destruct (ImportExport.row_password row); [contradiction Hne; reflexivity|].
    reflexivity. }
  exists sealed.
  unfold ImportExport.import_record, reread.
  cbn [ImportExport.prop_name ImportExport.prop_url ImportExport.prop_username
       ImportExport.prop_password ImportExport.prop_category].
  destruct (ImportExport.row_password row) as [|p0 password] eqn:Epw;
    [contradiction Hne; reflexivity|].
  destruct (ImportExport.row_url row) as [|u0 url];
    destruct (ImportExport.row_category row) as [|c0 category];
    cbn [ImportExport.or_value ImportExport.truthy ImportExport.safeParse];
    cbv zeta;
    cbn [ImportExport.random ImportExport.counts ImportExport.net
         ImportExport.valid_name ImportExport.valid_url ImportExport.valid_username
         ImportExport.valid_password ImportExport.valid_category];
    rewrite Es; cbv beta iota; unfold jsstring, code_unit;
    match goal with
    | |- context [apiRequest_POST ?body (ImportExport.net st)] =>
        destruct (apiRequest_POST body (ImportExport.net st)) as [[u|e] net']
    end;
    eexists; (split; [reflexivity|]); (split; [exact Hopen|]);
    (split; [reflexivity|]); (split; [reflexivity|]);
    cbn [ImportExport.count_failed ImportExport.counts ImportExport.successful
         ImportExport.failed]; lia.
Qed.

End TransferFacts.

Import TransferSpec TransferFacts.

(** X20: a value that [sanitizeForCSV] returns never starts with "=", "+",
    "-" or "@", and sanitizing it again changes nothing.  A value that
    starts with none of them is returned as it is; every other value is
    returned behind an apostrophe - and so is exported like the value that
    had this apostrophe already. *)
Theorem sanitizeForCSV_neutralizes :
  forall value : jsstring,
    starts_formula (ImportExport.sanitizeForCSV value) = false
    /\ ImportExport.sanitizeForCSV (ImportExport.sanitizeForCSV value)
       = ImportExport.sanitizeForCSV value
    /\ (if starts_formula value
        then ImportExport.sanitizeForCSV value = ImportExport.apostrophe :: value
             /\ ImportExport.sanitizeForCSV (ImportExport.apostrophe :: value)
                = ImportExport.sanitizeForCSV value
        else ImportExport.sanitizeForCSV value = value)
    /\ (starts_formula (lit "=1+1") = true /\ starts_formula (lit "+1") = true
        /\ starts_formula (lit "-1") = true /\ starts_formula (lit "@A1") = true
        /\ starts_formula (lit "1=1") = false
        /\ ImportExport.sanitizeForCSV (lit "=1+1") = lit "'=1+1").
Proof.
  intro value. split; [apply sanitizeForCSV_starts|]. split; [|split].
  - apply sanitizeForCSV_fixed, sanitizeForCSV_starts.
  - destruct (starts_formula value) eqn:E.
    + split; [now apply sanitizeForCSV_quoted|].
      rewrite (sanitizeForCSV_quoted value E). reflexivity.
    + now apply sanitizeForCSV_fixed.
  - repeat split.
Qed.

(** X21: the export accounts for every credential: it is given a row or an
    error, "Failed to decrypt password for" with its name.  In every row
    the password is not empty, and no field starts with "=", "+", "-" or
    "@".  Without a user, or with a master key that is missing or empty,
    nothing is exported. *)
Theorem export_accounts_for_credentials :
  forall (rnd : nat -> N * N) (user : option AuthUser) (masterKey : option jsstring)
         (credentials : list Credential.t),
    match ImportExport.exportMutation rnd user masterKey credentials with
    | Ok (rows, errors) =>
        (List.length rows + List.length errors = List.length credentials)%nat
        /\ Forall (fun row =>
                     List.length (ImportExport.row_password row) <> 0%nat
                     /\ starts_formula (ImportExport.row_name row) = false
                     /\ starts_formula (ImportExport.row_url row) = false
                     /\ starts_formula (ImportExport.row_username row) = false
                     /\ starts_formula (ImportExport.row_password row) = false
                     /\ starts_formula (ImportExport.row_category row) = false) rows
        /\ Forall (fun error =>
                     exists cred, In cred credentials
                       /\ error = lit "Failed to decrypt password for "
                                    ++ [ImportExport.double_quote]
                                    ++ Credential.name cred
                                    ++ [ImportExport.double_quote]) errors
        /\ user <> None
        /\ exists key, masterKey = Some key /\ List.length key <> 0%nat
    | Throw e =>
        e = ImportExport.not_available
        /\ (user = None \/ masterKey = None \/ masterKey = Some [])
    end.
Proof.
  intros rnd user masterKey credentials. unfold ImportExport.exportMutation.
  destruct user as [user|]; [|split; [reflexivity | now left]].
  destruct masterKey as [[|c key]|]; cbn [or_null];
    [split; [reflexivity | right; now right] |
     | split; [reflexivity | right; now left]].
  assert (Hloop : forall creds rnd,
    let out := ImportExport.export_loop rnd (c :: key) creds [] [] in
    (List.length (fst out) + List.length (snd out) = List.length creds)%nat
    /\ Forall (fun row =>
                 List.length (ImportExport.row_password row) <> 0%nat
                 /\ starts_formula (ImportExport.row_name row) = false
                 /\ starts_formula (ImportExport.row_url row) = false
                 /\ starts_formula (ImportExport.row_username row) = false
                 /\ starts_formula (ImportExport.row_password row) = false
                 /\ starts_formula (ImportExport.row_category row) = false) (fst out)
    /\ Forall (fun error =>
                 exists cred, In cred creds
                   /\ error = lit "Failed to decrypt password for "
                                ++ [ImportExport.double_quote]
                                ++ Credential.name cred
                                ++ [ImportExport.double_quote]) (snd out)).
  { induction creds as [|cred rest IH]; intro rnd0; cbv zeta.
    - cbn. repeat split; constructor.
    - rewrite export_loop_cons. cbv zeta.
      specialize (IH (fun i => rnd0 (S i))). cbv zeta in IH.
      destruct IH as (Hlen & Hrows & Herrors).
      assert (Herrors' :
        Forall (fun error =>
                  exists cred0, In cred0 (cred :: rest)
                    /\ error = lit "Failed to decrypt password for "
                                 ++ [ImportExport.double_quote]
                                 ++ Credential.name cred0
                                 ++ [ImportExport.double_quote])
          (snd (ImportExport.export_loop (fun i => rnd0 (S i)) (c :: key) rest [] []))).
      { eapply Forall_impl; [|exact Herrors].
        intros error (cred0 & Hin & E). exists cred0. split; [now right | exact E]. }
      destruct (decrypt_outcomes (rnd0 0%nat) (Credential.encryptedPassword cred) (c :: key))
        as [E|(p & d & E & Hne & _)]; rewrite E; cbn [fst snd List.length].
      + split; [lia|]. split; [exact Hrows|].
        constructor; [|exact Herrors'].
        exists cred. split; [now left | reflexivity].
      + split; [lia|]. split; [|exact Herrors'].
        constructor; [|exact Hrows].
        unfold row_of. cbn [ImportExport.row_name ImportExport.row_url
                            ImportExport.row_username ImportExport.row_password
                            ImportExport.row_category].
        rewrite !sanitizeForCSV_starts. split; [|repeat split].
        apply sanitizeForCSV_length. destruct p; [contradiction | discriminate]. }
  specialize (Hloop credentials rnd). cbv zeta in Hloop.
  destruct (ImportExport.export_loop rnd (c :: key) credentials [] []) as [rows errors].
  cbn [fst snd] in Hloop. destruct Hloop as (Hlen & Hrows & Herrors).
  split; [exact Hlen|]. split; [exact Hrows|]. split; [exact Herrors|].
  split; [discriminate|]. exists (c :: key). split; [reflexivity | discriminate].
Qed.

(** X22: credentials that were sealed under the master key, each from a
    password that is not empty, are all exported, without an error, in
    their order; the password of each row is the password that was sealed,
    behind an apostrophe when it starts with "=", "+", "-" or "@" - in the
    JSON export as in the CSV export. *)
Theorem export_returns_sealed_passwords :
  forall (rnd : nat -> N * N) (user : AuthUser) (masterKey : jsstring)
         (credentials : list Credential.t) (passwords : list jsstring),
    List.length masterKey <> 0%nat ->
    Forall2 (fun cred password =>
               List.length password <> 0%nat
               /\ exists salt,
                    PasswordCrypto.encrypt salt password masterKey
                    = Ok (Credential.encryptedPassword cred))
      credentials passwords ->
    exists rows,
      ImportExport.exportMutation rnd (Some user) (Some masterKey) credentials
      = Ok (rows, [])
      /\ map ImportExport.row_password rows
         = map (fun password =>
                  if starts_formula password
                  then ImportExport.apostrophe :: password
                  else password) passwords
      /\ map ImportExport.row_name rows
         = map (fun cred => ImportExport.sanitizeForCSV (Credential.name cred))
             credentials.
Proof.
  intros rnd user masterKey credentials passwords Hkey Hsealed.
  unfold ImportExport.exportMutation.
  destruct masterKey as [|c key]; [contradiction Hkey; reflexivity|].
  cbn [or_null].
  assert (Hloop : forall rnd,
    exists rows,
      ImportExport.export_loop rnd (c :: key) credentials [] [] = (rows, [])
      /\ map ImportExport.row_password rows
         = map (fun password =>
                  if starts_formula password
                  then ImportExport.apostrophe :: password
                  else password) passwords
      /\ map ImportExport.row_name rows
         = map (fun cred => ImportExport.sanitizeForCSV (Credential.name cred))
             credentials).
  { induction Hsealed as [|cred password rest passwords' (Hne & salt & Eseal) _ IH];
      intro rnd0.
    - exists []. repeat split.
    - rewrite export_loop_cons. cbv zeta.
      destruct (IH (fun i => rnd0 (S i))) as (rows & E & Hpw & Hnames).
      rewrite E. cbn [fst snd].
      destruct (BlobFacts.encrypt_well_formed _ _ _ Eseal) as [Hp Hk].
      destruct (decrypt_encrypt salt (rnd0 0%nat) password (c :: key) Hp Hk)
        as (sealed & Es & Ed).
      rewrite Eseal in Es. injection Es as <-. rewrite Ed.
      destruct password as [|p0 password]; [contradiction Hne; reflexivity|].
      cbn [opened]. eexists. split; [reflexivity|].
      cbn [map row_of ImportExport.row_password ImportExport.row_name].
      rewrite Hpw, Hnames. split; reflexivity. }
  destruct (Hloop rnd) as (rows & E & Hpw & Hnames).
  exists rows. rewrite E. auto.
Qed.

Lemma export_returns_sealed_passwords_witness :
  exists rows,
    ImportExport.exportMutation salts
      (Some {| auth_username := lit "alice"; auth_password := None |})
      (Some alice_key) [VaultSpec.mail] = Ok (rows, [])
    /\ map ImportExport.row_password rows = [lit "site-password"].
Proof.
  destruct (@export_returns_sealed_passwords salts
              {| auth_username := lit "alice"; auth_password := None |}
              alice_key [VaultSpec.mail] [lit "site-password"])
    as (rows & E & Hpw & _).
  - discriminate.
  - constructor; [|constructor]. split; [discriminate|].
    exists sample_salt. vm_compute. reflexivity.
  - exists rows. split; [exact E | exact Hpw].
Defined.

(** X23: the import in chunks of 50 is one pass over the file: whatever
    the number of records, each is processed once, in the order of the
    file, and the loop ends. *)
Theorem import_visits_each_record_once :
  forall (Net : Type) (apiRequest_POST : InsertCredential -> Net -> result unit * Net)
         (masterKey : jsstring) (credentials : list (option ImportExport.Properties))
         (random : nat -> N * N) (net0 : Net),
    ImportExport.import_credentials apiRequest_POST masterKey credentials random net0
    = ImportExport.for_of apiRequest_POST masterKey credentials (start random net0).
Proof.
  intros Net apiRequest_POST masterKey credentials random net0.
  unfold ImportExport.import_credentials.
  rewrite chunks_from_skipn by lia. reflexivity.
Qed.





(** X27: what the import makes of a record with a name, a username and a
    password that is not empty.  When the master key and the password are
    well-formed strings, the password is sealed under the master key and
    sent: the body of the POST carries name and username as given, a URL
    that is null when the record has none or an empty one, the category
    "other" when the record has none or an empty one, and a sealed password
    that opens, under the master key, to the password of the record.  When
    the master key or the password holds an unpaired surrogate, nothing is
    sent: the record is counted as failed, with the error "Failed to import"
    of its name - "unknown" for an empty one - and the message
    "Failed to encrypt password". *)
Theorem import_seals_record :
  forall (Net : Type) (apiRequest_POST : InsertCredential -> Net -> result unit * Net)
         (masterKey : jsstring) (row : ImportExport.ExportRow)
         (st : ImportExport.ImportState Net),
    List.length (ImportExport.row_password row) <> 0%nat ->
    (well_formed masterKey = true
     /\ well_formed (ImportExport.row_password row) = true
     /\ exists sealed st',
          PasswordCrypto.encrypt (ImportExport.random st 0%nat)
            (ImportExport.row_password row) masterKey = Ok sealed
          /\ (forall rnd, PasswordCrypto.decrypt rnd sealed masterKey
                          = Ok (ImportExport.row_password row))
          /\ ImportExport.import_record apiRequest_POST masterKey
               (Some (reread row)) st
             = ImportExport.Normal st'
          /\ ImportExport.net st'
             = snd (apiRequest_POST
                      {| ins_name := ImportExport.row_name row;
                         ins_url := match ImportExport.row_url row with
                                    | [] => None
                                    | c :: url => Some (c :: url)
                                    end;
                         ins_username := ImportExport.row_username row;
                         ins_encryptedPassword := sealed;
                         ins_category :=
                           Some match ImportExport.row_category row with
                                | [] => lit "other"
                                | c :: category => c :: category
                                end |}
                      (ImportExport.net st))
          /\ (ImportExport.successful (ImportExport.counts st')
              + ImportExport.failed (ImportExport.counts st')
              = S (ImportExport.successful (ImportExport.counts st)
                   + ImportExport.failed (ImportExport.counts st)))%nat)
    \/ ((well_formed masterKey = false
         \/ well_formed (ImportExport.row_password row) = false)
        /\ exists st',
             ImportExport.import_record apiRequest_POST masterKey
               (Some (reread row)) st
             = ImportExport.Normal st'
             /\ ImportExport.net st' = ImportExport.net st
             /\ ImportExport.counts st'
                = {| ImportExport.successful :=
                       ImportExport.successful (ImportExport.counts st);
                     ImportExport.failed :=
                       S (ImportExport.failed (ImportExport.counts st));
                     ImportExport.errors :=
                       ImportExport.errors (ImportExport.counts st)
                       ++ [ImportExport.Failed_to_import
                             (ImportExport.Str
                                match ImportExport.row_name row with
                                | [] => lit "unknown"
                                | c :: name => c :: name
                                end)
                             "Failed to encrypt password"] |}).
Proof.
  intros Net apiRequest_POST masterKey row st Hne.
  destruct (well_formed masterKey) eqn:Hk.
  1: destruct (well_formed (ImportExport.row_password row)) eqn:Hp.
  1:{ left. split; [reflexivity|]. split; [reflexivity|].
      exact (@import_record_sends Net apiRequest_POST masterKey row st Hk Hp Hne). }
  all: right; (split; [tauto|]).
  all: assert (Ethrow : PasswordCrypto.encrypt (ImportExport.random st 0%nat)
                          (ImportExport.row_password row) masterKey
                        = Throw PasswordCrypto.encrypt_failed)
         by (destruct (PasswordCrypto.encrypt (ImportExport.random st 0%nat)
                         (ImportExport.row_password row) masterKey)
               as [sealed|e] eqn:E;
             [destruct (BlobFacts.encrypt_well_formed _ _ _ E); congruence
             | unfold PasswordCrypto.encrypt, try_catch_rethrow in E;
               destruct (CipherCore.AES_encrypt (ImportExport.random st 0%nat)
                           (ImportExport.row_password row) masterKey);
               [discriminate E | now symmetry]]).
  all: unfold ImportExport.import_record, reread;
    cbn [ImportExport.prop_name ImportExport.prop_url ImportExport.prop_username
         ImportExport.prop_password ImportExport.prop_category];
    destruct (ImportExport.row_password row) as [|p0 password] eqn:Epw;
      [contradiction Hne; reflexivity|];
    destruct (ImportExport.row_name row) as [|n0 name];
    destruct (ImportExport.row_url row) as [|u0 url];
    destruct (ImportExport.row_category row) as [|c0 category];
    cbn [ImportExport.or_value ImportExport.truthy ImportExport.safeParse];
    cbv zeta;
    cbn [ImportExport.random ImportExport.counts ImportExport.net
         ImportExport.valid_name ImportExport.valid_url ImportExport.valid_username
         ImportExport.valid_password ImportExport.valid_category];
    rewrite Ethrow; cbv beta iota;
    eexists; (split; [reflexivity|]); split; reflexivity.
Qed.

Lemma import_seals_record_witness :
  exists sealed st',
    PasswordCrypto.encrypt (salts 0%nat) (lit "site-password") alice_key = Ok sealed
    /\ PasswordCrypto.decrypt (0, 0)%N sealed alice_key = Ok (lit "site-password")
    /\ ImportExport.import_record keep_posted alice_key
         (Some (reread {| ImportExport.row_name := lit "mail";
                          ImportExport.row_url := [];
                          ImportExport.row_username := lit "alice";
                          ImportExport.row_password := lit "site-password";
                          ImportExport.row_category := [] |}))
         (start salts [])
       = ImportExport.Normal st'
    /\ ImportExport.net st'
       = [{| ins_name := lit "mail"; ins_url := None; ins_username := lit "alice";
             ins_encryptedPassword := sealed; ins_category := Some (lit "other") |}].
Proof.
  assert (Hne : List.length (lit "site-password") <> 0%nat) by discriminate.
  destruct (@import_seals_record _ keep_posted alice_key
              {| ImportExport.row_name := lit "mail";
                 ImportExport.row_url := [];
                 ImportExport.row_username := lit "alice";
                 ImportExport.row_password := lit "site-password";
                 ImportExport.row_category := [] |}
              (start salts []) Hne)
    as [(_ & _ & sealed & st' & Es & Hopen & E & Hnet & _)|([Hk|Hp] & _)].
  - exists sealed, st'. split; [exact Es|]. split; [apply Hopen|].
    split; [exact E | exact Hnet].
  - vm_compute in Hk. discriminate Hk.
  - vm_compute in Hp. discriminate Hp.
Defined.

(** X28: export followed by import changes the passwords that start with
    "=", "+", "-" or "@".  A credential sealed under the master key from a
    password that is not empty is exported in one row, and the import of
    that row sends a sealed password that opens to the password of the
    credential, behind an apostrophe when it starts with one of these
    characters. *)
Theorem export_then_import_password :
  forall (Net : Type) (apiRequest_POST : InsertCredential -> Net -> result unit * Net)
         (masterKey password : jsstring) (salt : N * N) (cred : Credential.t)
         (rnd : nat -> N * N) (st : ImportExport.ImportState Net),
    PasswordCrypto.encrypt salt password masterKey
      = Ok (Credential.encryptedPassword cred) ->
    List.length password <> 0%nat ->
    exists row sealed st',
      ImportExport.export_loop rnd masterKey [cred] [] [] = ([row], [])
      /\ ImportExport.import_record apiRequest_POST masterKey (Some (reread row)) st
         = ImportExport.Normal st'
      /\ (exists body,
            ImportExport.net st' = snd (apiRequest_POST body (ImportExport.net st))
            /\ ins_encryptedPassword body = sealed)
      /\ (forall rnd', PasswordCrypto.decrypt rnd' sealed masterKey
                       = Ok (if starts_formula password
                             then ImportExport.apostrophe :: password
                             else password)).
Proof.
  intros Net apiRequest_POST masterKey password salt cred rnd st Eseal Hne.
  destruct (BlobFacts.encrypt_well_formed _ _ _ Eseal) as [Hp Hk].
  destruct (decrypt_encrypt salt (rnd 0%nat) password masterKey Hp Hk)
    as (sealed0 & Es0 & Ed0).
  rewrite Eseal in Es0. injection Es0 as <-.
  assert (Eopen : opened password = Ok password)
    by (destruct password; [contradiction Hne; reflexivity | reflexivity]).
  rewrite Eopen in Ed0.
  exists (row_of cred password).
  assert (Esan : ImportExport.sanitizeForCSV password
                 = if starts_formula password
                   then ImportExport.apostrophe :: password else password).
  { destruct (starts_formula password) eqn:Ef;
      [now apply sanitizeForCSV_quoted | now apply sanitizeForCSV_fixed]. }
  assert (Hwf : well_formed (ImportExport.sanitizeForCSV password) = true).
  { rewrite Esan. destruct (starts_formula password); [|exact Hp].
    unfold well_formed in *. cbn [CryptoJS.Utf8_parse].
    change (CryptoJS.is_lead ImportExport.apostrophe) with false.
    change (CryptoJS.is_trail ImportExport.apostrophe) with false.
    change (ImportExport.apostrophe <? 65536)%N with true. cbv iota.
    now destruct (CryptoJS.Utf8_parse password). }
  destruct (@import_record_sends Net apiRequest_POST masterKey (row_of cred password)
              st Hk Hwf (sanitizeForCSV_length password Hne))
    as (sealed & st' & Es & Hopen & E & Hnet & _).
  exists sealed, st'. split.
  - rewrite export_loop_cons. cbv zeta. rewrite Ed0. reflexivity.
  - split; [exact E|]. split.
    + eexists. split; [exact Hnet | reflexivity].
    + intro rnd'. rewrite (Hopen rnd'). cbn [row_of ImportExport.row_password].
      now rewrite Esan.
Qed.

Lemma export_then_import_password_witness :
  exists row sealed,
    ImportExport.export_loop salts alice_key
      [{| Credential.id := lit "c-3"; Credential.userId := lit "u-1";
          Credential.name := lit "pin"; Credential.url := None;
          Credential.username := lit "alice";
          Credential.encryptedPassword :=
            lit "U2FsdGVkX18BAgMEBQYHCBG5uI1uYpe0OyPUwuzOb7w=";
          Credential.category := lit "finance";
          Credential.createdAt := 0; Credential.updatedAt := 0 |}] [] []
    = ([row], [])
    /\ ImportExport.row_password row = lit "'-1234"
    /\ PasswordCrypto.decrypt (0, 0)%N sealed alice_key = Ok (lit "'-1234").
Proof.
  destruct (@export_then_import_password _ keep_posted alice_key (lit "-1234")
              sample_salt
              {| Credential.id := lit "c-3"; Credential.userId := lit "u-1";
                 Credential.name := lit "pin"; Credential.url := None;
                 Credential.username := lit "alice";
                 Credential.encryptedPassword :=
                   lit "U2FsdGVkX18BAgMEBQYHCBG5uI1uYpe0OyPUwuzOb7w=";
                 Credential.category := lit "finance";
                 Credential.createdAt := 0; Credential.updatedAt := 0 |}
              salts (start salts []))
    as (row & sealed & st' & Erow & _ & _ & Hopen).
  - vm_compute. reflexivity.
  - discriminate.
  - exists row, sealed. split; [exact Erow|]. split.
    + cbv zeta in Erow. rewrite export_loop_cons in Erow.
      vm_compute in Erow. injection Erow as <-. reflexivity.
    + exact (Hopen (0, 0)%N).
Defined.

(** ** The generator dialog *)

(** X29: the password the generator dialog shows is empty exactly when no
    class is ticked.  With a class ticked and a length of the slider, from
    8 to 64, it has exactly that many characters, all of ticked classes,
    and one of each ticked class among them. *)
Theorem generator_dialog_password :
  forall Array_sort, sorts_by_rearranging Array_sort ->
  forall (options : PasswordGeneratorOptions) (r : Rng),
    (PasswordGeneratorModal.slider_min <= length options
     <= PasswordGeneratorModal.slider_max)%Z ->
    (class_count options = 0%nat
     /\ fst (PasswordGeneratorModal.generatedPassword Array_sort options r) = [])
    \/ (class_count options <> 0%nat
        /\ List.length (fst (PasswordGeneratorModal.generatedPassword Array_sort
                               options r))
           = Z.to_nat (length options)
        /\ represents options
             (fst (PasswordGeneratorModal.generatedPassword Array_sort options r))
        /\ Forall (fun c => In c (charset_of options))
             (fst (PasswordGeneratorModal.generatedPassword Array_sort options r))).
Proof.
  intros Array_sort Hsort options r Hslider.
  unfold PasswordGeneratorModal.slider_min, PasswordGeneratorModal.slider_max in Hslider.
  unfold PasswordGeneratorModal.generatedPassword, bind, ret.
  destruct (Nat.eq_dec (class_count options) 0) as [H0|Hc].
  - left. split; [exact H0|].
    now rewrite (generate_no_class Array_sort options r H0).
  - right. split; [exact Hc|].
    destruct (@generate_with_class Array_sort Hsort options r Hc)
      as (s & E & Hlen & Hrep & Hall).
    destruct (PasswordGenerator.generate Array_sort options r) as [generated r'].
    cbn [fst] in *. subst generated.
    split; [|split; assumption].
    rewrite Hlen.
    assert (class_count options <= 4)%nat.
    { unfold class_count.
      destruct (uppercase options), (lowercase options), (numbers options),
        (symbols options); cbn; lia. }
    lia.
Qed.

Lemma generator_dialog_password_witness :
  List.length (fst (PasswordGeneratorModal.generatedPassword
                      PasswordGenerator.insertion_sort
                      PasswordGeneratorModal.initial_options sample_rng)) = 16%nat.
Proof.
  destruct (@generator_dialog_password _ insertion_sort_rearranges
              PasswordGeneratorModal.initial_options sample_rng)
    as [[H0 _]|(_ & Hlen & _)].
  - vm_compute. split; discriminate.
  - discriminate H0.
  - exact Hlen.
Defined.

(** ** The new definitions on sample data *)

Module VaultSamples.
Import Server VaultSpec ImportExport TransferSpec.

Example or_null_samples :
  or_null (Some (lit "https://example.org")) = Some (lit "https://example.org")
  /\ or_null (Some []) = None /\ or_null None = None
  /\ or_else (Some (lit "work")) (lit "other") = lit "work"
  /\ or_else (Some []) (lit "other") = lit "other"
  /\ or_else None (lit "other") = lit "other".
Proof. repeat split. Qed.

Example routes_on_sample :
  get_credentials (Some alice) sample_db = {| code := 200; payload := Many [mail] |}
  /\ get_credentials (Some bob) sample_db = {| code := 200; payload := Many [] |}
  /\ snd (credential_routes (lit "c-2") 1700000300 0 (Some bob)
            (PUT_credential (lit "c-1") (Some rename)) sample_db) = not_found
  /\ snd (credential_routes (lit "c-2") 1700000300 0 (Some bob)
            (DELETE_credential (lit "c-1")) sample_db) = not_found
  /\ snd (credential_routes (lit "c-1") 1700000300 0 (Some bob)
            (POST_credentials (Some bank)) sample_db)
     = {| code := 500; payload := Message "Failed to create credential" |}
  /\ snd (credential_routes (lit "c-2") 1700000300 0 (Some alice)
            (PUT_credential (lit "c-1") (Some rename)) sample_db)
     = {| code := 200;
          payload :=
            One {| Credential.id := lit "c-1"; Credential.userId := lit "u-1";
                   Credential.name := lit "webmail"; Credential.url := None;
                   Credential.username := lit "alice@example.org";
                   Credential.encryptedPassword :=
                     lit "U2FsdGVkX18BAgMEBQYHCBg7e9YKfAmtpjFFyOuge7o=";
                   Credential.category := lit "other";
                   Credential.createdAt := 1700000200;
                   Credential.updatedAt := 1700000300 |} |}
  /\ credential_routes (lit "c-2") 1700000300 0 (Some alice)
       (DELETE_credential (lit "c-1")) sample_db
     = ({| users := [alice; bob]; credentials := [] |},
        {| code := 204; payload := SendStatus |}).
Proof. repeat split. Qed.

Example scrub_samples :
  scrub (lit "pass") = lit "pass"
  /\ scrub [55357; 56832]%N = [55357; 56832]%N
  /\ scrub [97; 55357; 98]%N = [97; 65533; 98]%N
  /\ scrub [56832; 55357]%N = [65533; 65533]%N
  /\ text_parameter [97; 0; 98]%N = Throw invalid_byte_sequence
  /\ text_parameter [97; 56832]%N = Ok [97; 65533]%N.
Proof. repeat split. Qed.

Example refused_on_sample :
  credential_routes (lit "c-2") 1700000300 0 (Some alice)
    (DELETE_credential [99; 0]%N) sample_db
  = (sample_db, {| code := 500; payload := Message "Failed to delete credential" |})
  /\ credential_routes (lit "c-2") 1700000300 0 (Some alice)
       (PUT_credential [99; 0]%N (Some rename)) sample_db
     = (sample_db, {| code := 500; payload := Message "Failed to update credential" |})
  /\ credential_routes (lit "c-2") 1700000300 0 (Some alice)
       (PUT_credential (lit "c-1")
          (Some {| upd_name := Some [0]%N; upd_url := None; upd_username := None;
                   upd_encryptedPassword := None; upd_category := None |}))
       sample_db
     = (sample_db, {| code := 500; payload := Message "Failed to update credential" |})
  /\ credential_routes (lit "c-2") 1700000300 0 (Some alice)
       (POST_credentials
          (Some {| ins_name := [0]%N; ins_url := None; ins_username := lit "alice";
                   ins_encryptedPassword := lit "U2FsdGVkX18="; ins_category := None |}))
       sample_db
     = (sample_db, {| code := 500; payload := Message "Failed to create credential" |}).
Proof. repeat split. Qed.

Example placement_on_sample :
  map Credential.id
    (getCredentials
       (fst (credential_routes (lit "c-2") 1700000300 0 (Some alice)
               (POST_credentials (Some bank)) sample_db)) (lit "u-1"))
  = [lit "c-2"; lit "c-1"]
  /\ map Credential.id
       (getCredentials
          (fst (credential_routes (lit "c-2") 1700000300 1 (Some alice)
                  (POST_credentials (Some bank)) sample_db)) (lit "u-1"))
     = [lit "c-1"; lit "c-2"]
  /\ map Credential.encryptedPassword
       (getCredentials
          (fst (credential_routes (lit "c-2") 1700000300 1 (Some alice)
                  (POST_credentials
                     (Some {| ins_name := lit "pin"; ins_url := None;
                              ins_username := lit "alice";
                              ins_encryptedPassword := [55357]%N;
                              ins_category := None |}))
                  (fst (credential_routes (lit "c-9") 1700000300 0 (Some alice)
                          (DELETE_credential (lit "c-1")) sample_db))))
          (lit "u-1"))
     = [[65533]%N].
Proof. repeat split. Qed.

Example import_of_unpaired_surrogate :
  match import_credentials keep_posted alice_key
          [Some {| prop_name := Str (lit "pin"); prop_url := Null;
                   prop_username := Str (lit "alice");
                   prop_password := Str [55357]%N; prop_category := Null |}]
          salts [] with
  | Normal st =>
      successful (counts st) = 0%nat /\ failed (counts st) = 1%nat
      /\ errors (counts st)
         = [Failed_to_import (Str (lit "pin")) "Failed to encrypt password"]
      /\ net st = []
  | Escaped _ => False
  end.
Proof. vm_compute. repeat split. Qed.

Example import_of_sample_file :
  match import_credentials keep_posted alice_key
          [record_of "mail" "site-password"; record_of "empty" "";
           Some {| prop_name := Other true; prop_url := Null;
                   prop_username := Str (lit "alice");
                   prop_password := Str (lit "x"); prop_category := Null |};
           record_of "pin" "-1234"]
          salts [] with
  | Normal st =>
      successful (counts st) = 2%nat /\ failed (counts st) = 2%nat
      /\ errors (counts st)
         = [Validation_failed (Str (lit "empty")); Validation_failed (Other true)]
      /\ map ins_name (net st) = [lit "mail"; lit "pin"]
      /\ map (fun body => PasswordCrypto.decrypt (0, 0)%N (ins_encryptedPassword body)
                            alice_key) (net st)
         = [Ok (lit "site-password"); Ok (lit "-1234")]
  | Escaped _ => False
  end.
Proof. vm_compute. repeat split. Qed.

Example import_of_null_record :
  match import_credentials keep_posted alice_key
          [record_of "mail" "site-password"; None; record_of "pin" "-1234"]
          salts [] with
  | Normal _ => False
  | Escaped st => map ins_name (net st) = [lit "mail"]
  end.
Proof. vm_compute. reflexivity. Qed.

End VaultSamples.
